(** * Face: the closed boundary loop of a polygon (src/classes/face.js)

    A shallow embedding of the [Face] class of flatten-js and the proofs of
    its specified properties.  A face is a circular doubly linked list of
    edges; the edges live in a store shared with the owning polygon, the face
    only holds the two entry references [first] and [last].

    Conventions of the embedding:
    - edge objects are cells of a store [gmap ref Edge]; a reference is a key
      of that store, and [option ref] is a JavaScript value that is either an
      edge or [undefined];
    - a method is a function from the world before the call to the world
      after it, inside the [result] monad: [TypeError] is the exception that
      JavaScript raises when a property of [undefined] is read or written,
      [OutOfFuel] says that a loop did not finish within the number of
      iterator steps it was given;
    - JavaScript numbers are modelled as exact rationals [Q]: arithmetic is
      exact; rounding, infinities and NaN are outside the model;
    - the shape primitives, the numeric utilities and the spatial index are
      collaborators that are not part of face.js.  What the specification
      fixes about them is modelled from it; the rest is the interface
      [Collaborators];
    - [toJSON] and [svg] take the serializers of the Edge class and the
      printing of numbers as parameters.

    The file has two parts: the definitions (the embedding, the invariants
    and the specification-level functions, the worked examples), then the
    lemmas and the theorems about them. *)

From Stdlib Require Import QArith Qminmax Qabs Lqa Lia Ascii String.
From stdpp Require Import base option list gmap.

(** ** The result monad *)

Inductive result (A : Type) : Type :=
| Ok (a : A)
| TypeError
| OutOfFuel.
Arguments Ok {A} a.
Arguments TypeError {A}.
Arguments OutOfFuel {A}.

#[export] Instance result_ret : MRet result := fun _ a => Ok a.
#[export] Instance result_bind : MBind result := fun _ _ k m =>
  match m with
  | Ok a => k a
  | TypeError => TypeError
  | OutOfFuel => OutOfFuel
  end.
#[export] Instance result_fmap : FMap result := fun _ _ f m =>
  match m with
  | Ok a => Ok (f a)
  | TypeError => TypeError
  | OutOfFuel => OutOfFuel
  end.

(** ** Shape primitives *)

Record Point := mkPoint { x : Q; y : Q }.
Record Segment := mkSegment { ps : Point; pe : Point }.
Record Arc := mkArc {
  pc : Point; r : Q; startAngle : Q; endAngle : Q; counterClockwise : bool }.
Record Circle := mkCircle { circle_pc : Point; circle_r : Q }.

Inductive Shape :=
| SSegment (s : Segment)
| SArc (a : Arc).

Inductive Box :=
| EmptyBox
| MkBox (xmin ymin xmax ymax : Q).

Inductive Orientation := CW | CCW | NOT_ORIENTABLE.

#[export] Instance Orientation_eq_dec : EqDecision Orientation.
Proof. solve_decision. Defined.

Definition point (x y : Q) : Point := mkPoint x y.
Definition segment (ps pe : Point) : Segment := mkSegment ps pe.

(** [shape instanceof Flatten.Segment] *)
Definition isSegment (s : Shape) : bool :=
  match s with SSegment _ => true | SArc _ => false end.

Definition Qltb (a b : Q) : bool := negb (Qle_bool b a).

(** Modelled from the spec: Point.equalTo is not in src/; the specification
    says that the joint test of the self-intersection scan is an exact
    coordinate equality, not a tolerance-based one. *)
Definition equalTo (p q : Point) : bool :=
  Qeq_bool (x p) (x q) && Qeq_bool (y p) (y q).

(** Modelled from the spec: Segment.reverse and Arc.reverse are not in src/;
    the reversal of a segment swaps its endpoints, the reversal of an arc
    swaps its endpoints and its sweep direction. *)
Definition Segment_reverse (s : Segment) : Segment := mkSegment (pe s) (ps s).
Definition Arc_reverse (a : Arc) : Arc :=
  mkArc (pc a) (r a) (endAngle a) (startAngle a) (negb (counterClockwise a)).
Definition Shape_reverse (s : Shape) : Shape :=
  match s with
  | SSegment s => SSegment (Segment_reverse s)
  | SArc a => SArc (Arc_reverse a)
  end.

(** Modelled from the spec: Box.merge and the box of a segment are not in
    src/; the box of a face is the union of the boxes of its edges, and
    [new Box()] is the empty box, neutral for the union. *)
Definition Box_merge (b other : Box) : Box :=
  match b, other with
  | EmptyBox, _ => other
  | _, EmptyBox => b
  | MkBox x0 y0 x1 y1, MkBox u0 v0 u1 v1 =>
      MkBox (Qmin x0 u0) (Qmin y0 v0) (Qmax x1 u1) (Qmax y1 v1)
  end.
Definition Segment_box (s : Segment) : Box :=
  MkBox (Qmin (x (ps s)) (x (pe s))) (Qmin (y (ps s)) (y (pe s)))
        (Qmax (x (ps s)) (x (pe s))) (Qmax (y (ps s)) (y (pe s))).
(** [box.ymin], [undefined] for the empty box *)
Definition Box_ymin (b : Box) : option Q :=
  match b with EmptyBox => None | MkBox _ y0 _ _ => Some y0 end.

(** Modelled from the spec: Segment.definiteIntegral is not in src/; it is
    the definite line integral of the segment relative to the ordinate
    [ymin], the term of Green's area formula under which a negative total is
    a counter-clockwise loop.  The reference ordinate defaults to 0. *)
Definition Segment_definiteIntegral (s : Segment) (ymin : option Q) : Q :=
  let ymin := default 0%Q ymin in
  let dx := (x (pe s) - x (ps s))%Q in
  let dy1 := (y (ps s) - ymin)%Q in
  let dy2 := (y (pe s) - ymin)%Q in
  (dx * (dy1 + dy2) / 2)%Q.

(** ** Edges, the store and the collaborators *)

Definition ref := positive.
Definition fref := positive.

(** Modelled from the spec: the Edge class is not in src/; an edge is a shape
    with the two loop links, the back-reference to its face and the cached
    arc length.  [new Edge(shape)] has no links and arc length 0. *)
Record Edge := mkEdge {
  shape : Shape;
  next : option ref;
  prev : option ref;
  face : option fref;
  arc_length : Q }.

Definition new_Edge (s : Shape) : Edge := mkEdge s None None None 0%Q.

Definition set_shape (v : Shape) (E : Edge) : Edge :=
  mkEdge v (next E) (prev E) (face E) (arc_length E).
Definition set_next (v : option ref) (E : Edge) : Edge :=
  mkEdge (shape E) v (prev E) (face E) (arc_length E).
Definition set_prev (v : option ref) (E : Edge) : Edge :=
  mkEdge (shape E) (next E) v (face E) (arc_length E).
Definition set_face (v : option fref) (E : Edge) : Edge :=
  mkEdge (shape E) (next E) (prev E) v (arc_length E).
Definition set_arc_length (v : Q) (E : Edge) : Edge :=
  mkEdge (shape E) (next E) (prev E) (face E) v.

(** Modelled from the spec: PlanarSet is not in src/; the spatial index holds
    the edge population of the polygon as a set with [add] and [delete].
    Its range query is left to the interface below. *)
Definition PlanarSet := list ref.
Definition PlanarSet_add (e : ref) (s : PlanarSet) : PlanarSet :=
  if bool_decide (e ∈ s) then s else s ++ [e].
Definition PlanarSet_delete (e : ref) (s : PlanarSet) : PlanarSet :=
  filter (fun e' => e' ≠ e) s.

(** What face.js uses of its collaborators and the specification leaves
    open: the numeric tolerance, lengths, the geometry of arcs, the exact
    intersection of two shapes, the arc of a circle and the range query of
    the spatial index. *)
Class Collaborators := {
  DP_TOL : Q;
  Segment_length : Segment -> Q;
  Arc_length : Arc -> Q;
  Arc_start : Arc -> Point;
  Arc_end : Arc -> Point;
  Arc_box : Arc -> Box;
  Arc_definiteIntegral : Arc -> option Q -> Q;
  Shape_intersect : Shape -> Shape -> list Point;
  Circle_toArc : Circle -> Arc;
  PlanarSet_search : PlanarSet -> gmap ref Edge -> Box -> list ref }.

Section Shapes.
Context `{Collaborators}.

(** Modelled from the spec: Utils.EQ_0 and Utils.LT are not in src/; they are
    the tolerance-based comparison with zero and the tolerance-based
    less-than of the numeric utilities. *)
Definition EQ_0 (v : Q) : bool := Qltb v DP_TOL && Qltb (- DP_TOL) v.
Definition LT (v w : Q) : bool := Qltb (v - w) (- DP_TOL).
Definition GT (v w : Q) : bool := Qltb DP_TOL (v - w).

Definition Shape_length (s : Shape) : Q :=
  match s with SSegment s => Segment_length s | SArc a => Arc_length a end.
Definition Shape_start (s : Shape) : Point :=
  match s with SSegment s => ps s | SArc a => Arc_start a end.
Definition Shape_end (s : Shape) : Point :=
  match s with SSegment s => pe s | SArc a => Arc_end a end.
Definition Shape_box (s : Shape) : Box :=
  match s with SSegment s => Segment_box s | SArc a => Arc_box a end.
Definition Shape_definiteIntegral (s : Shape) (ymin : option Q) : Q :=
  match s with
  | SSegment s => Segment_definiteIntegral s ymin
  | SArc a => Arc_definiteIntegral a ymin
  end.

(** The getters of Edge: [edge.start], [edge.end], [edge.length], [edge.box]. *)
Definition Edge_start (E : Edge) : Point := Shape_start (shape E).
Definition Edge_end (E : Edge) : Point := Shape_end (shape E).
Definition Edge_length (E : Edge) : Q := Shape_length (shape E).
Definition Edge_box (E : Edge) : Box := Shape_box (shape E).

End Shapes.

(** The last element of a list, if any (the field [last] of a face hides
    this function inside the module below). *)
Abbreviation olast := list.last.

(** ** The face *)

Module Face.
Section Methods.
Context `{Collaborators}.

(** The fields of a Face object.  [_box] and [_orientation] are the two
    caches, [None] while unset. *)
Record Face := mkFace {
  first : option ref;
  last : option ref;
  _box : option Box;
  _orientation : option Orientation }.

(** The world a method runs in: the store of edge objects, the identity and
    the fields of [this], and the container [polygon.edges] that the
    structural methods receive as their [edges] argument. *)
Record World := mkWorld {
  heap : gmap ref Edge;
  self : fref;
  this : Face;
  edges : PlanarSet }.

Definition set_heap (h : gmap ref Edge) (w : World) : World :=
  mkWorld h (self w) (this w) (edges w).
Definition set_first (v : option ref) (w : World) : World :=
  mkWorld (heap w) (self w)
    (mkFace v (last (this w)) (_box (this w)) (_orientation (this w))) (edges w).
Definition set_last (v : option ref) (w : World) : World :=
  mkWorld (heap w) (self w)
    (mkFace (first (this w)) v (_box (this w)) (_orientation (this w))) (edges w).
Definition set_box (v : option Box) (w : World) : World :=
  mkWorld (heap w) (self w)
    (mkFace (first (this w)) (last (this w)) v (_orientation (this w))) (edges w).
Definition set_orientation (v : option Orientation) (w : World) : World :=
  mkWorld (heap w) (self w)
    (mkFace (first (this w)) (last (this w)) (_box (this w)) v) (edges w).
Definition set_edges (v : PlanarSet) (w : World) : World :=
  mkWorld (heap w) (self w) (this w) v.

(** Reading the object behind a value: a property access on [undefined]
    raises a TypeError. *)
Definition deref (h : gmap ref Edge) (v : option ref) : result Edge :=
  match v with
  | Some e => match h !! e with Some E => Ok E | None => TypeError end
  | None => TypeError
  end.

(** [v.field = ...]: a field assignment on the object behind [v]. *)
Definition assign (v : option ref) (f : Edge -> Edge) (w : World) : result World :=
  match v with
  | Some e =>
      match heap w !! e with
      | Some E => Ok (set_heap (<[e := f E]> (heap w)) w)
      | None => TypeError
      end
  | None => TypeError
  end.

(** [new Edge(shape)]: a fresh cell of the store. *)
Definition alloc_Edge (s : Shape) (w : World) : ref * World :=
  let e := fresh (dom (heap w)) in
  (e, set_heap (<[e := new_Edge s]> (heap w)) w).

(** *** The iterator, lines 140-150

    [iter_next] is one call of the iterator's [next()]: from the iterator's
    private [edge] it computes [value], [done] and the new [edge]. *)
Definition iter_next (h : gmap ref Edge) (first : option ref) (edge : option ref)
  : result (option ref * bool * option ref) :=
  let value := match edge with Some e => Some e | None => first end in
  let done :=
    match first with
    | Some f => match edge with Some e => bool_decide (e = f) | None => false end
    | None => true
    end in
  edge' ← match value with
           | Some _ => E ← deref h value; Ok (next E)
           | None => Ok None
           end;
  Ok (value, done, edge').

(** [for (let edge of face) body]: the loop over the iterator, on a loop
    state of type [A] from which the store can be read.  [first] is the
    [first] of the face iterated; no loop body of face.js assigns it, so it
    is read once.  The body returns the new loop state and whether it left
    the loop by [break].  [value] is an edge whenever [done] is false (lemma
    [iter_next_value]); the last branch is the body run on [undefined],
    where it would read a property of [undefined]. *)
Fixpoint for_of {A : Type} (heap_of : A -> gmap ref Edge) (first : option ref)
    (body : ref -> A -> result (A * bool))
    (fuel : nat) (edge : option ref) (acc : A) : result A :=
  match fuel with
  | O => OutOfFuel
  | S fuel' =>
      '(value, done, edge') ← iter_next (heap_of acc) first edge;
      if (done : bool) then Ok acc
      else match value with
           | Some v =>
               '(acc', brk) ← body v acc;
               if (brk : bool) then Ok acc'
               else for_of heap_of first body fuel' edge' acc'
           | None => TypeError
           end
  end.

(** [get edges], lines 156-162 *)
Definition get_edges (fuel : nat) (w : World) : result (list ref) :=
  snd <$> for_of (fun a => heap (fst a)) (first (this w))
            (fun edge a => Ok ((fst a, snd a ++ [edge]), false))
            fuel None (w, []).

(** [get size], lines 168-174 *)
Definition size (fuel : nat) (w : World) : result nat :=
  snd <$> for_of (fun a => heap (fst a)) (first (this w))
            (fun edge a => Ok ((fst a, S (snd a)), false))
            fuel None (w, O).

(** [get box], lines 180-189: computed on the first read, then cached. *)
Definition box (fuel : nat) (w : World) : result (Box * World) :=
  match _box (this w) with
  | None =>
      b ← snd <$> for_of (fun a => heap (fst a)) (first (this w))
             (fun edge a =>
                E ← deref (heap (fst a)) (Some edge);
                Ok ((fst a, Box_merge (snd a) (Edge_box E)), false))
             fuel None (w, EmptyBox);
      Ok (b, set_box (Some b) w)
  | Some b => Ok (b, w)
  end.

(** [static points2segments], lines 191-197 *)
Definition points2segments (points : list Point) : list Segment :=
  map (fun i =>
         mkSegment (nth i points (point 0 0))
                   (nth ((i + 1) mod length points) points (point 0 0)))
      (seq 0 (length points)).

(** [isEmpty], lines 213-215 *)
Definition isEmpty (w : World) : bool :=
  bool_decide (first (this w) = None) && bool_decide (last (this w) = None).

(** [append], lines 223-248 *)
Definition append (edge : ref) (w : World) : result World :=
  w ← match first (this w) with
      | None =>
          w ← assign (Some edge) (set_prev (Some edge)) w;
          w ← assign (Some edge) (set_next (Some edge)) w;
          let w := set_first (Some edge) w in
          let w := set_last (Some edge) w in
          assign (Some edge) (set_arc_length 0%Q) w
      | Some _ =>
          w ← assign (Some edge) (set_prev (last (this w))) w;
          w ← assign (last (this w)) (set_next (Some edge)) w;
          let w := set_last (Some edge) w in
          w ← assign (last (this w)) (set_next (first (this w))) w;
          w ← assign (first (this w)) (set_prev (last (this w))) w;
          E ← deref (heap w) (Some edge);
          P ← deref (heap w) (prev E);
          assign (Some edge) (set_arc_length (arc_length P + Edge_length P)%Q) w
      end;
  w ← assign (Some edge) (set_face (Some (self w))) w;
  Ok (set_edges (PlanarSet_add edge (edges w)) w).

(** [shapes2face], lines 199-207 *)
Fixpoint shapes2face (shapes : list Shape) (w : World) : result World :=
  match shapes with
  | [] => Ok w
  | s :: shapes' =>
      let '(edge, w) := alloc_Edge s w in
      w ← append edge w;
      shapes2face shapes' w
  end.

(** [insert], lines 257-287 *)
Definition insert (newEdge edgeBefore : ref) (w : World) : result World :=
  w ← match first (this w) with
      | None =>
          w ← assign (Some newEdge) (set_prev (Some newEdge)) w;
          w ← assign (Some newEdge) (set_next (Some newEdge)) w;
          let w := set_first (Some newEdge) w in
          Ok (set_last (Some newEdge) w)
      | Some _ =>
          B ← deref (heap w) (Some edgeBefore);
          let edgeAfter := next B in
          w ← assign (Some edgeBefore) (set_next (Some newEdge)) w;
          w ← assign edgeAfter (set_prev (Some newEdge)) w;
          w ← assign (Some newEdge) (set_prev (Some edgeBefore)) w;
          w ← assign (Some newEdge) (set_next edgeAfter) w;
          if bool_decide (last (this w) = Some edgeBefore)
          then Ok (set_first (Some newEdge) w)
          else Ok w
      end;
  w ← assign (Some newEdge) (set_face (Some (self w))) w;
  N ← deref (heap w) (Some newEdge);
  w ← (if bool_decide (prev N = last (this w))
       then assign (Some newEdge) (set_arc_length 0%Q) w
       else
         P ← deref (heap w) (prev N);
         assign (Some newEdge) (set_arc_length (arc_length P + Edge_length P)%Q) w);
  Ok (set_edges (PlanarSet_add newEdge (edges w)) w).

(** [remove], lines 295-314 *)
Definition remove (edge : ref) (w : World) : result World :=
  w ← (if bool_decide (Some edge = first (this w))
          && bool_decide (Some edge = last (this w))
       then
         let w := set_first None w in
         Ok (set_last None w)
       else
         E ← deref (heap w) (Some edge);
         w ← assign (prev E) (set_next (next E)) w;
         E ← deref (heap w) (Some edge);
         w ← assign (next E) (set_prev (prev E)) w;
         E ← deref (heap w) (Some edge);
         let w := if bool_decide (Some edge = first (this w))
                  then set_first (next E) w else w in
         let w := if bool_decide (Some edge = last (this w))
                  then set_last (prev E) w else w in
         Ok w);
  Ok (set_edges (PlanarSet_delete edge (edges w)) w).

(** [setArcLength], lines 370-379 *)
Definition setArcLength (fuel : nat) (w : World) : result World :=
  for_of heap (first (this w))
    (fun edge w =>
       w ← (if bool_decide (Some edge = first (this w))
            then assign (Some edge) (set_arc_length 0%Q) w
            else
              E ← deref (heap w) (Some edge);
              P ← deref (heap w) (prev E);
              assign (Some edge) (set_arc_length (arc_length P + Edge_length P)%Q) w);
       w ← assign (Some edge) (set_face (Some (self w))) w;
       Ok (w, false))
    fuel None w.

(** [signedArea], lines 397-404.  Reading [this.box] may fill the box cache. *)
Definition signedArea (fuel : nat) (w : World) : result (Q * World) :=
  let sArea := 0%Q in
  '(b, w) ← box fuel w;
  let ymin := Box_ymin b in
  sArea ← snd <$> for_of (fun a => heap (fst a)) (first (this w))
             (fun edge a =>
                E ← deref (heap (fst a)) (Some edge);
                Ok ((fst a, (snd a + Shape_definiteIntegral (shape E) ymin)%Q), false))
             fuel None (w, sArea);
  Ok (sArea, w).

(** [area], lines 385-387 *)
Definition area (fuel : nat) (w : World) : result (Q * World) :=
  '(a, w) ← signedArea fuel w;
  Ok (Qabs a, w).

(** [orientation], lines 415-427 *)
Definition orientation (fuel : nat) (w : World) : result (Orientation * World) :=
  match _orientation (this w) with
  | None =>
      '(area, w) ← signedArea fuel w;
      let o := if EQ_0 area then NOT_ORIENTABLE
               else if LT area 0%Q then CCW
               else CW in
      Ok (o, set_orientation (Some o) w)
  | Some o => Ok (o, w)
  end.

(** [reverse], lines 320-363.  The do-while loop collects the edges from
    [last] backwards, reversing each shape on the way. *)
Fixpoint reverse_collect (fuel : nat) (edge_tmp : option ref) (edges : list ref)
    (w : World) : result (list ref * World) :=
  match fuel with
  | O => OutOfFuel
  | S fuel' =>
      match edge_tmp with
      | None => TypeError
      | Some e =>
          E ← deref (heap w) (Some e);
          w ← assign (Some e) (set_shape (Shape_reverse (shape E))) w;
          let edges := edges ++ [e] in
          E ← deref (heap w) (Some e);
          let edge_tmp := prev E in
          if bool_decide (edge_tmp ≠ last (this w))
          then reverse_collect fuel' edge_tmp edges w
          else Ok (edges, w)
      end
  end.

(** The for-of loop of lines 334-356 over the array collected. *)
Fixpoint reverse_relink (edges : list ref) (w : World) : result World :=
  match edges with
  | [] => Ok w
  | edge :: edges' =>
      w ← match first (this w) with
          | None =>
              w ← assign (Some edge) (set_prev (Some edge)) w;
              w ← assign (Some edge) (set_next (Some edge)) w;
              let w := set_first (Some edge) w in
              let w := set_last (Some edge) w in
              assign (Some edge) (set_arc_length 0%Q) w
          | Some _ =>
              w ← assign (Some edge) (set_prev (last (this w))) w;
              w ← assign (last (this w)) (set_next (Some edge)) w;
              let w := set_last (Some edge) w in
              w ← assign (last (this w)) (set_next (first (this w))) w;
              w ← assign (first (this w)) (set_prev (last (this w))) w;
              E ← deref (heap w) (Some edge);
              P ← deref (heap w) (prev E);
              assign (Some edge) (set_arc_length (arc_length P + Edge_length P)%Q) w
          end;
      reverse_relink edges' w
  end.

Definition reverse (fuel : nat) (w : World) : result World :=
  '(edges, w) ← reverse_collect fuel (last (this w)) [] w;
  let w := set_first None w in
  let w := set_last None w in
  w ← reverse_relink edges w;
  match _orientation (this w) with
  | Some _ =>
      let w := set_orientation None w in
      '(o, w) ← orientation fuel w;
      Ok (set_orientation (Some o) w)
  | None => Ok w
  end.

(** [static getSelfIntersections], lines 442-490.  Next to [int_points] the
    embedding keeps a ghost trace: the pairs of edges on which
    [shape.intersect] was called, in call order. *)
Definition scan := (list Point * list (ref * ref))%type.

(** The loop over the intersection points of one pair, lines 467-479. *)
Fixpoint scan_points (exitOnFirst : bool) (edge2 : ref) (E1 E2 : Edge)
    (ip : list Point) (int_points : list Point) : list Point :=
  match ip with
  | [] => int_points
  | pt :: ip' =>
      if equalTo pt (Edge_start E1) && equalTo pt (Edge_end E2)
         && bool_decide (Some edge2 = prev E1)
      then scan_points exitOnFirst edge2 E1 E2 ip' int_points
      else if equalTo pt (Edge_end E1) && equalTo pt (Edge_start E2)
              && bool_decide (Some edge2 = next E1)
      then scan_points exitOnFirst edge2 E1 E2 ip' int_points
      else
        let int_points := int_points ++ [pt] in
        if exitOnFirst then int_points
        else scan_points exitOnFirst edge2 E1 E2 ip' int_points
  end.

(** The loop over the candidates of one edge, lines 452-483. *)
Fixpoint scan_candidates (exitOnFirst : bool) (h : gmap ref Edge)
    (edge1 : ref) (E1 : Edge) (resp : list ref) (st : scan) : result scan :=
  match resp with
  | [] => Ok st
  | edge2 :: resp' =>
      if bool_decide (edge1 = edge2)
      then scan_candidates exitOnFirst h edge1 E1 resp' st
      else
        E2 ← deref h (Some edge2);
        if isSegment (shape E1) && isSegment (shape E2)
           && (bool_decide (next E1 = Some edge2) || bool_decide (prev E1 = Some edge2))
        then scan_candidates exitOnFirst h edge1 E1 resp' st
        else
          let ip := Shape_intersect (shape E1) (shape E2) in
          let int_points := scan_points exitOnFirst edge2 E1 E2 ip (fst st) in
          let st := (int_points, snd st ++ [(edge1, edge2)]) in
          if (0 <? length int_points)%nat && exitOnFirst then Ok st
          else scan_candidates exitOnFirst h edge1 E1 resp' st
  end.

Definition getSelfIntersections_scan (fuel : nat) (w : World) (exitOnFirst : bool)
  : result scan :=
  for_of (fun _ => heap w) (first (this w))
    (fun edge1 st =>
       E1 ← deref (heap w) (Some edge1);
       let resp := PlanarSet_search (edges w) (heap w) (Edge_box E1) in
       st ← scan_candidates exitOnFirst (heap w) edge1 E1 resp st;
       Ok (st, (0 <? length (fst st))%nat && exitOnFirst))
    fuel None ([], []).

Definition getSelfIntersections (fuel : nat) (w : World) (exitOnFirst : bool)
  : result (list Point) :=
  fst <$> getSelfIntersections_scan fuel w exitOnFirst.

(** [isSimple], lines 437-440 *)
Definition isSimple (fuel : nat) (w : World) : result bool :=
  ip ← getSelfIntersections fuel w true;
  Ok (length ip =? 0)%nat.

(** *** The constructor, lines 35-138

    The elements that an array argument can hold: instances of the three
    classes the constructor tests for, any other value that has properties
    (with its [name] property when that is a string, and the segment and the
    arc that [new Segment(shape)] and [new Arc(shape)] build from it), and
    the two values that have none. *)
Inductive JsValue :=
| VPoint (p : Point)
| VSegment (s : Segment)
| VArc (a : Arc)
| VObject (name : option string) (as_segment : Segment) (as_arc : Arc)
| VNull
| VUndefined.

(** The argument lists of the constructor after [polygon]. *)
Inductive Args :=
| NoArgs
| OneArray (shapes : list JsValue)
| OneFace (face : Face)
| OneCircle (c : Circle)
| OneBox (xmin ymin xmax ymax : Q)
| TwoEdges (e1 e2 : ref)
| OtherArgs.

(** [Array.prototype.every] with a test that may raise: it stops at the first
    element that fails the test. *)
Fixpoint every {A : Type} (test : A -> result bool) (l : list A) : result bool :=
  match l with
  | [] => Ok true
  | a :: l' => b ← test a; if (b : bool) then every test l' else Ok false
  end.

Definition instanceof_Point (v : JsValue) : result bool :=
  Ok match v with VPoint _ => true | _ => false end.
Definition instanceof_Segment_or_Arc (v : JsValue) : result bool :=
  Ok match v with VSegment _ | VArc _ => true | _ => false end.
(** [shape.name]: reading a property of [null] or [undefined] raises. *)
Definition get_name (v : JsValue) : result (option string) :=
  match v with
  | VObject name _ _ => Ok name
  | VPoint _ | VSegment _ | VArc _ => Ok None
  | VNull | VUndefined => TypeError
  end.
Definition name_is_segment_or_arc (v : JsValue) : result bool :=
  n ← get_name v;
  Ok (bool_decide (n = Some "segment"%string) || bool_decide (n = Some "arc"%string)).

Definition as_Point (v : JsValue) : Point :=
  match v with VPoint p => p | _ => point 0 0 end.
Definition as_Shape (v : JsValue) : Shape :=
  match v with
  | VSegment s => SSegment s
  | VArc a => SArc a
  | _ => SSegment (segment (point 0 0) (point 0 0))
  end.
(** Lines 78-86: the shape built from a serialized record. *)
Definition flattenShape (v : JsValue) : Shape :=
  match v with
  | VObject name s a =>
      if bool_decide (name = Some "segment"%string) then SSegment s else SArc a
  | _ => as_Shape v
  end.

Definition constructor (fuel : nat) (polygon_edges : PlanarSet)
    (h : gmap ref Edge) (self : fref) (args : Args) : result World :=
  let w := mkWorld h self (mkFace None None None None) polygon_edges in
  match args with
  | NoArgs => Ok w
  | OneArray shapes =>
      if (length shapes =? 0)%nat then Ok w
      else
        all_points ← every instanceof_Point shapes;
        if (all_points : bool) then
          let segments := points2segments (map as_Point shapes) in
          shapes2face (map SSegment segments) w
        else
          all_shapes ← every instanceof_Segment_or_Arc shapes;
          if (all_shapes : bool) then shapes2face (map as_Shape shapes) w
          else
            all_records ← every name_is_segment_or_arc shapes;
            if (all_records : bool) then shapes2face (map flattenShape shapes) w
            else Ok w
  | OneFace face =>
      let w := set_first (first face) w in
      let w := set_last (last face) w in
      for_of heap (first face)
        (fun edge w => Ok (set_edges (PlanarSet_add edge (edges w)) w, false))
        fuel None w
  | OneCircle c => shapes2face [SArc (Circle_toArc c)] w
  | OneBox xmin ymin xmax ymax =>
      shapes2face
        [ SSegment (segment (point xmin ymin) (point xmax ymin));
          SSegment (segment (point xmax ymin) (point xmax ymax));
          SSegment (segment (point xmax ymax) (point xmin ymax));
          SSegment (segment (point xmin ymax) (point xmin ymin)) ] w
  | TwoEdges e1 e2 =>
      let w := set_first (Some e1) w in
      let w := set_last (Some e2) w in
      w ← assign (last (this w)) (set_next (first (this w))) w;
      w ← assign (first (this w)) (set_prev (last (this w))) w;
      setArcLength fuel w
  | OtherArgs => Ok w
  end.

(** ** The circular invariant

    [fnext h e] and [fprev h e] read the two links of the edge [e] in the
    store [h]. *)
Definition fnext (h : gmap ref Edge) (e : ref) : option ref := h !! e ≫= next.
Definition fprev (h : gmap ref Edge) (e : ref) : option ref := h !! e ≫= prev.

(** [a] is linked to [b]: [a.next] is [b] and [b.prev] is [a]. *)
Definition links (h : gmap ref Edge) (a b : ref) : Prop :=
  fnext h a = Some b ∧ fprev h b = Some a.

(** The edges [a :: T] are linked in this order. *)
Fixpoint path (h : gmap ref Edge) (a : ref) (T : list ref) : Prop :=
  match T with
  | [] => True
  | b :: T' => links h a b ∧ path h b T'
  end.

(** The edges [L] are linked in this order and closed: the last one is
    linked to the first one. *)
Definition cpath (h : gmap ref Edge) (L : list ref) : Prop :=
  match L with
  | [] => True
  | a :: T => path h a T ∧ links h (List.last T a) a
  end.

(** [loop w L]: the face of [w] is the closed loop of the edges [L], in
    traversal order from [first] to [last].  The empty face is the empty
    loop. *)
Definition loop (w : World) (L : list ref) : Prop :=
  NoDup L ∧ first (this w) = head L ∧ last (this w) = olast L
  ∧ cpath (heap w) L.

(** Following [next] [n] times from the value [v]. *)
Fixpoint follow (h : gmap ref Edge) (n : nat) (v : option ref) : option ref :=
  match n with
  | O => v
  | S n' => follow h n' (v ≫= fnext h)
  end.

(** The loop body of a for-of run over a given list of edges. *)
Fixpoint run_body {A : Type} (body : ref -> A -> result (A * bool))
    (L : list ref) (acc : A) : result A :=
  match L with
  | [] => Ok acc
  | v :: L' =>
      '(acc', brk) ← body v acc;
      if (brk : bool) then Ok acc' else run_body body L' acc'
  end.

(** [nseq h c R a]: the iterator standing on [c] visits the edges [R] by
    following [next] and then stands on [a]. *)
Fixpoint nseq (h : gmap ref Edge) (c : ref) (R : list ref) (a : ref) : Prop :=
  match R with
  | [] => c = a
  | v :: R' => c = v ∧ ∃ c', fnext h v = Some c' ∧ nseq h c' R' a
  end.

(** ** Definitions used by the proofs

    [link_last] is the block of lines 224-244 of [append], which [reverse]
    repeats at lines 335-355. *)
Definition link_last (edge : ref) (w : World) : result World :=
  match first (this w) with
  | None =>
      w ← assign (Some edge) (set_prev (Some edge)) w;
      w ← assign (Some edge) (set_next (Some edge)) w;
      let w := set_first (Some edge) w in
      let w := set_last (Some edge) w in
      assign (Some edge) (set_arc_length 0%Q) w
  | Some _ =>
      w ← assign (Some edge) (set_prev (last (this w))) w;
      w ← assign (last (this w)) (set_next (Some edge)) w;
      let w := set_last (Some edge) w in
      w ← assign (last (this w)) (set_next (first (this w))) w;
      w ← assign (first (this w)) (set_prev (last (this w))) w;
      E ← deref (heap w) (Some edge);
      P ← deref (heap w) (prev E);
      assign (Some edge) (set_arc_length (arc_length P + Edge_length P)%Q) w
  end.

(** What a method leaves alone in the store: every cell stays allocated and
    keeps its shape. *)
Definition same_shapes (h h' : gmap ref Edge) : Prop :=
  ∀ x, shape <$> h' !! x = shape <$> h !! x.

(** The loop after [insert(edges, n, b)]: [n] comes right after [b]; when
    [b] is the last edge, [n] becomes the first one. *)
Fixpoint put_after (n b : ref) (L : list ref) : list ref :=
  match L with
  | [] => []
  | x :: L' => if decide (x = b) then x :: n :: L' else x :: put_after n b L'
  end.

Definition insert_list (n b : ref) (L : list ref) : list ref :=
  if bool_decide (olast L = Some b) then n :: L else put_after n b L.

(** The loop after [remove(edges, e)]. *)
Definition remove_list (e : ref) (L : list ref) : list ref :=
  filter (fun x => x ≠ e) L.

(** ** Sequences of structural operations *)
Inductive Op :=
| Append (edge : ref)
| Insert (newEdge edgeBefore : ref)
| Remove (edge : ref).

Definition run_op (op : Op) (w : World) : result World :=
  match op with
  | Append edge => append edge w
  | Insert newEdge edgeBefore => insert newEdge edgeBefore w
  | Remove edge => remove edge w
  end.

Fixpoint run_ops (ops : list Op) (w : World) : result World :=
  match ops with
  | [] => Ok w
  | op :: ops' => w ← run_op op w; run_ops ops' w
  end.

(** The loop after an operation. *)
Definition op_list (L : list ref) (op : Op) : list ref :=
  match op with
  | Append edge => L ++ [edge]
  | Insert newEdge edgeBefore => insert_list newEdge edgeBefore L
  | Remove edge => remove_list edge L
  end.

(** An operation is applied within its contract: an edge appended or
    inserted is an edge object that is not yet in the loop, [edgeBefore] and
    an edge removed belong to the loop. *)
Definition op_ok (h : gmap ref Edge) (L : list ref) (op : Op) : Prop :=
  match op with
  | Append edge => is_Some (h !! edge) ∧ (edge ∉ L)
  | Insert newEdge edgeBefore =>
      is_Some (h !! newEdge) ∧ (newEdge ∉ L) ∧ edgeBefore ∈ L
  | Remove edge => edge ∈ L
  end.

Fixpoint ops_ok (h : gmap ref Edge) (L : list ref) (ops : list Op) : Prop :=
  match ops with
  | [] => True
  | op :: ops' => op_ok h L op ∧ ops_ok h (op_list L op) ops'
  end.

(** The body of the loop of [setArcLength], lines 372-377. *)
Definition setArcLength_body (edge : ref) (w : World) : result (World * bool) :=
  w ← (if bool_decide (Some edge = first (this w))
       then assign (Some edge) (set_arc_length 0%Q) w
       else
         E ← deref (heap w) (Some edge);
         P ← deref (heap w) (prev E);
         assign (Some edge) (set_arc_length (arc_length P + Edge_length P)%Q) w);
  w ← assign (Some edge) (set_face (Some (self w))) w;
  Ok (w, false).

(** Two worlds with the same face, the same links and the same shapes. *)
Definition same_loop (w w' : World) : Prop :=
  this w' = this w ∧ self w' = self w ∧ edges w' = edges w
  ∧ (∀ u, fnext (heap w') u = fnext (heap w) u)
  ∧ (∀ u, fprev (heap w') u = fprev (heap w) u)
  ∧ same_shapes (heap w) (heap w').

(** The arc-length law along a list of edges that follows [p]. *)
Fixpoint arc_chain (h : gmap ref Edge) (p : ref) (R : list ref) : Prop :=
  match R with
  | [] => True
  | v :: R' =>
      (∃ P V, h !! p = Some P ∧ h !! v = Some V
              ∧ arc_length V = (arc_length P + Edge_length P)%Q)
      ∧ arc_chain h v R'
  end.

(** The arc-length law on a whole loop: the first edge is at 0. *)
Definition arc_law (h : gmap ref Edge) (L : list ref) : Prop :=
  match L with
  | [] => True
  | a :: T => (∃ A, h !! a = Some A ∧ arc_length A = 0%Q) ∧ arc_chain h a T
  end.

(** [pseq h c R z]: following [prev] from [c] visits the edges [R] and then
    stands on [z]. *)
Fixpoint pseq (h : gmap ref Edge) (c : ref) (R : list ref) (z : ref) : Prop :=
  match R with
  | [] => c = z
  | v :: R' => c = v ∧ ∃ c', fprev h v = Some c' ∧ pseq h c' R' z
  end.

(** The store after the shapes of the edges [R] have been reversed. *)
Definition reversed_in (R : list ref) (h h' : gmap ref Edge) : Prop :=
  ∀ x, h' !! x =
       (fun E => if bool_decide (x ∈ R)
                 then set_shape (Shape_reverse (shape E)) E else E) <$> h !! x.

(** ** [box], [signedArea] and [orientation] *)
(** The shapes of the edges [L], in order. *)
Definition shapes_of (h : gmap ref Edge) (L : list ref) (ss : list Shape) : Prop :=
  Forall2 (fun x s => shape <$> h !! x = Some s) L ss.

(** The box and the signed area computed from a list of shapes. *)
Definition box_of (ss : list Shape) : Box :=
  fold_left (fun b s => Box_merge b (Shape_box s)) ss EmptyBox.

Definition area_of (ymin : option Q) (ss : list Shape) : Q :=
  fold_left (fun a s => (a + Shape_definiteIntegral s ymin)%Q) ss 0%Q.

(** The classification of lines 418-424. *)
Definition classify (area : Q) : Orientation :=
  if EQ_0 area then NOT_ORIENTABLE else if LT area 0%Q then CCW else CW.

(** The cache that [reverse] leaves behind: the orientation, when it was
    cached, is recomputed on the reversed loop, with the cached box if there
    is one. *)
Definition orientation_after_reverse (w : World) (ss' : list Shape)
  : option Orientation :=
  match _orientation (this w) with
  | None => None
  | Some _ =>
      Some (classify (area_of (Box_ymin (default (box_of ss') (_box (this w)))) ss'))
  end.

(** ** The self-intersection scan

    The rules of the scan as the specification words them. *)
(** A candidate [e2] of [e1] is skipped: it is [e1] itself, or it is the
    immediate predecessor or successor of [e1] and both are segments. *)
Definition skipped (e1 e2 : ref) (E1 E2 : Edge) : bool :=
  bool_decide (e1 = e2)
  || ((bool_decide (prev E1 = Some e2) || bool_decide (next E1 = Some e2))
      && (isSegment (shape E1) && isSegment (shape E2))).

(** An intersection point is the joint of the loop between [e1] and [e2]. *)
Definition is_joint (e2 : ref) (E1 E2 : Edge) (pt : Point) : bool :=
  (bool_decide (prev E1 = Some e2)
   && (equalTo pt (Edge_start E1) && equalTo pt (Edge_end E2)))
  || (bool_decide (next E1 = Some e2)
      && (equalTo pt (Edge_end E1) && equalTo pt (Edge_start E2))).

(** The intersection points of a pair that are not discarded. *)
Definition kept (e2 : ref) (E1 E2 : Edge) : list Point :=
  List.filter (fun pt => negb (is_joint e2 E1 E2 pt))
    (Shape_intersect (shape E1) (shape E2)).

(** The points that one call of [intersect] contributes: the intersection
    points of the shapes of the two edges, without their joint. *)
Definition pair_points (h : gmap ref Edge) (p : ref * ref) : list Point :=
  match h !! p.1, h !! p.2 with
  | Some E1, Some E2 => kept p.2 E1 E2
  | _, _ => []
  end.

(** The pairs whose intersections are computed, each with its points kept:
    for one edge and its candidates, and for a list of edges. *)
Definition items_of (h : gmap ref Edge) (e1 : ref) (E1 : Edge) (resp : list ref)
  : list ((ref * ref) * list Point) :=
  flat_map (fun e2 =>
              match h !! e2 with
              | Some E2 =>
                  if skipped e1 e2 E1 E2 then [] else [((e1, e2), kept e2 E1 E2)]
              | None => []
              end) resp.

Definition items (h : gmap ref Edge) (edges : PlanarSet) (L : list ref)
  : list ((ref * ref) * list Point) :=
  flat_map (fun e1 =>
              match h !! e1 with
              | Some E1 => items_of h e1 E1 (PlanarSet_search edges h (Edge_box E1))
              | None => []
              end) L.

(** The early exit: the items up to the first one that keeps a point. *)
Fixpoint until_hit (its : list ((ref * ref) * list Point))
  : list ((ref * ref) * list Point) :=
  match its with
  | [] => []
  | it :: its' => if snd it is [] then it :: until_hit its' else [it]
  end.

Definition reached (exitOnFirst : bool) (its : list ((ref * ref) * list Point)) :=
  if exitOnFirst then until_hit its else its.

Definition collected (exitOnFirst : bool) (pts : list Point) : list Point :=
  if exitOnFirst then firstn 1 pts else pts.

(** The body of the loop over the edges of the face, lines 446-487. *)
Definition scan_body (w : World) (x : bool) (edge1 : ref) (st : scan)
  : result (scan * bool) :=
  E1 ← deref (heap w) (Some edge1);
  let resp := PlanarSet_search (edges w) (heap w) (Edge_box E1) in
  st ← scan_candidates x (heap w) edge1 E1 resp st;
  Ok (st, (0 <? length (fst st))%nat && x).

(** Every candidate that the spatial index returns is an edge object. *)
Definition candidates_allocated (w : World) (L : list ref) : Prop :=
  ∀ e1 E1 e2, e1 ∈ L -> heap w !! e1 = Some E1 ->
    e2 ∈ PlanarSet_search (edges w) (heap w) (Edge_box E1) -> is_Some (heap w !! e2).

(** A check of [candidates_allocated] that computes. *)
Definition candidates_allocatedb (w : World) (L : list ref) : bool :=
  forallb (fun e1 =>
             match heap w !! e1 with
             | Some E1 =>
                 forallb (fun e2 => bool_decide (is_Some (heap w !! e2)))
                   (PlanarSet_search (edges w) (heap w) (Edge_box E1))
             | None => true
             end) L.

(** The four segments that the constructor builds from a box. *)
Definition box_segments (xmin ymin xmax ymax : Q) : list Shape :=
  [ SSegment (segment (point xmin ymin) (point xmax ymin));
    SSegment (segment (point xmax ymin) (point xmax ymax));
    SSegment (segment (point xmax ymax) (point xmin ymax));
    SSegment (segment (point xmin ymax) (point xmin ymin)) ].

(** The three tests of the constructor on one element, as the specification
    words them: the element is a point, a segment or an arc, a recognized
    serialized shape record. *)
Definition is_point (v : JsValue) : bool :=
  match v with VPoint _ => true | _ => false end.

Definition is_segment_or_arc (v : JsValue) : bool :=
  match v with VSegment _ | VArc _ => true | _ => false end.

Definition is_record (v : JsValue) : bool :=
  match v with
  | VObject (Some name) _ _ =>
      bool_decide (name = "segment"%string) || bool_decide (name = "arc"%string)
  | _ => false
  end.

Definition has_properties (v : JsValue) : bool :=
  match v with VNull | VUndefined => false | _ => true end.

End Methods.

#[global] Instance links_dec h a b : Decision (links h a b).
Proof. unfold links. apply _. Defined.
#[global] Instance path_dec h a T : Decision (path h a T).
Proof. revert a. induction T as [|b T IH]; intros a; simpl; apply _. Defined.
#[global] Instance cpath_dec h L : Decision (cpath h L).
Proof. destruct L; simpl; apply _. Defined.
#[global] Instance loop_dec w L : Decision (loop w L).
Proof. unfold loop. apply _. Defined.

#[global] Instance op_ok_dec h L op : Decision (op_ok h L op).
Proof. destruct op; simpl; apply _. Defined.

#[global] Instance ops_ok_dec h L ops : Decision (ops_ok h L ops).
Proof. revert L. induction ops as [|op ops IH]; intros L; simpl; apply _. Defined.

(** ** Serialization, lines 492-507

    [toJSON] and [svg] hand every edge to the method of the same name of the
    Edge class, and [svg] prints the two coordinates of a point; the three
    are collaborators that face.js does not define, taken as parameters. *)
Section Serialization.
Context `{Collaborators} {Json : Type}.
Variable Edge_toJSON : Edge -> Json.
Variable Edge_svg : Edge -> string.
Variable Number_toString : Q -> string.

(** [Array.prototype.map] over edge objects read from the store. *)
Fixpoint map_edges {B : Type} (g : Edge -> B) (h : gmap ref Edge) (es : list ref)
  : result (list B) :=
  match es with
  | [] => Ok []
  | e :: es' => E ← deref h (Some e); r ← map_edges g h es'; Ok (g E :: r)
  end.

(** [toJSON], lines 492-494 *)
Definition toJSON (fuel : nat) (w : World) : result (list Json) :=
  es ← get_edges fuel w;
  map_edges Edge_toJSON (heap w) es.

(** [svg], lines 500-507.  The template literal starts with a line feed. *)
Definition svg (fuel : nat) (w : World) : result string :=
  F ← deref (heap w) (first (this w));
  let svgStr := (String "010"%char "M" ++ Number_toString (x (Edge_start F)) ++ ","
                 ++ Number_toString (y (Edge_start F)))%string in
  svgStr ← snd <$> for_of (fun a => heap (fst a)) (first (this w))
             (fun edge a =>
                E ← deref (heap (fst a)) (Some edge);
                Ok ((fst a, (snd a ++ Edge_svg E)%string), false))
             fuel None (w, svgStr);
  Ok (svgStr ++ " z")%string.

End Serialization.

(** ** The iterator on an arbitrary store

    [iter_edge h f edge] is the private [edge] of the iterator after one
    more call of [next()], on a face whose [first] is [f]: the [next] of the
    value handed out, which is [edge] or, when [edge] is [undefined],
    [first] again. *)
Definition iter_edge (h : gmap ref Edge) (f : ref) (edge : option ref) : option ref :=
  fnext h (default f edge).

(** The values that the iterator hands out in its first [j] calls. *)
Definition visited (h : gmap ref Edge) (f : ref) (j : nat) (edge : option ref)
  : list ref :=
  map (fun i => default f (Nat.iter i (iter_edge h f) edge)) (seq 0 j).

(** Every [next] link of the store leads to an edge object. *)
Definition closed_store (h : gmap ref Edge) : Prop :=
  map_Forall (fun _ E => match next E with
                         | Some n => is_Some (h !! n)
                         | None => True
                         end) h.

(** Two results that fail alike or hold related values. *)
Definition result_rel {A B} (R : A -> B -> Prop) (ra : result A) (rb : result B) : Prop :=
  match ra, rb with
  | Ok a, Ok b => R a b
  | TypeError, TypeError => True
  | OutOfFuel, OutOfFuel => True
  | _, _ => False
  end.

(** ** What the constructor builds

    [builds h polygon_edges self0 ss w' R]: the constructor, run in the
    store [h] for the face [self0], has built the face of the shapes [ss].
    The new edges [R] are fresh cells that hold the shapes in order; they
    are the loop of the face; their arc lengths obey the law; they refer
    back to the face; they have joined [polygon.edges].  The cells that [h]
    held are untouched and both caches are unset. *)
Definition builds `{Collaborators} (h : gmap ref Edge) (polygon_edges : PlanarSet)
    (self0 : fref) (ss : list Shape) (w' : World) (R : list ref) : Prop :=
  loop w' R
  ∧ shapes_of (heap w') R ss
  ∧ arc_law (heap w') R
  ∧ (∀ x, x ∈ R -> h !! x = None ∧ face <$> heap w' !! x = Some (Some self0))
  ∧ (∀ x, is_Some (h !! x) -> heap w' !! x = h !! x)
  ∧ (∀ x, x ∈ edges w' ↔ x ∈ polygon_edges ∨ x ∈ R)
  ∧ self w' = self0
  ∧ _box (this w') = None ∧ _orientation (this w') = None.

(** The edge objects of the edges [L], in order. *)
Definition cells_of (h : gmap ref Edge) (L : list ref) (cells : list Edge) : Prop :=
  Forall2 (fun x E => h !! x = Some E) L cells.

(** Whether a store is closed can be computed. *)
#[global] Instance closed_store_dec h : Decision (closed_store h).
Proof.
  unfold closed_store. apply map_Forall_dec. intros i E. destruct (next E); apply _.
Defined.

(** ** Worked examples

    A set of collaborators for faces made of segments: lengths are measured
    along the axes (exact for axis-parallel segments), two segments meet in
    at most one point, found by Cramer's rule, and the spatial index returns
    the members whose box overlaps the box asked for.  Arcs are not used. *)
Definition axis_length (s : Segment) : Q :=
  (Qabs (x (pe s) - x (ps s)) + Qabs (y (pe s) - y (ps s)))%Q.

Definition cross (ax ay bx by_ : Q) : Q := (ax * by_ - ay * bx)%Q.

Definition segment_intersect (a b : Segment) : list Point :=
  let rx := (x (pe a) - x (ps a))%Q in
  let ry := (y (pe a) - y (ps a))%Q in
  let sx := (x (pe b) - x (ps b))%Q in
  let sy := (y (pe b) - y (ps b))%Q in
  let qx := (x (ps b) - x (ps a))%Q in
  let qy := (y (ps b) - y (ps a))%Q in
  let d := cross rx ry sx sy in
  if Qeq_bool d 0 then []
  else
    let t := (cross qx qy sx sy / d)%Q in
    let u := (cross qx qy rx ry / d)%Q in
    if Qle_bool 0 t && Qle_bool t 1 && Qle_bool 0 u && Qle_bool u 1
    then [point (Qred (x (ps a) + t * rx)) (Qred (y (ps a) + t * ry))]
    else [].

Definition boxes_overlap (a b : Box) : bool :=
  match a, b with
  | MkBox x0 y0 x1 y1, MkBox u0 v0 u1 v1 =>
      Qle_bool x0 u1 && Qle_bool u0 x1 && Qle_bool y0 v1 && Qle_bool v0 y1
  | _, _ => false
  end.

Definition segments_only : Collaborators := {|
  DP_TOL := 1 # 1000000;
  Segment_length := axis_length;
  Arc_length := fun _ => 0%Q;
  Arc_start := pc;
  Arc_end := pc;
  Arc_box := fun _ => EmptyBox;
  Arc_definiteIntegral := fun _ _ => 0%Q;
  Shape_intersect := fun s1 s2 =>
    match s1, s2 with
    | SSegment a, SSegment b => segment_intersect a b
    | _, _ => []
    end;
  Circle_toArc := fun c => mkArc (circle_pc c) (circle_r c) 0 0 true;
  PlanarSet_search := fun s h b =>
    List.filter (fun e =>
                   match h !! e with
                   | Some (mkEdge (SSegment sg) _ _ _ _) =>
                       boxes_overlap (Segment_box sg) b
                   | _ => false
                   end) s |}.

(** A set of collaborators for faces whose arcs are three quarters of a
    circle, from the rightmost point counterclockwise to the lowest one:
    such an arc ends in two of the four axis points of its circle and passes
    through the other two.  A segment and an arc meet in the axis points
    that lie on the segment (exact for the faces of the examples); lengths
    and the spatial index are as above.  Arcs do not meet arcs, and the
    integral of an arc is not used. *)
Definition axis_points (a : Arc) : list Point :=
  [ point (Qred (x (pc a) + r a)) (y (pc a));
    point (x (pc a)) (Qred (y (pc a) + r a));
    point (Qred (x (pc a) - r a)) (y (pc a));
    point (x (pc a)) (Qred (y (pc a) - r a)) ].

Definition on_segment (s : Segment) (p : Point) : bool :=
  Qeq_bool (cross (x (pe s) - x (ps s)) (y (pe s) - y (ps s))
                  (x p - x (ps s)) (y p - y (ps s))) 0
  && Qle_bool (Qmin (x (ps s)) (x (pe s))) (x p)
  && Qle_bool (x p) (Qmax (x (ps s)) (x (pe s)))
  && Qle_bool (Qmin (y (ps s)) (y (pe s))) (y p)
  && Qle_bool (y p) (Qmax (y (ps s)) (y (pe s))).

Definition three_quarter_box (s : Shape) : Box :=
  match s with
  | SSegment sg => Segment_box sg
  | SArc a =>
      MkBox (x (pc a) - r a) (y (pc a) - r a) (x (pc a) + r a) (y (pc a) + r a)
  end.

Definition three_quarter_arcs : Collaborators := {|
  DP_TOL := 1 # 1000000;
  Segment_length := axis_length;
  Arc_length := fun a => (r a * (471238898 # 100000000))%Q;
  Arc_start := fun a => point (Qred (x (pc a) + r a)) (y (pc a));
  Arc_end := fun a => point (x (pc a)) (Qred (y (pc a) - r a));
  Arc_box := fun a => three_quarter_box (SArc a);
  Arc_definiteIntegral := fun _ _ => 0%Q;
  Shape_intersect := fun s1 s2 =>
    match s1, s2 with
    | SSegment a, SSegment b => segment_intersect a b
    | SSegment sg, SArc a | SArc a, SSegment sg =>
        List.filter (on_segment sg) (axis_points a)
    | SArc _, SArc _ => []
    end;
  Circle_toArc := fun c => mkArc (circle_pc c) (circle_r c) 0 0 true;
  PlanarSet_search := fun s h b =>
    List.filter (fun e =>
                   match h !! e with
                   | Some E => boxes_overlap (three_quarter_box (shape E)) b
                   | None => false
                   end) s |}.

(** The world that a result holds, for the examples. *)
Definition world_of (r : result World) : World :=
  match r with
  | Ok w => w
  | _ => mkWorld ∅ 1%positive (mkFace None None None None) []
  end.

(** The face of the unit square, built by the constructor from its box. *)
Definition unit_square : World :=
  world_of (@constructor segments_only 1 [] ∅ 1%positive (OneBox 0 0 1 1)).

(** The face of a "bowtie", built from its four segments. *)
Definition bowtie : World :=
  world_of (@constructor segments_only 1 [] ∅ 1%positive
    (OneArray [ VSegment (segment (point 0 0) (point 1 1));
                VSegment (segment (point 1 1) (point 1 0));
                VSegment (segment (point 1 0) (point 0 1));
                VSegment (segment (point 0 1) (point 0 0)) ])).

(** The face of a "curl": a segment, an arc that starts where the segment
    ends and turns back across it, and two segments that close the loop. *)
Definition curl : World :=
  world_of (@constructor three_quarter_arcs 1 [] ∅ 1%positive
    (OneArray [ VSegment (segment (point 0 0) (point 2 0));
                VArc (mkArc (point (3 # 2) 0) (1 # 2) 0 (471238898 # 100000000) true);
                VSegment (segment (point (3 # 2) (- 1 # 2)) (point (3 # 2) (- 1)));
                VSegment (segment (point (3 # 2) (- 1)) (point 0 0)) ])).

(** Three edge objects that belong to no face yet, and an empty face. *)
Definition three_edges : World :=
  mkWorld
    (<[1%positive := new_Edge (SSegment (segment (point 0 0) (point 1 0)))]>
       (<[2%positive := new_Edge (SSegment (segment (point 1 0) (point 1 1)))]>
          (<[3%positive := new_Edge (SSegment (segment (point 1 1) (point 0 0)))]> ∅)))
    1%positive (mkFace None None None None) [].

(** The face of the first two of the three edges. *)
Definition two_edges : World :=
  world_of (@run_ops segments_only [Append 1%positive; Append 2%positive] three_edges).

(** An open chain: the first edge leads to the second one, which leads
    nowhere. *)
Definition open_chain : World :=
  mkWorld
    (<[1%positive := mkEdge (SSegment (segment (point 0 0) (point 1 0)))
                       (Some 2%positive) None None 0%Q]>
       (<[2%positive := mkEdge (SSegment (segment (point 1 0) (point 1 1)))
                          None (Some 1%positive) None 0%Q]> ∅))
    1%positive (mkFace (Some 1%positive) (Some 2%positive) None None) [].

(** The vertices of a triangle, and two serialized shape records. *)
Definition triangle : list JsValue :=
  [VPoint (point 0 0); VPoint (point 1 0); VPoint (point 0 1)].

Definition records : list JsValue :=
  [VObject (Some "segment"%string) (segment (point 0 0) (point 1 0))
     (mkArc (point 0 0) 1 0 0 true);
   VObject (Some "arc"%string) (segment (point 0 0) (point 0 0))
     (mkArc (point 0 0) 1 0 1 true)].

(** * Lemmas and theorems

    ** Reading and writing the store *)
Section Store.
Context `{Collaborators}.

Lemma deref_Some h e E : h !! e = Some E -> deref h (Some e) = Ok E.
Proof. intros Hl. unfold deref. by rewrite Hl. Qed.

Lemma assign_Some e f w E :
  heap w !! e = Some E ->
  assign (Some e) f w = Ok (set_heap (<[e := f E]> (heap w)) w).
Proof. intros Hl. unfold assign. by rewrite Hl. Qed.

Lemma fnext_Some h a b : fnext h a = Some b -> ∃ E, h !! a = Some E ∧ next E = Some b.
Proof.
  unfold fnext. destruct (h !! a) as [E|]; simpl; [|done]. intros Hn. by exists E.
Qed.

Lemma fprev_Some h a b : fprev h a = Some b -> ∃ E, h !! a = Some E ∧ prev E = Some b.
Proof.
  unfold fprev. destruct (h !! a) as [E|]; simpl; [|done]. intros Hp. by exists E.
Qed.

Lemma fnext_lookup h a E : h !! a = Some E -> fnext h a = next E.
Proof. intros Hl. unfold fnext. by rewrite Hl. Qed.

Lemma fprev_lookup h a E : h !! a = Some E -> fprev h a = prev E.
Proof. intros Hl. unfold fprev. by rewrite Hl. Qed.

(** *** Lists: the last element and the path up to it *)
Lemma dlast_cons_cons {A} (a b : A) T : List.last (b :: T) a = List.last T b.
Proof.
  revert a b. induction T as [|c T IH]; intros a b; [done|].
  change (List.last (c :: T) a = List.last (c :: T) b).
  by rewrite !IH.
Qed.

Lemma dlast_snoc {A} (a e : A) T : List.last (T ++ [e]) a = e.
Proof. apply last_last. Qed.

Lemma dlast_elem_of {A} (a : A) T : List.last T a ∈ a :: T.
Proof.
  revert a. induction T as [|b T IH]; intros a; [by left|].
  rewrite dlast_cons_cons. right. apply IH.
Qed.

Lemma dlast_in_tail {A} (a : A) T : T ≠ [] -> List.last T a ∈ T.
Proof.
  destruct T as [|b T]; [done|]. intros _. rewrite dlast_cons_cons. apply dlast_elem_of.
Qed.

Lemma olast_cons {A} (a : A) T : olast (a :: T) = Some (List.last T a).
Proof.
  revert a. induction T as [|b T IH]; intros a; [done|].
  rewrite last_cons_cons, dlast_cons_cons. apply IH.
Qed.

Lemma path_app h a T1 b T2 :
  path h a (T1 ++ b :: T2) ↔ path h a T1 ∧ links h (List.last T1 a) b ∧ path h b T2.
Proof.
  revert a. induction T1 as [|c T1 IH]; intros a.
  - simpl. tauto.
  - rewrite dlast_cons_cons. change (links h a c ∧ path h c (T1 ++ b :: T2)
      ↔ (links h a c ∧ path h c T1) ∧ links h (List.last T1 c) b ∧ path h b T2).
    rewrite IH. tauto.
Qed.

Lemma path_snoc h a T e :
  path h a (T ++ [e]) ↔ path h a T ∧ links h (List.last T a) e.
Proof. rewrite path_app. simpl. tauto. Qed.

(** A path only depends on the [next] of its edges but the last, and on the
    [prev] of its edges but the first. *)
Lemma path_frame h h' a T :
  NoDup (a :: T) ->
  (∀ u, u ∈ a :: T -> u ≠ List.last T a -> fnext h' u = fnext h u) ->
  (∀ v, v ∈ T -> fprev h' v = fprev h v) ->
  path h a T -> path h' a T.
Proof.
  revert a. induction T as [|b T IH]; intros a Hnd Hn Hp; simpl; [done|].
  intros [[Hab Hba] HT]. apply NoDup_cons in Hnd as [Ha Hnd]. split.
  - split.
    + rewrite Hn; [done|by left|].
      rewrite dlast_cons_cons. intros ->. apply Ha, dlast_elem_of.
    + rewrite Hp; [done|by left].
  - apply IH; [done| | |done].
    + intros u Hu Hne. apply Hn; [by right|]. by rewrite dlast_cons_cons.
    + intros v Hv. apply Hp. by right.
Qed.

(** A closed path may be read from any of its edges. *)
Lemma cpath_rot1 h a T : cpath h (a :: T) ↔ cpath h (T ++ [a]).
Proof.
  destruct T as [|b T]; [done|].
  simpl app. unfold cpath.
  rewrite dlast_snoc, path_snoc, dlast_cons_cons. simpl. tauto.
Qed.

Lemma cpath_rotate h L1 L2 : cpath h (L1 ++ L2) ↔ cpath h (L2 ++ L1).
Proof.
  revert L2. induction L1 as [|a L1 IH]; intros L2.
  - by rewrite app_nil_r.
  - change ((a :: L1) ++ L2) with (a :: (L1 ++ L2)).
    rewrite cpath_rot1, <- app_assoc, IH, <- app_assoc. done.
Qed.

Lemma cpath_ext h h' L :
  (∀ u, fnext h' u = fnext h u) -> (∀ u, fprev h' u = fprev h u) ->
  cpath h L -> cpath h' L.
Proof.
  intros Hn Hp. destruct L as [|a T]; [done|]. simpl. unfold links.
  rewrite Hn, Hp. intros [HT ?]. split; [|done]. clear -HT Hn Hp.
  revert a HT. induction T as [|b T IH]; intros a; [done|]. simpl. unfold links.
  rewrite Hn, Hp. intros [? ?]. split; [done|]. by apply IH.
Qed.

(** Splicing [n] in after the last edge of a closed path, and taking the
    last edge [e] out of one. *)
Lemma splice_cpath h h' c T n :
  NoDup (c :: T) -> n ∉ c :: T -> cpath h (c :: T) ->
  (∀ u, fnext h' u =
        if decide (u = n) then Some c
        else if decide (u = List.last T c) then Some n else fnext h u) ->
  (∀ u, fprev h' u =
        if decide (u = n) then Some (List.last T c)
        else if decide (u = c) then Some n else fprev h u) ->
  cpath h' (c :: T ++ [n]).
Proof.
  intros Hnd Hn [HT Hl] Hnext Hprev.
  assert (n ≠ c) as Hnc by (intros ->; apply Hn; by left).
  assert (n ≠ List.last T c) as Hnl by (intros ->; apply Hn, dlast_elem_of).
  change (path h' c (T ++ [n]) ∧ links h' (List.last (T ++ [n]) c) c).
  rewrite dlast_snoc, path_snoc. split_and!.
  - eapply path_frame; [done| | |done].
    + intros u Hu Hul. rewrite Hnext. repeat case_decide; try done.
      subst. by destruct Hn.
    + intros v Hv. rewrite Hprev. repeat case_decide; try done.
      * subst. destruct Hn. by right.
      * subst. by apply NoDup_cons in Hnd as [? _].
  - split.
    + rewrite Hnext. repeat case_decide; congruence.
    + rewrite Hprev. by rewrite decide_True.
  - split.
    + rewrite Hnext. by rewrite decide_True.
    + rewrite Hprev. repeat case_decide; congruence.
Qed.

Lemma unsplice_cpath h h' c T e :
  NoDup (c :: T ++ [e]) -> cpath h (c :: T ++ [e]) ->
  (∀ u, u ≠ e -> fnext h' u =
        if decide (u = List.last T c) then Some c else fnext h u) ->
  (∀ u, u ≠ e -> fprev h' u =
        if decide (u = c) then Some (List.last T c) else fprev h u) ->
  cpath h' (c :: T).
Proof.
  intros Hnd Hc Hnext Hprev.
  change (path h c (T ++ [e]) ∧ links h (List.last (T ++ [e]) c) c) in Hc.
  rewrite dlast_snoc, path_snoc in Hc. destruct Hc as [[HT Hle] Hec].
  change (NoDup ((c :: T) ++ [e])) in Hnd.
  apply NoDup_app in Hnd as (Hnd & Hne & _).
  assert (∀ u, u ∈ c :: T -> u ≠ e) as Hne'.
  { intros u Hu ->. eapply Hne; [done|by left]. }
  split.
  - eapply path_frame; [done| | |done].
    + intros u Hu Hul. rewrite Hnext by auto. by rewrite decide_False.
    + intros v Hv. rewrite Hprev by (apply Hne'; by right).
      rewrite decide_False; [done|]. intros ->.
      by apply NoDup_cons in Hnd as [? _].
  - split.
    + rewrite Hnext by (apply Hne', dlast_elem_of). by rewrite decide_True.
    + rewrite Hprev by (apply Hne'; by left). by rewrite decide_True.
Qed.

(** *** Walking the loop *)

Lemma path_nseq h a T z :
  path h a T -> fnext h (List.last T a) = Some z -> nseq h a (a :: T) z.
Proof.
  revert a. induction T as [|b T IH]; intros a HT Hz.
  - simpl in *. eauto.
  - destruct HT as [[Hab _] HT]. rewrite dlast_cons_cons in Hz.
    split; [done|]. exists b. split; [done|]. by apply IH.
Qed.

Lemma nseq_ext h h' c R a :
  (∀ u, fnext h' u = fnext h u) -> nseq h c R a -> nseq h' c R a.
Proof.
  intros Hn. revert c. induction R as [|v R IH]; intros c; simpl; [done|].
  intros [-> (c' & Hc' & HR)]. split; [done|]. exists c'. rewrite Hn. eauto.
Qed.

Lemma follow_nseq h c R a :
  nseq h c R a -> follow h (length R) (Some c) = Some a.
Proof.
  revert c. induction R as [|v R IH]; intros c; simpl.
  - by intros ->.
  - intros [-> (c' & Hc' & HR)]. rewrite Hc'. by apply IH.
Qed.

Lemma loop_nseq w a T : loop w (a :: T) -> nseq (heap w) a (a :: T) a.
Proof. intros (_ & _ & _ & HT & Hl & _). by apply path_nseq. Qed.

Lemma loop_nil w : loop w [] ↔ first (this w) = None ∧ last (this w) = None.
Proof.
  unfold loop. simpl. split; [tauto|]. intros [? ?].
  split_and!; [apply NoDup_nil_2|done..].
Qed.

Lemma loop_cons w a T :
  loop w (a :: T) ↔
  NoDup (a :: T) ∧ first (this w) = Some a ∧ last (this w) = Some (List.last T a)
  ∧ path (heap w) a T ∧ links (heap w) (List.last T a) a.
Proof. unfold loop. rewrite olast_cons. simpl. tauto. Qed.

Lemma loop_ext w w' L :
  (∀ u, fnext (heap w') u = fnext (heap w) u) ->
  (∀ u, fprev (heap w') u = fprev (heap w) u) ->
  first (this w') = first (this w) -> last (this w') = last (this w) ->
  loop w L -> loop w' L.
Proof.
  intros Hn Hp Hf Hl (Hnd & ? & ? & Hc). unfold loop. rewrite Hf, Hl.
  split_and!; try done. by eapply cpath_ext.
Qed.

Lemma iter_next_value h f edge value edge' :
  iter_next h f edge = Ok (value, false, edge') -> is_Some value.
Proof.
  unfold iter_next. intros Hi.
  destruct f as [f|], edge as [e|]; simpl in Hi;
    try destruct (h !! _); simpl in Hi; simplify_eq; eauto.
Qed.

Section ForOf.

Context {A : Type} (heap_of : A -> gmap ref Edge)
        (body : ref -> A -> result (A * bool)) (a : ref).

Hypothesis body_next : ∀ v acc acc' brk,
  body v acc = Ok (acc', brk) -> ∀ u, fnext (heap_of acc') u = fnext (heap_of acc) u.

Lemma for_of_nseq R : ∀ fuel c acc,
  nseq (heap_of acc) c R a -> a ∉ R -> is_Some (fnext (heap_of acc) a) ->
  length R < fuel ->
  for_of heap_of (Some a) body fuel (Some c) acc = run_body body R acc.
Proof.
  induction R as [|v R IH]; intros fuel c acc Hseq Ha [z Hz] Hfuel;
    (destruct fuel as [|fuel]; [simpl in Hfuel; lia|]).
  - simpl in Hseq. subst c. simpl. unfold iter_next.
    apply fnext_Some in Hz as (E & HE & _). rewrite (deref_Some _ _ _ HE). simpl.
    by rewrite bool_decide_eq_true_2.
  - destruct Hseq as [-> (c' & Hc' & Hseq)].
    simpl. unfold iter_next.
    apply fnext_Some in Hc' as (E & HE & Hc'). rewrite (deref_Some _ _ _ HE). simpl.
    rewrite bool_decide_eq_false_2 by (intros ->; apply Ha; by left).
    destruct (body v acc) as [[acc' brk]| |] eqn:Hb; simpl; [|done|done].
    destruct brk; [done|]. rewrite Hc'. apply IH.
    + eapply nseq_ext; [|done]. eauto.
    + intros Hin. apply Ha. by right.
    + exists z. by rewrite (body_next _ _ _ _ Hb).
    + simpl in Hfuel. lia.
Qed.

Lemma for_of_loop T fuel acc :
  nseq (heap_of acc) a (a :: T) a -> a ∉ T -> length (a :: T) < fuel ->
  for_of heap_of (Some a) body fuel None acc = run_body body (a :: T) acc.
Proof.
  intros [_ (c' & Hc' & Hseq)] Ha Hfuel.
  destruct fuel as [|fuel]; [simpl in Hfuel; lia|].
  simpl. unfold iter_next.
  pose proof Hc' as Hc''. apply fnext_Some in Hc' as (E & HE & Hc').
  rewrite (deref_Some _ _ _ HE). simpl.
  destruct (body a acc) as [[acc' brk]| |] eqn:Hb; simpl; [|done|done].
  destruct brk; [done|]. rewrite Hc'. apply for_of_nseq.
  - eapply nseq_ext; [|done]. eauto.
  - done.
  - exists c'. by rewrite (body_next _ _ _ _ Hb).
  - simpl in Hfuel. lia.
Qed.

End ForOf.

(** A for-of loop over the face of [w] runs its body on the edges of the
    loop, in order. *)
Lemma for_of_face {A} (heap_of : A -> gmap ref Edge) body w L fuel (acc : A) :
  (∀ v acc acc' brk, body v acc = Ok (acc', brk) ->
     ∀ u, fnext (heap_of acc') u = fnext (heap_of acc) u) ->
  loop w L -> heap_of acc = heap w -> length L < fuel ->
  for_of heap_of (first (this w)) body fuel None acc = run_body body L acc.
Proof.
  intros Hbody HL Hacc Hfuel. destruct L as [|a T].
  - apply loop_nil in HL as [-> _]. destruct fuel; [simpl in Hfuel; lia|done].
  - pose proof (loop_nseq _ _ _ HL) as Hseq.
    apply loop_cons in HL as (Hnd & -> & _).
    apply for_of_loop; try done.
    + by rewrite Hacc.
    + by apply NoDup_cons in Hnd as [? _].
Qed.

(** *** [edges] and [size] on a loop *)
Lemma run_body_edges w L l0 :
  run_body (fun edge (a : World * list ref) => Ok ((fst a, snd a ++ [edge]), false))
    L (w, l0) = Ok (w, l0 ++ L).
Proof.
  revert l0. induction L as [|v L IH]; intros l0; simpl.
  - by rewrite app_nil_r.
  - rewrite IH. by rewrite <- app_assoc.
Qed.

Lemma run_body_size w L n :
  run_body (fun edge (a : World * nat) => Ok ((fst a, S (snd a)), false))
    L (w, n) = Ok (w, length L + n)%nat.
Proof.
  revert n. induction L as [|v L IH]; intros n; simpl; [done|].
  rewrite IH. f_equal. f_equal. lia.
Qed.

Lemma get_edges_loop w L fuel :
  loop w L -> length L < fuel -> get_edges fuel w = Ok L.
Proof.
  intros HL Hfuel. unfold get_edges.
  rewrite (for_of_face _ _ w L); try done.
  - by rewrite run_body_edges.
  - by intros ???? [= <- _].
Qed.

Lemma size_loop w L fuel :
  loop w L -> length L < fuel -> size fuel w = Ok (length L).
Proof.
  intros HL Hfuel. unfold size.
  rewrite (for_of_face _ _ w L); try done.
  - rewrite run_body_size. simpl. do 2 f_equal. lia.
  - by intros ???? [= <- _].
Qed.

(** ** Linking an edge after [last] *)

Lemma append_link_last edge w :
  append edge w =
  w ← link_last edge w;
  w ← assign (Some edge) (set_face (Some (self w))) w;
  Ok (set_edges (PlanarSet_add edge (edges w)) w).
Proof. done. Qed.

Lemma reverse_relink_link_last edge edges w :
  reverse_relink (edge :: edges) w = w ← link_last edge w; reverse_relink edges w.
Proof. done. Qed.

Lemma same_shapes_lookup h h' x E :
  same_shapes h h' -> h !! x = Some E -> ∃ E', h' !! x = Some E' ∧ shape E' = shape E.
Proof.
  intros Hs Hx. specialize (Hs x). rewrite Hx in Hs.
  destruct (h' !! x) as [E'|]; simpl in Hs; [|done]. exists E'. split; congruence.
Qed.

#[local] Arguments assign : simpl never.

#[local] Arguments deref : simpl never.

#[local] Arguments cpath : simpl never.

Ltac entries :=
  repeat match goal with
         | Hx : first (this ?w) = _ |- context [first (this ?w)] => rewrite Hx
         | Hx : last (this ?w) = _ |- context [last (this ?w)] => rewrite Hx
         | Hx : next ?E = _ |- context [next ?E] => rewrite Hx
         | Hx : prev ?E = _ |- context [prev ?E] => rewrite Hx
         end.

Ltac bd :=
  repeat (entries;
          match goal with
          | |- context [bool_decide (Some ?u = Some ?v)] =>
              first [ rewrite (bool_decide_eq_true_2 (Some u = Some v)) by congruence
                    | rewrite (bool_decide_eq_false_2 (Some u = Some v)) by congruence ]
          | |- context [bool_decide (Some ?u ≠ Some ?v)] =>
              first [ rewrite (bool_decide_eq_true_2 (Some u ≠ Some v)) by congruence
                    | rewrite (bool_decide_eq_false_2 (Some u ≠ Some v)) by (intros ?; congruence) ]
          end; simpl);
  entries.

Ltac lookup_now :=
  simpl; repeat (rewrite lookup_insert_eq || (rewrite lookup_insert_ne by done));
  (reflexivity || eassumption).

Ltac run1 :=
  entries;
  first [ erewrite assign_Some by lookup_now | erewrite deref_Some by lookup_now ];
  simpl.

Ltac run := repeat run1.

Ltac fields :=
  unfold cpath; simpl; unfold links, fnext, fprev, same_shapes; simpl; intros;
  split_and?;
  repeat (rewrite lookup_insert; case_decide; simplify_eq; simpl);
  repeat case_decide; simplify_eq; simpl;
  repeat match goal with
         | Hx : ?h !! ?x = Some _ |- context [?h !! ?x] => rewrite Hx; simpl
         end;
  try done; try congruence.

Lemma loop_last_first w c T :
  loop w (c :: T) -> List.last T c = c -> T = [].
Proof.
  intros (Hnd & _) Heq. destruct T as [|b T]; [done|]. exfalso.
  apply NoDup_cons in Hnd as [Ha _]. apply Ha. rewrite <- Heq at 1.
  by apply dlast_in_tail.
Qed.

Lemma link_last_spec w L e E :
  loop w L -> heap w !! e = Some E -> e ∉ L ->
  ∃ w', link_last e w = Ok w' ∧ loop w' (L ++ [e])
        ∧ _box (this w') = _box (this w)
        ∧ _orientation (this w') = _orientation (this w)
        ∧ self w' = self w ∧ edges w' = edges w
        ∧ same_shapes (heap w) (heap w')
        ∧ (∀ x, x ≠ e -> arc_length <$> heap w' !! x = arc_length <$> heap w !! x)
        ∧ (∀ x, face <$> heap w' !! x = face <$> heap w !! x).
Proof.
  intros HL He HeL. unfold link_last. destruct L as [|c T].
  - apply loop_nil in HL as [Hf Hl]. run.
    eexists. split; [done|]. unfold loop. simpl.
    split_and!; try done; try (by fields).
    apply NoDup_singleton.
  - pose proof (loop_last_first _ _ _ HL) as Hsingle.
    apply loop_cons in HL as (Hnd & Hf & Hl & HT & Hlc & Hcl).
    assert (e ≠ c) as Hec by (intros ->; apply HeL; by left).
    assert (e ≠ List.last T c) as Hel by (intros ->; apply HeL, dlast_elem_of).
    pose proof Hlc as Hlc'. apply fnext_Some in Hlc' as (El & HEl & HnEl).
    pose proof Hcl as Hcl'. apply fprev_Some in Hcl' as (Ec & HEc & HpEc).
    assert (NoDup ((c :: T) ++ [e])) as Hnd'.
    { apply NoDup_app. split_and!; [done| |apply NoDup_singleton].
      intros u Hu Hue. apply list_elem_of_singleton in Hue as ->. done. }
    destruct (decide (List.last T c = c)) as [Heq|Hne].
    + specialize (Hsingle Heq) as ->. simpl in *. simplify_eq. run.
      eexists. split; [done|]. unfold loop. simpl.
      split_and!; try done; try (by fields).
    + run. eexists. split; [done|]. unfold loop.
      change ((c :: T) ++ [e]) with (c :: T ++ [e]) in *.
      rewrite olast_cons, dlast_snoc. simpl.
      split_and!; try done; try (by fields).
      eapply (splice_cpath (heap w)); [done|done|done| |]; by fields.
Qed.

(** ** [append], [insert] and [remove] keep the loop closed *)
Lemma append_spec w L e E :
  loop w L -> heap w !! e = Some E -> e ∉ L ->
  ∃ w', append e w = Ok w' ∧ loop w' (L ++ [e])
        ∧ _box (this w') = _box (this w)
        ∧ _orientation (this w') = _orientation (this w)
        ∧ self w' = self w ∧ edges w' = PlanarSet_add e (edges w)
        ∧ same_shapes (heap w) (heap w')
        ∧ (∀ x, x ≠ e -> arc_length <$> heap w' !! x = arc_length <$> heap w !! x)
        ∧ (∀ x, x ≠ e -> face <$> heap w' !! x = face <$> heap w !! x)
        ∧ face <$> heap w' !! e = Some (Some (self w)).
Proof.
  intros HL He HeL. rewrite append_link_last.
  destruct (link_last_spec w L e E HL He HeL)
    as (w1 & -> & HL1 & Hb & Ho & Hself & Hedges & Hs & Harc & Hface).
  destruct (same_shapes_lookup _ _ _ _ Hs He) as (E1 & HE1 & _).
  simpl. run. eexists. split; [done|]. simpl.
  split_and!; try done.
  - eapply loop_ext; [| | | |exact HL1]; by fields.
  - by rewrite Hedges.
  - intros x. rewrite <- Hs. by fields.
  - intros x Hx. rewrite <- Harc by done. by fields.
  - intros x Hx. rewrite <- Hface. by fields.
  - rewrite Hself. by fields.
Qed.

Lemma put_after_split n b L1 L2 :
  b ∉ L1 -> put_after n b (L1 ++ b :: L2) = L1 ++ b :: n :: L2.
Proof.
  induction L1 as [|x L1 IH]; intros Hb; simpl.
  - by rewrite decide_True.
  - rewrite decide_False by (intros ->; apply Hb; by left).
    rewrite IH; [done|]. intros ?. apply Hb. by right.
Qed.

Lemma NoDup_split_l {A} (L1 L2 : list A) b : NoDup (L1 ++ b :: L2) -> b ∉ L1.
Proof.
  intros Hnd Hb. apply NoDup_app in Hnd as (_ & Hd & _).
  apply (Hd b Hb). by left.
Qed.

Lemma NoDup_split_r {A} (L1 L2 : list A) b : NoDup (L1 ++ b :: L2) -> b ∉ L2.
Proof.
  intros Hnd Hb. apply NoDup_app in Hnd as (_ & _ & Hd).
  by apply NoDup_cons in Hd as [? _].
Qed.

Lemma olast_split {A} (L1 L2 : list A) b :
  NoDup (L1 ++ b :: L2) -> olast (L1 ++ b :: L2) = Some b ↔ L2 = [].
Proof.
  intros Hnd. split.
  - intros Hl. destruct (decide (L2 = [])) as [|Hne]; [done|]. exfalso.
    apply (NoDup_split_r _ _ _ Hnd).
    rewrite last_app_cons, last_cons in Hl.
    destruct (olast L2) as [z|] eqn:Hz.
    + simplify_eq. by apply last_Some_elem_of.
    + by apply last_None in Hz.
  - intros ->. by rewrite last_snoc.
Qed.

Lemma head_split {A} (L1 L2 : list A) b :
  NoDup (L1 ++ b :: L2) -> head (L1 ++ b :: L2) = Some b ↔ L1 = [].
Proof.
  intros Hnd. split.
  - intros Hh. destruct L1 as [|x L1]; [done|]. simpl in Hh. simplify_eq.
    exfalso. apply (NoDup_split_l _ _ _ Hnd). by left.
  - by intros ->.
Qed.

Lemma remove_list_notin e (L : list ref) : e ∉ L -> remove_list e L = L.
Proof.
  unfold remove_list. induction L as [|x L IH]; intros He; [done|].
  rewrite filter_cons_True by (intros ->; apply He; by left).
  rewrite IH; [done|]. intros ?. apply He. by right.
Qed.

Lemma remove_list_split e L1 L2 :
  NoDup (L1 ++ e :: L2) -> remove_list e (L1 ++ e :: L2) = L1 ++ L2.
Proof.
  intros Hnd. unfold remove_list.
  rewrite filter_app, filter_cons_False by naive_solver.
  fold (remove_list e L1). fold (remove_list e L2).
  rewrite !remove_list_notin; [done| |].
  - by apply (NoDup_split_r _ _ _ Hnd).
  - by apply (NoDup_split_l _ _ _ Hnd).
Qed.

(** A loop read from the edge after [b]: [b] comes last. *)
Lemma loop_rotate_to w L1 b L2 :
  loop w (L1 ++ b :: L2) ->
  ∃ c T, L2 ++ L1 ++ [b] = c :: T ∧ List.last T c = b ∧ NoDup (c :: T)
         ∧ cpath (heap w) (c :: T).
Proof.
  intros (Hnd & _ & _ & Hc).
  assert (olast (L2 ++ L1 ++ [b]) = Some b) as Hlast.
  { by rewrite !app_assoc, last_snoc. }
  destruct (L2 ++ L1 ++ [b]) as [|c T] eqn:Hrot.
  { by destruct L2, L1. }
  exists c, T. rewrite olast_cons in Hlast. simplify_eq.
  split_and!; try done.
  - rewrite <- Hrot. revert Hnd.
    rewrite (Permutation_app_comm L2), <- app_assoc. done.
  - rewrite <- Hrot. apply cpath_rotate. by rewrite <- app_assoc.
Qed.

Lemma insert_spec w L n b N :
  loop w L -> b ∈ L -> heap w !! n = Some N -> n ∉ L ->
  ∃ w', insert n b w = Ok w' ∧ loop w' (insert_list n b L)
        ∧ _box (this w') = _box (this w)
        ∧ _orientation (this w') = _orientation (this w)
        ∧ self w' = self w ∧ edges w' = PlanarSet_add n (edges w)
        ∧ same_shapes (heap w) (heap w')
        ∧ (∀ x, x ≠ n -> arc_length <$> heap w' !! x = arc_length <$> heap w !! x)
        ∧ (∀ x, x ≠ n -> face <$> heap w' !! x = face <$> heap w !! x)
        ∧ face <$> heap w' !! n = Some (Some (self w))
        ∧ (∀ B, heap w !! b = Some B ->
             arc_length <$> heap w' !! n
             = Some (if bool_decide (olast L = Some b) then 0%Q
                     else (arc_length B + Edge_length B)%Q)).
Proof.
  intros HL Hb Hn HnL.
  apply list_elem_of_split in Hb as (L1 & L2 & ->).
  destruct (loop_rotate_to _ _ _ _ HL) as (c & T & Hrot & Hlast & Hnd & Hc).
  pose proof HL as (HndL & Hf & Hl & _).
  assert (n ∉ c :: T) as HnT.
  { rewrite <- Hrot. intros Hin. apply HnL.
    rewrite !elem_of_app, list_elem_of_singleton in Hin.
    rewrite elem_of_app, elem_of_cons. tauto. }
  assert (n ≠ b) as Hnb.
  { intros ->. apply HnL. rewrite elem_of_app, elem_of_cons. tauto. }
  assert (n ≠ c) as Hnc by (intros ->; apply HnT; by left).
  pose proof Hc as [_ [Hbc Hcb]]. rewrite Hlast in Hbc, Hcb.
  apply fnext_Some in Hbc as (B & HB & HnB).
  apply fprev_Some in Hcb as (C & HC & HpC).
  assert (∃ a, first (this w) = Some a) as [a Ha].
  { rewrite Hf. destruct L1; simpl; eauto. }
  assert (∃ l, last (this w) = Some l ∧ (l = b ↔ L2 = [])) as (l & Hl' & Hlb).
  { rewrite Hl. destruct (olast (L1 ++ b :: L2)) as [l|] eqn:Hlast'.
    - exists l. split; [done|]. rewrite <- (olast_split L1 L2 b HndL), Hlast'.
      split; congruence.
    - apply last_None in Hlast'. by destruct L1. }
  rewrite Ha in Hf. rewrite Hl' in Hl. unfold insert. rewrite Ha.
  unfold insert_list. destruct (decide (L2 = [])) as [->|HL2].
  - assert (l = b) as -> by tauto.
    rewrite bool_decide_eq_true_2 by by rewrite last_snoc.
    simpl in Hrot.
    destruct (decide (c = b)) as [->|Hcb]; simplify_eq;
      run; bd; run; bd; run;
      (eexists; split; [done|]); unfold loop; simpl;
      (split_and!; try done; try (by fields));
      try (by rewrite last_cons, last_snoc);
      try (apply NoDup_cons; by split);
      apply cpath_rot1; rewrite Hrot;
      (eapply (splice_cpath (heap w)); [done|done|done| |]);
      rewrite ?Hlast; by fields.
  - assert (l ≠ b) as Hlb' by tauto.
    rewrite bool_decide_eq_false_2 by by rewrite olast_split.
    rewrite put_after_split by by eapply NoDup_split_l.
    assert (c ≠ b) as Hcb.
    { intros ->. destruct L2 as [|d L2]; [done|]. simpl in Hrot. simplify_eq.
      apply NoDup_cons in Hnd as [Hd _]. apply Hd.
      rewrite !elem_of_app, list_elem_of_singleton. tauto. }
    run; bd; run; bd; run.
    eexists. split; [done|]. unfold loop. simpl.
    split_and!; try done; try (by fields).
    + revert HndL. rewrite <- !Permutation_middle. intros HndL.
      rewrite (Permutation_swap n b). apply NoDup_cons. split; [|done].
      intros Hin. apply HnL. revert Hin.
      rewrite !elem_of_cons, !elem_of_app, !elem_of_cons. tauto.
    + rewrite Ha, Hf. by destruct L1.
    + rewrite Hl', Hl. destruct L2 as [|d L2]; [done|].
      by rewrite !last_app_cons, !last_cons_cons.
    + replace (L1 ++ b :: n :: L2) with ((L1 ++ [b; n]) ++ L2)
        by (by rewrite <- app_assoc).
      apply cpath_rotate.
      replace (L2 ++ L1 ++ [b; n]) with ((L2 ++ L1 ++ [b]) ++ [n])
        by (by rewrite <- !app_assoc).
      rewrite Hrot.
      eapply (splice_cpath (heap w)); [done|done|done| |];
        rewrite ?Hlast; by fields.
Qed.

Lemma remove_spec w L e :
  loop w L -> e ∈ L ->
  ∃ w', remove e w = Ok w' ∧ loop w' (remove_list e L)
        ∧ _box (this w') = _box (this w)
        ∧ _orientation (this w') = _orientation (this w)
        ∧ self w' = self w ∧ edges w' = PlanarSet_delete e (edges w)
        ∧ same_shapes (heap w) (heap w')
        ∧ (∀ x, arc_length <$> heap w' !! x = arc_length <$> heap w !! x)
        ∧ (∀ x, face <$> heap w' !! x = face <$> heap w !! x).
Proof.
  intros HL He.
  apply list_elem_of_split in He as (L1 & L2 & ->).
  pose proof HL as (HndL & Hf & Hl & HcL).
  rewrite remove_list_split by done. unfold remove.
  destruct (decide (L2 ++ L1 = [])) as [Hnil|Hne].
  - apply app_eq_nil in Hnil as [-> ->]. simpl in *. rewrite Hf, Hl. bd.
    eexists. split; [done|]. simpl. split_and!; try done. by apply loop_nil.
  - assert (cpath (heap w) ((L2 ++ L1) ++ [e])) as Hc.
    { apply cpath_rot1. change (e :: L2 ++ L1) with ((e :: L2) ++ L1).
      by apply cpath_rotate. }
    assert (NoDup ((L2 ++ L1) ++ [e])) as Hnd.
    { revert HndL. rewrite <- Permutation_middle, (Permutation_app_comm L2).
      by rewrite <- Permutation_cons_append. }
    destruct (L2 ++ L1) as [|c T] eqn:Hrot; [done|]. clear Hne.
    change ((c :: T) ++ [e]) with (c :: T ++ [e]) in *.
    pose proof Hc as [HT [Hec Hce]]. rewrite dlast_snoc in Hec, Hce.
    apply path_snoc in HT as [HT [Hpe Hep]].
    apply fnext_Some in Hec as (E & HE & HnE).
    apply fprev_Some in Hep as (E' & HE' & HpE). simplify_eq.
    apply fnext_Some in Hpe as (P & HP & _).
    apply fprev_Some in Hce as (C & HC & _).
    assert (c ≠ e) as Hce.
    { intros ->. apply NoDup_cons in Hnd as [Hd _]. apply Hd.
      rewrite elem_of_app, list_elem_of_singleton. tauto. }
    assert (List.last T c ≠ e) as Hpe.
    { intros Heq. change (NoDup ((c :: T) ++ [e])) in Hnd.
      apply NoDup_app in Hnd as (_ & Hd & _).
      apply (Hd e); [|by left]. rewrite <- Heq. apply dlast_elem_of. }
    assert (cpath_goal : ∀ h',
      (∀ u, u ≠ e -> fnext h' u =
         if decide (u = List.last T c) then Some c else fnext (heap w) u) ->
      (∀ u, u ≠ e -> fprev h' u =
         if decide (u = c) then Some (List.last T c) else fprev (heap w) u) ->
      cpath h' (L1 ++ L2)).
    { intros h' Hn' Hp'. apply cpath_rotate. rewrite Hrot.
      by eapply (unsplice_cpath (heap w)). }
    assert (∃ a, first (this w) = Some a ∧ (a = e ↔ L1 = [])) as (a & Ha & Hae).
    { rewrite Hf. destruct (head (L1 ++ e :: L2)) as [a|] eqn:Hh; [|by destruct L1].
      exists a. split; [done|]. rewrite <- (head_split L1 L2 e HndL), Hh.
      split; congruence. }
    assert (∃ l, last (this w) = Some l ∧ (l = e ↔ L2 = [])) as (l & Hl' & Hle).
    { rewrite Hl. destruct (olast (L1 ++ e :: L2)) as [l|] eqn:Hlast'.
      - exists l. split; [done|]. rewrite <- (olast_split L1 L2 e HndL), Hlast'.
        split; congruence.
      - apply last_None in Hlast'. by destruct L1. }
    rewrite Ha in Hf. rewrite Hl' in Hl.
    assert (first_goal : head (L1 ++ L2) = if decide (a = e) then Some c else Some a).
    { destruct (decide (a = e)) as [Hd|Hd].
      - apply Hae in Hd. subst L1. rewrite app_nil_r in Hrot. by subst L2.
      - destruct L1 as [|x L1]; [tauto|]. simpl in *. congruence. }
    assert (last_goal : olast (L1 ++ L2) =
                        if decide (l = e) then Some (List.last T c) else Some l).
    { destruct (decide (l = e)) as [Hd|Hd].
      - apply Hle in Hd. subst L2. simpl in Hrot. subst L1.
        by rewrite app_nil_r, olast_cons.
      - destruct L2 as [|x L2]; [tauto|].
        rewrite last_app_cons in Hl. by rewrite last_app_cons. }
    assert (nodup_goal : NoDup (L1 ++ L2)).
    { apply NoDup_app in HndL as (? & Hd & Hd2).
      apply NoDup_cons in Hd2 as [_ ?]. apply NoDup_app. split_and!; try done.
      intros u Hu Hu2. apply (Hd u Hu). by right. }
    assert (¬ (a = e ∧ l = e)) as Hboth.
    { intros [Hae' Hle']. apply Hae in Hae'. apply Hle in Hle'. by subst. }
    destruct (decide (a = e)) as [->|Hae'], (decide (l = e)) as [->|Hle'];
      try tauto;
      (destruct (decide (List.last T c = c)) as [Heq|Hpc];
       [rewrite Heq in *; simplify_eq|]);
      bd; run; bd;
      (eexists; split; [done|]); unfold loop; simpl;
      (split_and!; try done; try (by fields);
       try (by rewrite ?first_goal, ?last_goal));
      apply cpath_goal; by fields.
Qed.

Lemma same_shapes_is_Some h h' x :
  same_shapes h h' -> is_Some (h !! x) -> is_Some (h' !! x).
Proof.
  intros Hs [E HE]. destruct (same_shapes_lookup _ _ _ _ Hs HE) as (E' & -> & _).
  eauto.
Qed.

Lemma run_op_spec w L op :
  loop w L -> op_ok (heap w) L op ->
  ∃ w', run_op op w = Ok w' ∧ loop w' (op_list L op)
        ∧ _box (this w') = _box (this w)
        ∧ _orientation (this w') = _orientation (this w)
        ∧ same_shapes (heap w) (heap w').
Proof.
  intros HL Hok. destruct op as [e|n b|e]; simpl in *.
  - destruct Hok as [[E HE] He].
    destruct (append_spec w L e E HL HE He) as (w' & ? & ? & ? & ? & ? & ? & ? & _).
    eauto 10.
  - destruct Hok as ([N HN] & Hn & Hb).
    destruct (insert_spec w L n b N HL Hb HN Hn) as (w' & ? & ? & ? & ? & ? & ? & ? & _).
    eauto 10.
  - destruct (remove_spec w L e HL Hok) as (w' & ? & ? & ? & ? & ? & ? & ? & _).
    eauto 10.
Qed.

Lemma run_ops_spec ops : ∀ w L h0,
  loop w L -> ops_ok h0 L ops -> (∀ x, is_Some (h0 !! x) -> is_Some (heap w !! x)) ->
  ∃ w', run_ops ops w = Ok w' ∧ loop w' (fold_left op_list ops L)
        ∧ _box (this w') = _box (this w)
        ∧ _orientation (this w') = _orientation (this w).
Proof.
  induction ops as [|op ops IH]; intros w L h0 HL Hok Hdom; simpl.
  - eauto.
  - destruct Hok as [Hop Hok].
    destruct (run_op_spec w L op HL) as (w1 & -> & HL1 & Hb & Ho & Hs).
    { destruct op; simpl in *; intuition auto. }
    simpl. destruct (IH w1 _ h0 HL1 Hok) as (w' & -> & ? & ? & ?).
    { intros x Hx. eapply same_shapes_is_Some; eauto. }
    exists w'. split_and!; try done; congruence.
Qed.

(** On a loop, [next] followed [k] times from [first] is the [k]-th edge. *)
Lemma follow_nseq_lookup h R : ∀ c a k x,
  nseq h c R a -> R !! k = Some x -> follow h k (Some c) = Some x.
Proof.
  induction R as [|v R IH]; intros c a k x Hseq Hk; [done|].
  destruct Hseq as [-> (c' & Hc' & Hseq)]. destruct k as [|k]; simpl in *.
  - congruence.
  - rewrite Hc'. by eapply IH.
Qed.

(** The three facts of the circular invariant, and that [size()] is the
    first return to [first]. *)
Lemma loop_circular w L :
  loop w L -> L ≠ [] ->
  (∀ fuel, length L < fuel -> size fuel w = Ok (length L))
  ∧ is_Some (first (this w))
  ∧ follow (heap w) (length L) (first (this w)) = first (this w)
  ∧ (∀ k, 0 < k < length L -> follow (heap w) k (first (this w)) ≠ first (this w))
  ∧ first (this w) ≫= fprev (heap w) = last (this w)
  ∧ last (this w) ≫= fnext (heap w) = first (this w).
Proof.
  intros HL Hne. destruct L as [|a T]; [done|].
  pose proof (loop_nseq _ _ _ HL) as Hseq.
  pose proof HL as (Hnd & Hf & Hl & HT & Hla & Hal)%loop_cons.
  rewrite Hf, Hl. split_and!; try done.
  - intros fuel Hfuel. by apply (size_loop w (a :: T)).
  - apply (follow_nseq _ _ _ _ Hseq).
  - intros k Hk Hfol.
    destruct (lookup_lt_is_Some_2 (a :: T) k) as [x Hx]; [simpl in *; lia|].
    rewrite (follow_nseq_lookup _ _ _ _ _ _ Hseq Hx) in Hfol. simplify_eq.
    apply NoDup_cons in Hnd as [Ha _]. apply Ha.
    destruct k as [|k]; [lia|]. simpl in Hx. by eapply list_elem_of_lookup_2.
Qed.

(** ** [setArcLength] *)
Lemma assign_inv v f w w' :
  assign v f w = Ok w' ->
  ∃ e E, v = Some e ∧ heap w !! e = Some E ∧ w' = set_heap (<[e := f E]> (heap w)) w.
Proof.
  unfold assign. destruct v as [e|]; [|done].
  destruct (heap w !! e) as [E|] eqn:HE; [|done]. intros [= <-]. eauto.
Qed.

Lemma deref_inv h v E : deref h v = Ok E -> ∃ e, v = Some e ∧ h !! e = Some E.
Proof.
  unfold deref. destruct v as [e|]; [|done].
  destruct (h !! e) as [E'|] eqn:HE; [|done]. intros [= <-]. eauto.
Qed.

Lemma fnext_insert_same h e E E' u :
  h !! e = Some E -> next E' = next E -> fnext (<[e:=E']> h) u = fnext h u.
Proof.
  intros HE Hn. unfold fnext. rewrite lookup_insert. case_decide; [|done].
  subst. rewrite HE. simpl. done.
Qed.

Lemma fprev_insert_same h e E E' u :
  h !! e = Some E -> prev E' = prev E -> fprev (<[e:=E']> h) u = fprev h u.
Proof.
  intros HE Hn. unfold fprev. rewrite lookup_insert. case_decide; [|done].
  subst. rewrite HE. simpl. done.
Qed.

Lemma setArcLength_unfold fuel w :
  setArcLength fuel w = for_of heap (first (this w)) setArcLength_body fuel None w.
Proof. done. Qed.

Lemma same_loop_refl w : same_loop w w.
Proof. by unfold same_loop, same_shapes. Qed.

Lemma same_loop_trans w1 w2 w3 : same_loop w1 w2 -> same_loop w2 w3 -> same_loop w1 w3.
Proof.
  unfold same_loop, same_shapes.
  intros (? & ? & ? & Hn & Hp & Hs) (? & ? & ? & Hn' & Hp' & Hs').
  split_and!; try congruence; intros u; by rewrite ?Hn', ?Hn, ?Hp', ?Hp, ?Hs', ?Hs.
Qed.

Lemma same_loop_loop w w' L : same_loop w w' -> loop w L -> loop w' L.
Proof.
  intros (Ht & _ & _ & Hn & Hp & _). apply loop_ext; try done; by rewrite Ht.
Qed.

Lemma setArcLength_body_same v w w' brk :
  setArcLength_body v w = Ok (w', brk) -> same_loop w w' ∧ brk = false.
Proof.
  unfold setArcLength_body. intros Hb.
  destruct (_ : result World) as [w1| |] eqn:H1 in Hb; simpl in Hb; try done.
  destruct (assign (Some v) _ w1) as [w2| |] eqn:H2; simpl in Hb; try done.
  simplify_eq. split; [|done].
  apply assign_inv in H2 as (e2 & E2 & ? & HE2 & ->). simplify_eq.
  assert (same_loop w w1) as H01.
  { case_bool_decide.
    - apply assign_inv in H1 as (e1 & E1 & ? & HE1 & ->). simplify_eq.
      unfold same_loop. split_and!; try done; by fields.
    - destruct (deref (heap w) (Some e2)) as [E| |] eqn:HE; simpl in H1; try done.
      destruct (deref (heap w) (prev E)) as [P| |] eqn:HP; simpl in H1; try done.
      apply assign_inv in H1 as (e1 & E1 & ? & HE1 & ->). simplify_eq.
      unfold same_loop. split_and!; try done; by fields. }
  eapply same_loop_trans; [exact H01|].
  unfold same_loop. split_and!; try done; by fields.
Qed.

Lemma arc_chain_ext h h' p R :
  (∀ x, x ∈ p :: R -> h' !! x = h !! x) -> arc_chain h p R -> arc_chain h' p R.
Proof.
  revert p. induction R as [|v R IH]; intros p Hx; simpl; [done|].
  intros [(P & V & HP & HV & Harc) HR]. split.
  - exists P, V. rewrite !Hx; [done|by right; left|by left].
  - apply IH; [|done]. intros x Hin. apply Hx. by right.
Qed.

Lemma arc_chain_lookup h R : ∀ p i ei ej,
  arc_chain h p R -> (p :: R) !! i = Some ei -> (p :: R) !! S i = Some ej ->
  ∃ Ei Ej, h !! ei = Some Ei ∧ h !! ej = Some Ej
           ∧ arc_length Ej = (arc_length Ei + Edge_length Ei)%Q.
Proof.
  induction R as [|v R IH]; intros p i ei ej Hc Hi Hj.
  - by destruct i.
  - destruct Hc as [(P & V & HP & HV & Harc) HR]. destruct i as [|i].
    + simpl in *. simplify_eq. eauto.
    + by apply (IH v i).
Qed.

Lemma setArcLength_tail R : ∀ w p a,
  first (this w) = Some a -> a ∉ R -> NoDup (p :: R) -> path (heap w) p R ->
  ∃ w', run_body setArcLength_body R w = Ok w' ∧ same_loop w w'
        ∧ (∀ x, x ∉ R -> heap w' !! x = heap w !! x)
        ∧ arc_chain (heap w') p R
        ∧ (∀ x, x ∈ R -> face <$> heap w' !! x = Some (Some (self w))).
Proof.
  induction R as [|v R IH]; intros w p a Hf Ha Hnd HR.
  - exists w. simpl. split_and!; try done; try apply same_loop_refl.
    intros x Hx. by apply elem_of_nil in Hx.
  - destruct HR as [[Hpv Hvp] HR].
    apply fnext_Some in Hpv as (P & HP & _).
    apply fprev_Some in Hvp as (V & HV & HpV).
    assert (v ≠ a) as Hva by (intros ->; apply Ha; by left).
    assert (p ≠ v) as Hpv.
    { intros ->. apply NoDup_cons in Hnd as [Hd _]. apply Hd. by left. }
    destruct (setArcLength_body v w) as [[w1 brk]| |] eqn:Hb.
    2,3: unfold setArcLength_body in Hb; revert Hb; bd; run; done.
    pose proof (setArcLength_body_same _ _ _ _ Hb) as [Hsame ->].
    pose proof Hb as Hb'.
    unfold setArcLength_body in Hb. revert Hb. bd. run. intros [= Hw1].
    pose proof Hsame as (Ht & Hself & _ & Hn & Hp & _).
    apply NoDup_cons in Hnd as [Hp' Hnd].
    destruct (IH w1 v a) as (w' & Hrun & Hsame' & Hout & Hchain & Hface);
      try done.
    { by rewrite Ht. }
    { intros ?. apply Ha. by right. }
    { eapply path_frame; [done| | |exact HR]; intros; by rewrite ?Hn, ?Hp. }
    exists w'. cbn [run_body]. rewrite Hb'. simpl. rewrite Hrun.
    apply NoDup_cons in Hnd as [Hv Hnd].
    split_and!; try done.
    + by eapply same_loop_trans.
    + intros x Hx. rewrite Hout by (intros ?; apply Hx; by right).
      assert (x ≠ v) by (intros ->; apply Hx; by left).
      rewrite <- Hw1. by fields.
    + assert (heap w' !! p = Some P) as HP'.
      { rewrite Hout by (intros ?; apply Hp'; by right). rewrite <- Hw1. by fields. }
      assert (heap w' !! v = Some (set_face (Some (self w))
                (set_arc_length (arc_length P + Edge_length P)%Q V))) as HV'.
      { rewrite Hout by done. rewrite <- Hw1. by fields. }
      eexists _, _. split_and!; [exact HP'|exact HV'|done].
    + intros x Hx. apply elem_of_cons in Hx as [->|Hx].
      * rewrite Hout by done. rewrite <- Hw1. by fields.
      * rewrite Hface by done. by rewrite Hself.
Qed.

Lemma setArcLength_spec w L fuel :
  loop w L -> length L < fuel ->
  ∃ w', setArcLength fuel w = Ok w' ∧ same_loop w w'
        ∧ (∀ x, x ∉ L -> heap w' !! x = heap w !! x)
        ∧ arc_law (heap w') L
        ∧ (∀ x, x ∈ L -> face <$> heap w' !! x = Some (Some (self w))).
Proof.
  intros HL Hfuel. rewrite setArcLength_unfold.
  rewrite (for_of_face _ _ w L); try done.
  2: { intros v acc acc' brk Hb u.
       by apply setArcLength_body_same in Hb as [(_ & _ & _ & Hn & _) _]. }
  destruct L as [|a T].
  - exists w. simpl. split_and!; try done; try apply same_loop_refl.
    intros x Hx. by apply elem_of_nil in Hx.
  - apply loop_cons in HL as (Hnd & Hf & Hl & HT & Hla & Hal).
    apply fprev_Some in Hal as (A & HA & _).
    destruct (setArcLength_body a w) as [[w1 brk]| |] eqn:Hb.
    2,3: unfold setArcLength_body in Hb; revert Hb; bd; run; done.
    pose proof (setArcLength_body_same _ _ _ _ Hb) as [Hsame ->].
    pose proof Hb as Hb'.
    unfold setArcLength_body in Hb. revert Hb. bd. run. intros [= Hw1].
    pose proof Hsame as (Ht & Hself & _ & Hn & Hp & _).
    pose proof Hnd as [Ha HndT]%NoDup_cons.
    destruct (setArcLength_tail T w1 a a) as (w' & Hrun & Hsame' & Hout & Hchain & Hface);
      try done.
    { by rewrite Ht. }
    { eapply path_frame; [done| | |exact HT]; intros; by rewrite ?Hn, ?Hp. }
    exists w'. cbn [run_body]. rewrite Hb'. simpl. rewrite Hrun.
    split_and!; try done.
    + by eapply same_loop_trans.
    + intros x Hx. rewrite Hout by (intros ?; apply Hx; by right).
      assert (x ≠ a) by (intros ->; apply Hx; by left).
      rewrite <- Hw1. by fields.
    + eexists. split; [rewrite Hout by done; rewrite <- Hw1; by fields|done].
    + intros x Hx. apply elem_of_cons in Hx as [->|Hx].
      * rewrite Hout by done. rewrite <- Hw1. by fields.
      * rewrite Hface by done. by rewrite Hself.
Qed.

Lemma arc_law_lookup h L i ei ej :
  arc_law h L -> L !! i = Some ei -> L !! S i = Some ej ->
  ∃ Ei Ej, h !! ei = Some Ei ∧ h !! ej = Some Ej
           ∧ arc_length Ej = (arc_length Ei + Edge_length Ei)%Q.
Proof.
  destruct L as [|a T]; [done|]. intros [_ Hc]. by apply arc_chain_lookup.
Qed.

(** ** [reverse] *)

Lemma pseq_app h R1 : ∀ c m R2 z,
  pseq h c R1 m -> pseq h m R2 z -> pseq h c (R1 ++ R2) z.
Proof.
  induction R1 as [|v R1 IH]; intros c m R2 z H1 H2; simpl in *.
  - by subst.
  - destruct H1 as [-> (c' & Hc' & H1)]. split; [done|]. exists c'. eauto.
Qed.

Lemma path_pseq h T : ∀ a z,
  path h a T -> fprev h a = Some z -> pseq h (List.last T a) (rev (a :: T)) z.
Proof.
  induction T as [|b T IH]; intros a z HT Hz.
  - simpl. eauto.
  - destruct HT as [[_ Hba] HT]. rewrite dlast_cons_cons.
    change (rev (a :: b :: T)) with (rev (b :: T) ++ [a]).
    eapply pseq_app; [by apply IH|]. simpl. eauto.
Qed.

Lemma pseq_ext h h' c R z :
  (∀ u, fprev h' u = fprev h u) -> pseq h c R z -> pseq h' c R z.
Proof.
  intros Hp. revert c. induction R as [|v R IH]; intros c; simpl; [done|].
  intros [-> (c' & Hc' & HR)]. split; [done|]. exists c'. rewrite Hp. eauto.
Qed.

Lemma reverse_collect_spec R : ∀ fuel c acc w l,
  last (this w) = Some l -> pseq (heap w) c R l -> R ≠ [] -> l ∉ tail R ->
  NoDup R -> length R <= fuel ->
  ∃ w', reverse_collect fuel (Some c) acc w = Ok (acc ++ R, w')
        ∧ this w' = this w ∧ self w' = self w ∧ edges w' = edges w
        ∧ (∀ u, fnext (heap w') u = fnext (heap w) u)
        ∧ (∀ u, fprev (heap w') u = fprev (heap w) u)
        ∧ reversed_in R (heap w) (heap w').
Proof.
  induction R as [|v R IH]; intros fuel c acc w l Hl Hseq Hne Hlt Hnd Hfuel; [done|].
  destruct fuel as [|fuel]; [simpl in Hfuel; lia|].
  destruct Hseq as [-> (c' & Hc' & Hseq)].
  apply fprev_Some in Hc' as (V & HV & HpV).
  apply NoDup_cons in Hnd as [Hv Hnd].
  simpl. run.
  destruct R as [|v' R].
  - simpl in Hseq. subst c'. bd.
    eexists. split; [done|]. simpl. split_and!; try done; try (by fields).
    intros x. rewrite lookup_insert. case_decide; subst.
    + rewrite HV. simpl. by rewrite bool_decide_eq_true_2 by by left.
    + rewrite bool_decide_eq_false_2; [by destruct (heap w !! x)|].
      by intros ->%list_elem_of_singleton.
  - pose proof Hseq as [-> _].
    assert (v' ≠ l) as Hvl by (intros ->; apply Hlt; by left).
    bd.
    match goal with
    | |- context [reverse_collect fuel (Some v') (acc ++ [v]) ?w1] =>
        destruct (IH fuel v' (acc ++ [v]) w1 l)
          as (w' & Hrun & Ht & Hs & He & Hn & Hp & Hr); try done
    end.
    { eapply pseq_ext; [|exact Hseq]. by fields. }
    { simpl in *. intros ?. apply Hlt. by right. }
    { simpl in *. lia. }
    rewrite Hrun. eexists. rewrite <- app_assoc. split; [done|].
    split_and!; try done.
    + intros u. rewrite Hn. by fields.
    + intros u. rewrite Hp. by fields.
    + intros x. rewrite Hr. simpl. rewrite lookup_insert. case_decide; subst.
      * rewrite HV. simpl. rewrite bool_decide_eq_false_2 by done.
        by rewrite bool_decide_eq_true_2 by by left.
      * destruct (heap w !! x) as [E|]; simpl; [|done].
        rewrite (bool_decide_ext (x ∈ v :: v' :: R) (x ∈ v' :: R)); [done|].
        rewrite (elem_of_cons _ x v). split; [intros [?|?]; [done|done]|by right].
Qed.

Lemma path_allocated h T : ∀ a x, path h a T -> x ∈ T -> is_Some (h !! x).
Proof.
  induction T as [|b T IH]; intros a x HT Hx.
  - by apply elem_of_nil in Hx.
  - destruct HT as [[_ Hba] HT]. apply elem_of_cons in Hx as [->|Hx].
    + apply fprev_Some in Hba as (E & -> & _). eauto.
    + by eapply IH.
Qed.

Lemma loop_allocated w L x : loop w L -> x ∈ L -> is_Some (heap w !! x).
Proof.
  destruct L as [|a T]; intros HL Hx; [by apply elem_of_nil in Hx|].
  apply loop_cons in HL as (_ & _ & _ & HT & _ & Hal).
  apply elem_of_cons in Hx as [->|Hx].
  - apply fprev_Some in Hal as (E & -> & _). eauto.
  - by eapply path_allocated.
Qed.

Lemma reverse_relink_spec R : ∀ w P,
  loop w P -> (∀ x, x ∈ R -> is_Some (heap w !! x)) -> NoDup R ->
  (∀ x, x ∈ R -> x ∉ P) ->
  ∃ w', reverse_relink R w = Ok w' ∧ loop w' (P ++ R)
        ∧ _box (this w') = _box (this w)
        ∧ _orientation (this w') = _orientation (this w)
        ∧ self w' = self w ∧ edges w' = edges w
        ∧ same_shapes (heap w) (heap w')
        ∧ (∀ x, face <$> heap w' !! x = face <$> heap w !! x).
Proof.
  induction R as [|e R IH]; intros w P HL Halloc Hnd Hdisj.
  - exists w. rewrite app_nil_r. by split_and!.
  - rewrite reverse_relink_link_last.
    destruct (Halloc e) as [E HE]; [by left|].
    apply NoDup_cons in Hnd as [He Hnd].
    destruct (link_last_spec w P e E HL HE) as
      (w1 & -> & HL1 & Hb & Ho & Hself & Hedges & Hs & _ & Hface).
    { apply Hdisj. by left. }
    simpl. destruct (IH w1 (P ++ [e])) as
      (w' & -> & HL' & Hb' & Ho' & Hself' & Hedges' & Hs' & Hface'); try done.
    { intros x Hx. eapply same_shapes_is_Some; [done|]. apply Halloc. by right. }
    { intros x Hx. rewrite elem_of_app, list_elem_of_singleton.
      intros [?| ->]; [|done]. eapply Hdisj; [|done]. by right. }
    exists w'. rewrite <- app_assoc in HL'.
    split_and!; try done; try congruence; intros x;
      by rewrite ?Hs', ?Hs, ?Hface', ?Hface.
Qed.

(** ** [box], [signedArea] and [orientation] *)

Lemma shapes_of_exists h L :
  (∀ x, x ∈ L -> is_Some (h !! x)) -> ∃ ss, shapes_of h L ss.
Proof.
  induction L as [|x L IH]; intros Ha.
  - exists []. constructor.
  - destruct IH as [ss Hss]; [intros; apply Ha; by right|].
    destruct (Ha x) as [E HE]; [by left|].
    exists (shape E :: ss). constructor; [by rewrite HE|done].
Qed.

Lemma loop_shapes w L : loop w L -> ∃ ss, shapes_of (heap w) L ss.
Proof. intros HL. apply shapes_of_exists. intros x. by apply loop_allocated. Qed.

Lemma shapes_of_same h h' L ss :
  same_shapes h h' -> shapes_of h L ss -> shapes_of h' L ss.
Proof.
  intros Hs Hss. eapply Forall2_impl; [exact Hss|]. intros x s. by rewrite Hs.
Qed.

(** A loop body that only reads the shape of its edge. *)
Lemma run_body_shapes {B} w (g : B -> Shape -> B) L : ∀ ss b0,
  shapes_of (heap w) L ss ->
  run_body (fun edge (a : World * B) =>
              E ← deref (heap (fst a)) (Some edge);
              Ok ((fst a, g (snd a) (shape E)), false)) L (w, b0)
  = Ok (w, fold_left g ss b0).
Proof.
  induction L as [|x L IH]; intros ss b0 Hss.
  - by apply Forall2_nil_inv_l in Hss as ->.
  - apply Forall2_cons_inv_l in Hss as (s & ss' & Hs & Hss & ->).
    destruct (heap w !! x) as [E|] eqn:HE; simpl in Hs; [|done]. simplify_eq.
    cbn [run_body]. simpl. run. by rewrite (IH ss').
Qed.

Lemma box_spec w L ss fuel :
  loop w L -> shapes_of (heap w) L ss -> length L < fuel ->
  box fuel w =
  Ok (match _box (this w) with
      | Some b => (b, w)
      | None => (box_of ss, set_box (Some (box_of ss)) w)
      end).
Proof.
  intros HL Hss Hfuel. unfold box. destruct (_box (this w)) as [b|]; [done|].
  rewrite (for_of_face _ _ w L); try done.
  - unfold Edge_box.
    rewrite (run_body_shapes w (fun b s => Box_merge b (Shape_box s)) L ss); done.
  - intros v acc acc' brk Hb u. destruct (deref _ _); simpl in Hb; by simplify_eq.
Qed.

Lemma signedArea_spec w L ss fuel :
  loop w L -> shapes_of (heap w) L ss -> length L < fuel ->
  signedArea fuel w =
  Ok (match _box (this w) with
      | Some b => (area_of (Box_ymin b) ss, w)
      | None => (area_of (Box_ymin (box_of ss)) ss, set_box (Some (box_of ss)) w)
      end).
Proof.
  intros HL Hss Hfuel. unfold signedArea.
  rewrite (box_spec w L ss) by done.
  destruct (_box (this w)) as [b|] eqn:Hb; simpl.
  - rewrite (for_of_face _ _ w L); try done.
    + by rewrite (run_body_shapes w
        (fun a s => (a + Shape_definiteIntegral s (Box_ymin b))%Q) L ss).
    + intros v acc acc' brk Hb' u. destruct (deref _ _); simpl in Hb'; by simplify_eq.
  - rewrite (for_of_face _ _ (set_box (Some (box_of ss)) w) L); try done.
    + by rewrite (run_body_shapes (set_box (Some (box_of ss)) w)
        (fun a s => (a + Shape_definiteIntegral s (Box_ymin (box_of ss)))%Q) L ss).
    + intros v acc acc' brk Hb' u. destruct (deref _ _); simpl in Hb'; by simplify_eq.
Qed.

Lemma orientation_spec w L ss fuel :
  loop w L -> shapes_of (heap w) L ss -> length L < fuel ->
  orientation fuel w =
  Ok (match _orientation (this w) with
      | Some o => (o, w)
      | None =>
          match _box (this w) with
          | Some b =>
              let o := classify (area_of (Box_ymin b) ss) in
              (o, set_orientation (Some o) w)
          | None =>
              let o := classify (area_of (Box_ymin (box_of ss)) ss) in
              (o, set_orientation (Some o) (set_box (Some (box_of ss)) w))
          end
      end).
Proof.
  intros HL Hss Hfuel. unfold orientation.
  destruct (_orientation (this w)); [done|].
  rewrite (signedArea_spec w L ss) by done.
  by destruct (_box (this w)).
Qed.

#[local] Arguments reverse_relink : simpl never.

#[local] Arguments reverse_collect : simpl never.

#[local] Arguments orientation : simpl never.

Lemma reverse_spec w L fuel :
  loop w L -> L ≠ [] -> length L < fuel ->
  ∃ w' ss', reverse fuel w = Ok w' ∧ loop w' (rev L)
        ∧ shapes_of (heap w') (rev L) ss'
        ∧ (∀ x, shape <$> heap w' !! x =
                (fun s => if bool_decide (x ∈ L) then Shape_reverse s else s)
                  <$> (shape <$> heap w !! x))
        ∧ _orientation (this w') = orientation_after_reverse w ss'
        ∧ _box (this w')
          = match _orientation (this w), _box (this w) with
            | Some _, None => Some (box_of ss')
            | _, b => b
            end
        ∧ self w' = self w ∧ edges w' = edges w.
Proof.
  intros HL Hne Hfuel. destruct L as [|a T]; [done|].
  pose proof (fun x => loop_allocated w (a :: T) x HL) as Halloc.
  apply loop_cons in HL as (Hnd & Hf & Hl & HT & Hla & Hal).
  pose proof (path_pseq _ _ _ _ HT Hal) as Hseq.
  assert (NoDup (rev (a :: T))) as Hnd' by by rewrite <- Permutation_rev.
  assert (length (rev (a :: T)) = length (a :: T)) as Hlen by apply length_rev.
  assert (∀ x, x ∈ rev (a :: T) ↔ x ∈ a :: T) as Hin.
  { intros x. rewrite !list_elem_of_In. symmetry. apply in_rev. }
  unfold reverse, orientation_after_reverse. rewrite Hl.
  destruct (rev (a :: T)) as [|l R] eqn:Hrev; [by destruct T|].
  pose proof Hseq as [Heq _]. rewrite Heq in *. clear Heq.
  destruct (reverse_collect_spec (l :: R) fuel l [] w l)
    as (w1 & -> & Ht & Hself & Hedges & Hn & Hp & Hr); try done.
  { simpl. by apply NoDup_cons in Hnd' as [? _]. }
  { lia. }
  simpl.
  match goal with
  | |- context [reverse_relink (l :: R) ?w2] =>
      destruct (reverse_relink_spec (l :: R) w2 [])
        as (w3 & Hrel & HL3 & Hb3 & Ho3 & Hself3 & Hedges3 & Hs3 & Hface3)
  end; try done.
  { by apply loop_nil. }
  { intros x Hx. simpl. rewrite Hr. apply Hin, Halloc in Hx as [E ->]. simpl. eauto. }
  { intros x _ Hx. by apply elem_of_nil in Hx. }
  rewrite Hrel. simpl in *.
  assert (∀ x, shape <$> heap w3 !! x =
               (fun s => if bool_decide (x ∈ a :: T) then Shape_reverse s else s)
                 <$> (shape <$> heap w !! x)) as Hshape.
  { intros x. rewrite Hs3, Hr. destruct (heap w !! x) as [E|]; simpl; [|done].
    rewrite (bool_decide_ext (x ∈ l :: R) (x ∈ a :: T)) by done.
    by case_bool_decide. }
  destruct (loop_shapes _ _ HL3) as [ss' Hss'].
  rewrite Ho3, Ht. destruct (_orientation (this w)) as [o|] eqn:Ho.
  - assert (loop (set_orientation None w3) (l :: R)) as HL4.
    { eapply loop_ext; [| | | |exact HL3]; done. }
    rewrite (orientation_spec _ (l :: R) ss' fuel HL4 Hss') by (simpl in *; lia).
    simpl.
    rewrite Hb3, Ht.
    exists (set_orientation
              (Some (classify (area_of
                 (Box_ymin (default (box_of ss') (_box (this w)))) ss')))
              (match _box (this w) with
               | Some b => set_orientation
                   (Some (classify (area_of (Box_ymin b) ss')))
                   (set_orientation None w3)
               | None => set_orientation
                   (Some (classify (area_of (Box_ymin (box_of ss')) ss')))
                   (set_box (Some (box_of ss')) (set_orientation None w3))
               end)), ss'.
    destruct (_box (this w)) eqn:Hbx; simpl; split_and!; try done; try congruence.
  - exists w3, ss'. split_and!; try done; congruence.
Qed.

(** ** More fuel never changes a result *)
Lemma for_of_mono {A} (heap_of : A -> gmap ref Edge) f body fuel :
  ∀ fuel' edge (acc : A),
  fuel <= fuel' -> for_of heap_of f body fuel edge acc ≠ OutOfFuel ->
  for_of heap_of f body fuel' edge acc = for_of heap_of f body fuel edge acc.
Proof.
  induction fuel as [|fuel IH]; intros fuel' edge acc Hle Hr; [done|].
  destruct fuel' as [|fuel']; [lia|]. simpl in *.
  destruct (iter_next (heap_of acc) f edge) as [[[value done] edge']| |]; simpl in *;
    try reflexivity.
  destruct done; [reflexivity|]. destruct value as [v|]; [|reflexivity].
  destruct (body v acc) as [[acc' brk]| |]; simpl in *; try reflexivity.
  destruct brk; [reflexivity|]. apply IH; [lia|done].
Qed.

Lemma reverse_collect_S fuel edge_tmp acc w :
  reverse_collect (S fuel) edge_tmp acc w =
  match edge_tmp with
  | None => TypeError
  | Some e =>
      E ← deref (heap w) (Some e);
      w ← assign (Some e) (set_shape (Shape_reverse (shape E))) w;
      let edges := acc ++ [e] in
      E ← deref (heap w) (Some e);
      let edge_tmp := prev E in
      if bool_decide (edge_tmp ≠ last (this w))
      then reverse_collect fuel edge_tmp edges w
      else Ok (edges, w)
  end.
Proof. done. Qed.

Lemma reverse_collect_mono fuel : ∀ fuel' edge_tmp acc w,
  fuel <= fuel' -> reverse_collect fuel edge_tmp acc w ≠ OutOfFuel ->
  reverse_collect fuel' edge_tmp acc w = reverse_collect fuel edge_tmp acc w.
Proof.
  induction fuel as [|fuel IH]; intros fuel' edge_tmp acc w Hle Hr; [done|].
  destruct fuel' as [|fuel']; [lia|]. rewrite !reverse_collect_S in *.
  destruct edge_tmp as [e|]; [|reflexivity].
  destruct (deref (heap w) (Some e)) as [E| |]; simpl in *; try reflexivity.
  destruct (assign (Some e) (set_shape (Shape_reverse (shape E))) w) as [w1| |];
    simpl in *; try reflexivity.
  destruct (deref (heap w1) (Some e)) as [E1| |]; simpl in *; try reflexivity.
  case_bool_decide; [|reflexivity]. apply IH; [lia|done].
Qed.

Lemma bind_not_OutOfFuel {A B} (m : result A) (k : A -> result B) :
  m ≫= k ≠ OutOfFuel -> m ≠ OutOfFuel.
Proof. by destruct m. Qed.

Lemma fmap_not_OutOfFuel {A B} (m : result A) (g : A -> B) :
  g <$> m ≠ OutOfFuel -> m ≠ OutOfFuel.
Proof. by destruct m. Qed.

Lemma box_mono fuel fuel' w :
  fuel <= fuel' -> box fuel w ≠ OutOfFuel -> box fuel' w = box fuel w.
Proof.
  unfold box. intros Hle Hr. destruct (_box (this w)); [done|].
  apply bind_not_OutOfFuel, fmap_not_OutOfFuel in Hr.
  by rewrite (for_of_mono _ _ _ fuel fuel').
Qed.

Lemma signedArea_mono fuel fuel' w :
  fuel <= fuel' -> signedArea fuel w ≠ OutOfFuel ->
  signedArea fuel' w = signedArea fuel w.
Proof.
  unfold signedArea. intros Hle Hr.
  rewrite (box_mono fuel fuel') by (done || by apply bind_not_OutOfFuel in Hr).
  destruct (box fuel w) as [[b w1]| |]; simpl in *; try done.
  apply bind_not_OutOfFuel, fmap_not_OutOfFuel in Hr.
  by rewrite (for_of_mono _ _ _ fuel fuel').
Qed.

Lemma orientation_mono fuel fuel' w :
  fuel <= fuel' -> orientation fuel w ≠ OutOfFuel ->
  orientation fuel' w = orientation fuel w.
Proof.
  unfold orientation. intros Hle Hr. destruct (_orientation (this w)); [done|].
  by rewrite (signedArea_mono fuel fuel') by (done || by apply bind_not_OutOfFuel in Hr).
Qed.

Lemma reverse_mono fuel fuel' w :
  fuel <= fuel' -> reverse fuel w ≠ OutOfFuel -> reverse fuel' w = reverse fuel w.
Proof.
  unfold reverse. intros Hle Hr.
  rewrite (reverse_collect_mono fuel fuel') by (done || by apply bind_not_OutOfFuel in Hr).
  destruct (reverse_collect fuel _ _ _) as [[es w1]| |]; simpl in *; try done.
  destruct (reverse_relink es _) as [w2| |]; simpl in *; try done.
  destruct (_orientation (this w2)); [|done].
  by rewrite (orientation_mono fuel fuel') by (done || by apply bind_not_OutOfFuel in Hr).
Qed.

(** ** The constructor *)
Lemma alloc_Edge_fresh s w : heap w !! fst (alloc_Edge s w) = None.
Proof. simpl. apply not_elem_of_dom, is_fresh. Qed.

Lemma shapes2face_spec ss : ∀ w L,
  loop w L ->
  ∃ w' R, shapes2face ss w = Ok w' ∧ loop w' (L ++ R)
          ∧ shapes_of (heap w') R ss
          ∧ (∀ x, x ∈ R -> heap w !! x = None)
          ∧ (∀ x, is_Some (heap w !! x) ->
                  shape <$> heap w' !! x = shape <$> heap w !! x)
          ∧ _box (this w') = _box (this w)
          ∧ _orientation (this w') = _orientation (this w)
          ∧ self w' = self w.
Proof.
  induction ss as [|s ss IH]; intros w L HL.
  - exists w, []. rewrite app_nil_r. split_and!; try done.
    + constructor.
    + intros x Hx. by apply elem_of_nil in Hx.
  - cbn [shapes2face]. pose proof (alloc_Edge_fresh s w) as Hfresh.
    unfold alloc_Edge in *. simpl in Hfresh.
    set (e := fresh (dom (heap w))) in *.
    set (w0 := set_heap (<[e:=new_Edge s]> (heap w)) w).
    assert (loop w0 L) as HL0.
    { eapply loop_ext; [| | | |exact HL]; try done.
      - intros u. unfold fnext. simpl. rewrite lookup_insert. case_decide; [|done].
        subst. by rewrite Hfresh.
      - intros u. unfold fprev. simpl. rewrite lookup_insert. case_decide; [|done].
        subst. by rewrite Hfresh. }
    assert (e ∉ L) as HeL.
    { intros Hin. apply (loop_allocated _ _ _ HL) in Hin as [E HE]. congruence. }
    destruct (append_spec w0 L e (new_Edge s) HL0)
      as (w1 & -> & HL1 & Hb & Ho & Hself & _ & Hs & _); try done.
    { simpl. by rewrite lookup_insert_eq. }
    simpl. destruct (IH w1 (L ++ [e]) HL1)
      as (w' & R & -> & HL' & Hss & Hnew & Hold & Hb' & Ho' & Hself').
    exists w', (e :: R). rewrite <- app_assoc in HL'.
    assert (∀ x, x ∈ R -> x ≠ e) as HRe.
    { intros x Hx ->. apply Hnew in Hx.
      destruct (same_shapes_lookup _ _ e (new_Edge s) Hs) as (E & HE & _).
      - simpl. by rewrite lookup_insert_eq.
      - congruence. }
    split_and!; try done; try congruence.
    + constructor; [|done]. rewrite Hold.
      * rewrite Hs. simpl. by rewrite lookup_insert_eq.
      * eapply same_shapes_is_Some; [done|]. simpl. rewrite lookup_insert_eq. eauto.
    + intros x [->|Hx]%elem_of_cons; [done|].
      pose proof (Hnew x Hx) as Hn. specialize (Hs x). rewrite Hn in Hs. simpl in Hs.
      rewrite lookup_insert_ne in Hs by (intros ->; by apply (HRe x)).
      by destruct (heap w !! x).
    + intros x Hx. rewrite Hold.
      * rewrite Hs. simpl. rewrite lookup_insert_ne; [done|].
        intros ->. destruct Hx. congruence.
      * eapply same_shapes_is_Some; [done|]. simpl.
        rewrite lookup_insert_ne; [done|]. intros ->. destruct Hx. congruence.
    + subst w0. simpl in *. congruence.
    + subst w0. simpl in *. congruence.
    + subst w0. simpl in *. congruence.
Qed.

(** ** The self-intersection scan *)

Lemma scan_points_spec x e2 E1 E2 ip : ∀ acc,
  scan_points x e2 E1 E2 ip acc
  = acc ++ collected x (List.filter (fun pt => negb (is_joint e2 E1 E2 pt)) ip).
Proof.
  induction ip as [|pt ip IH]; intros acc.
  - simpl. destruct x; by rewrite app_nil_r.
  - cbn [scan_points List.filter]. unfold is_joint at 1.
    destruct (equalTo pt (Edge_start E1)), (equalTo pt (Edge_end E2)),
      (equalTo pt (Edge_end E1)), (equalTo pt (Edge_start E2));
      simpl; repeat case_bool_decide; simpl; rewrite ?IH; try done;
      try congruence; destruct x; simpl; by rewrite <- ?app_assoc.
Qed.

Lemma until_hit_app_nohit its its' :
  flat_map snd its = [] -> until_hit (its ++ its') = its ++ until_hit its'.
Proof.
  induction its as [|[p k] its IH]; intros Hk; [done|].
  simpl in *. apply app_eq_nil in Hk as [-> Hk]. by rewrite IH.
Qed.

Lemma until_hit_nohit its : flat_map snd its = [] -> until_hit its = its.
Proof.
  intros Hk. pose proof (until_hit_app_nohit its [] Hk) as Heq.
  by rewrite !app_nil_r in Heq.
Qed.

Lemma until_hit_app_hit its its' :
  flat_map snd its ≠ [] -> until_hit (its ++ its') = until_hit its.
Proof.
  induction its as [|[p k] its IH]; intros Hk; [done|].
  simpl in *. destruct k as [|pt k]; [|done]. by rewrite IH.
Qed.

Lemma firstn_1_app {A} (l1 l2 : list A) :
  firstn 1 (l1 ++ l2) = if l1 is [] then firstn 1 l2 else firstn 1 l1.
Proof. by destruct l1. Qed.

Lemma scan_candidates_spec x h e1 E1 resp : ∀ pts tr,
  (∀ e2, e2 ∈ resp -> is_Some (h !! e2)) -> (x = true -> pts = []) ->
  scan_candidates x h e1 E1 resp (pts, tr)
  = Ok (pts ++ collected x (flat_map snd (items_of h e1 E1 resp)),
        tr ++ map fst (reached x (items_of h e1 E1 resp))).
Proof.
  induction resp as [|e2 resp IH]; intros pts tr Halloc Hpts.
  - simpl. destruct x; by rewrite !app_nil_r.
  - destruct (Halloc e2) as [E2 HE2]; [by left|].
    assert (∀ e, e ∈ resp -> is_Some (h !! e)) as Halloc'.
    { intros e He. apply Halloc. by right. }
    cbn [scan_candidates]. unfold items_of. cbn [flat_map]. fold (items_of h e1 E1 resp).
    rewrite HE2, (deref_Some _ _ _ HE2). unfold skipped.
    destruct (bool_decide (e1 = e2)) eqn:He; simpl.
    { by apply IH. }
    destruct (isSegment (shape E1)), (isSegment (shape E2)),
      (bool_decide (next E1 = Some e2)), (bool_decide (prev E1 = Some e2));
      simpl; try (by apply IH);
      rewrite scan_points_spec; fold (kept e2 E1 E2);
      (destruct x; simpl;
       [ rewrite (Hpts eq_refl); simpl;
         destruct (kept e2 E1 E2) as [|pt k]; simpl;
         [ rewrite IH by done; simpl; by rewrite <- app_assoc
         | by rewrite firstn_O ]
       | rewrite andb_false_r, IH by done; simpl; by rewrite <- !app_assoc ]).
Qed.

Lemma scan_edges_spec x w L : ∀ pts tr,
  (∀ e1, e1 ∈ L -> is_Some (heap w !! e1)) -> candidates_allocated w L ->
  (x = true -> pts = []) ->
  run_body (scan_body w x) L (pts, tr)
  = Ok (pts ++ collected x (flat_map snd (items (heap w) (edges w) L)),
        tr ++ map fst (reached x (items (heap w) (edges w) L))).
Proof.
  induction L as [|e1 L IH]; intros pts tr Halloc Hcand Hpts.
  - simpl. destruct x; by rewrite !app_nil_r.
  - destruct (Halloc e1) as [E1 HE1]; [by left|].
    assert (∀ e, e ∈ L -> is_Some (heap w !! e)) as Halloc'.
    { intros e He. apply Halloc. by right. }
    assert (candidates_allocated w L) as Hcand'.
    { intros e E e2 He. apply Hcand. by right. }
    cbn [run_body].
    replace (scan_body w x e1 (pts, tr)) with
      (st ← scan_candidates x (heap w) e1 E1
              (PlanarSet_search (edges w) (heap w) (Edge_box E1)) (pts, tr);
       Ok (st, (0 <? length (fst st))%nat && x))
      by (unfold scan_body; by rewrite (deref_Some _ _ _ HE1)).
    rewrite scan_candidates_spec;
      [|intros e2 He2; eapply (Hcand e1 E1 e2); [by left|done|done]|done].
    simpl.
    unfold items. cbn [flat_map]. fold (items (heap w) (edges w) L). rewrite HE1.
    set (its1 := items_of (heap w) e1 E1 _).
    rewrite flat_map_app. destruct x; simpl.
    + rewrite (Hpts eq_refl). simpl. rewrite firstn_1_app.
      destruct (flat_map snd its1) as [|pt k] eqn:Hk; simpl.
      * rewrite IH by done. simpl.
        rewrite until_hit_app_nohit, (until_hit_nohit its1) by done.
        by rewrite map_app, app_assoc.
      * rewrite until_hit_app_hit; [done|]. by rewrite Hk.
    + rewrite andb_false_r, IH by done. by rewrite map_app, !app_assoc.
Qed.

Lemma getSelfIntersections_scan_spec w L x fuel :
  loop w L -> candidates_allocated w L -> length L < fuel ->
  getSelfIntersections_scan fuel w x
  = Ok (collected x (flat_map snd (items (heap w) (edges w) L)),
        map fst (reached x (items (heap w) (edges w) L))).
Proof.
  intros HL Hcand Hfuel. unfold getSelfIntersections_scan.
  rewrite (for_of_face _ _ w L); try done.
  apply (scan_edges_spec x w L [] []); try done.
  intros e1. by apply loop_allocated.
Qed.

Lemma candidates_allocatedb_true w L :
  candidates_allocatedb w L = true -> candidates_allocated w L.
Proof.
  unfold candidates_allocatedb. rewrite forallb_forall.
  intros Hall e1 E1 e2 He1%list_elem_of_In HE1 He2%list_elem_of_In.
  specialize (Hall e1 He1). rewrite HE1, forallb_forall in Hall.
  specialize (Hall e2 He2). by apply bool_decide_eq_true in Hall.
Qed.

(** ** The specified properties *)
Lemma loop_isEmpty w L : loop w L -> isEmpty w = false -> L ≠ [].
Proof.
  intros HL He ->. apply loop_nil in HL as [Hf Hl]. unfold isEmpty in He.
  rewrite Hf, Hl in He. done.
Qed.

(** C1. After any sequence of [append], [insert] and [remove] operations
    applied within their contracts to a face that is a closed loop, the
    operations return, and if the face they leave is not empty it is
    circular: [size()] returns a number [n], following [next] from [first]
    exactly [n] times returns to [first] (and no fewer times do),
    [first.prev] is [last] and [last.next] is [first]. *)
Theorem circular_invariant w L ops :
  loop w L -> ops_ok (heap w) L ops ->
  ∃ w', run_ops ops w = Ok w'
    ∧ loop w' (fold_left op_list ops L)
    ∧ (isEmpty w' = false ->
       ∃ n, (∀ fuel, n < fuel -> size fuel w' = Ok n)
         ∧ is_Some (first (this w'))
         ∧ follow (heap w') n (first (this w')) = first (this w')
         ∧ (∀ k, 0 < k < n -> follow (heap w') k (first (this w')) ≠ first (this w'))
         ∧ first (this w') ≫= fprev (heap w') = last (this w')
         ∧ last (this w') ≫= fnext (heap w') = first (this w')).
Proof.
  intros HL Hok.
  destruct (run_ops_spec ops w L (heap w) HL Hok) as (w' & Hrun & HL' & _); [done|].
  exists w'. split_and!; try done.
  intros Hne. exists (length (fold_left op_list ops L)).
  apply loop_circular; [done|]. by eapply loop_isEmpty.
Qed.

(** C2. On a non-empty face that is a closed loop, [setArcLength()] returns,
    leaves the traversal order as it was, and then the first edge has arc
    length 0, every other edge has the arc length of its predecessor plus
    the length of its predecessor, and every edge refers back to this
    face. *)
Theorem setArcLength_law w L fuel :
  loop w L -> L ≠ [] -> length L < fuel ->
  ∃ w', setArcLength fuel w = Ok w'
    ∧ get_edges fuel w' = Ok L
    ∧ (∃ e0 E0, head L = Some e0 ∧ first (this w') = Some e0
                ∧ heap w' !! e0 = Some E0 ∧ arc_length E0 = 0%Q)
    ∧ (∀ i ei ej, L !! i = Some ei -> L !! S i = Some ej ->
         ∃ Ei Ej, heap w' !! ei = Some Ei ∧ heap w' !! ej = Some Ej
                  ∧ arc_length Ej = (arc_length Ei + Edge_length Ei)%Q)
    ∧ (∀ e, e ∈ L -> ∃ E, heap w' !! e = Some E ∧ face E = Some (self w')).
Proof.
  intros HL Hne Hfuel.
  destruct (setArcLength_spec w L fuel HL Hfuel)
    as (w' & Hrun & Hsame & Hout & Hlaw & Hface).
  pose proof (same_loop_loop _ _ _ Hsame HL) as HL'.
  exists w'. split_and!; try done.
  - by apply get_edges_loop.
  - destruct L as [|a T]; [done|]. destruct Hlaw as [(A & HA & HA0) _].
    apply loop_cons in HL' as (_ & Hf & _). by exists a, A.
  - intros i ei ej. by apply arc_law_lookup.
  - intros e He. specialize (Hface e He).
    destruct (heap w' !! e) as [E|]; simpl in Hface; [|done].
    exists E. split; [done|]. destruct Hsame as (_ & -> & _). congruence.
Qed.

Lemma Qltb_lt a b : Qltb a b = true ↔ (a < b)%Q.
Proof.
  unfold Qltb. rewrite negb_true_iff, <- not_true_iff_false, Qle_bool_iff.
  split; [apply Qnot_le_lt|apply Qlt_not_le].
Qed.

Lemma Qltb_ge a b : Qltb a b = false ↔ (b <= a)%Q.
Proof.
  unfold Qltb. rewrite negb_false_iff, Qle_bool_iff. done.
Qed.

Lemma classify_cases area :
  (0 <= DP_TOL)%Q ->
  (EQ_0 area = true -> classify area = NOT_ORIENTABLE)
  ∧ (LT area 0 = true -> classify area = CCW)
  ∧ (GT area 0 = true -> classify area = CW).
Proof.
  intros Htol. unfold classify, EQ_0, LT, GT. split_and!.
  - by intros ->.
  - intros Hlt. rewrite Hlt. apply Qltb_lt in Hlt.
    destruct (Qltb (- DP_TOL) area) eqn:Hz; [|by rewrite andb_false_r].
    apply Qltb_lt in Hz. lra.
  - intros Hgt. apply Qltb_lt in Hgt.
    destruct (Qltb area DP_TOL) eqn:Hz; [apply Qltb_lt in Hz; lra|]. simpl.
    destruct (Qltb (area - 0) (- DP_TOL)) eqn:Hl; [apply Qltb_lt in Hl; lra|done].
Qed.

(** C3. [orientation()] on a face that is a closed loop returns; when no
    orientation is cached it classifies the value of [signedArea()]: within
    the tolerance of zero gives NOT_ORIENTABLE, less than zero by more than
    the tolerance gives CCW, greater than zero by more than the tolerance
    gives CW.  The result is cached: a later call returns it without looking
    at the loop.  [append], [insert], [remove], [setArcLength] and the [box]
    getter leave the cache as it is; [reverse] leaves an unset cache unset
    and replaces a cached orientation by the one of the reversed loop. *)
Theorem orientation_classifies w L fuel :
  (0 <= DP_TOL)%Q -> loop w L -> length L < fuel ->
  (∀ area, (EQ_0 area = true -> classify area = NOT_ORIENTABLE)
           ∧ (LT area 0 = true -> classify area = CCW)
           ∧ (GT area 0 = true -> classify area = CW))
  ∧ (_orientation (this w) = None ->
     ∃ area w1, signedArea fuel w = Ok (area, w1)
       ∧ orientation fuel w
         = Ok (classify area, set_orientation (Some (classify area)) w1))
  ∧ (∀ o, _orientation (this w) = Some o -> ∀ fuel', orientation fuel' w = Ok (o, w))
  ∧ (∃ o w', orientation fuel w = Ok (o, w') ∧ _orientation (this w') = Some o
       ∧ ∀ fuel', orientation fuel' w' = Ok (o, w'))
  ∧ (∀ op, op_ok (heap w) L op ->
       ∃ w', run_op op w = Ok w' ∧ _orientation (this w') = _orientation (this w))
  ∧ (∃ w', setArcLength fuel w = Ok w'
       ∧ _orientation (this w') = _orientation (this w))
  ∧ (∃ b w', box fuel w = Ok (b, w')
       ∧ _orientation (this w') = _orientation (this w))
  ∧ (L ≠ [] ->
     ∃ w', reverse fuel w = Ok w'
       ∧ match _orientation (this w) with
         | None => _orientation (this w') = None
         | Some _ =>
             ∃ o w'', orientation fuel (set_orientation None w') = Ok (o, w'')
               ∧ _orientation (this w') = Some o
         end).
Proof.
  intros Htol HL Hfuel. destruct (loop_shapes _ _ HL) as [ss Hss].
  assert (∀ o w', _orientation (this w') = Some o ->
                  ∀ fuel', orientation fuel' w' = Ok (o, w')) as Hcached.
  { intros o w' Ho fuel'. unfold orientation. by rewrite Ho. }
  split_and!.
  - intros area. by apply classify_cases.
  - intros Ho. rewrite (orientation_spec w L ss), (signedArea_spec w L ss) by done.
    rewrite Ho. destruct (_box (this w)); simpl; eauto.
  - intros o Ho. by apply Hcached.
  - rewrite (orientation_spec w L ss) by done.
    destruct (_orientation (this w)) as [o|] eqn:Ho.
    { exists o, w. split_and!; [done|done|]. intros fuel'. by apply Hcached. }
    destruct (_box (this w)); simpl; do 2 eexists; (split; [done|]);
      (split; [done|]); intros fuel'; by apply Hcached.
  - intros op Hop.
    destruct (run_op_spec w L op HL Hop) as (w' & ? & _ & _ & ? & _). eauto.
  - destruct (setArcLength_spec w L fuel HL Hfuel) as (w' & ? & (Ht & _) & _).
    exists w'. by rewrite Ht.
  - rewrite (box_spec w L ss) by done. destruct (_box (this w)); simpl; eauto.
  - intros Hne.
    destruct (reverse_spec w L fuel HL Hne Hfuel)
      as (w' & ss' & Hrun & HL' & Hss' & _ & Ho & Hb & _).
    exists w'. split; [done|]. unfold orientation_after_reverse in Ho.
    destruct (_orientation (this w)) as [o|]; [|done].
    assert (loop (set_orientation None w') (rev L)) as HL''.
    { eapply loop_ext; [| | | |exact HL']; done. }
    rewrite (orientation_spec _ (rev L) ss' fuel HL'' Hss') by by rewrite length_rev.
    simpl. rewrite Hb, Ho.
    destruct (_box (this w)); simpl; do 2 eexists; split; done.
Qed.

Lemma area_of_box_segments ym xmin ymin xmax ymax :
  (area_of ym (box_segments xmin ymin xmax ymax)
   == - ((xmax - xmin) * (ymax - ymin)))%Q.
Proof.
  unfold area_of, box_segments. simpl. unfold Segment_definiteIntegral. simpl.
  generalize (default 0%Q ym). intros y0. field.
Qed.

Lemma classify_negative area A :
  (area == - A)%Q -> (DP_TOL < A)%Q -> classify area = CCW.
Proof.
  intros Ha HA. unfold classify, EQ_0, LT.
  replace (Qltb (- DP_TOL) area) with false by (symmetry; apply Qltb_ge; lra).
  rewrite andb_false_r.
  replace (Qltb (area - 0) (- DP_TOL)) with true by (symmetry; apply Qltb_lt; lra).
  done.
Qed.

(** C4 (amended). Constructing a face from a box returns a face of exactly
    four edges, all straight segments, whose vertex walk is
    (xmin,ymin), (xmax,ymin), (xmax,ymax), (xmin,ymax) and back to
    (xmin,ymin).  The signed area of this loop is minus the area of the box:
    the loop is counter-clockwise, and [orientation()] returns CCW as soon
    as the area of the box exceeds the tolerance. *)
Theorem constructor_box fuel polygon_edges h self0 xmin ymin xmax ymax :
  ∃ w' e1 e2 e3 e4,
    constructor fuel polygon_edges h self0 (OneBox xmin ymin xmax ymax) = Ok w'
    ∧ get_edges 5 w' = Ok [e1; e2; e3; e4]
    ∧ size 5 w' = Ok 4
    ∧ shapes_of (heap w') [e1; e2; e3; e4] (box_segments xmin ymin xmax ymax)
    ∧ (∃ area w1, signedArea 5 w' = Ok (area, w1)
         ∧ (area == - ((xmax - xmin) * (ymax - ymin)))%Q)
    ∧ ((DP_TOL < (xmax - xmin) * (ymax - ymin))%Q ->
       fst <$> orientation 5 w' = Ok CCW).
Proof.
  unfold constructor. fold (box_segments xmin ymin xmax ymax).
  set (w := mkWorld h self0 (mkFace None None None None) polygon_edges).
  destruct (shapes2face_spec (box_segments xmin ymin xmax ymax) w [])
    as (w' & R & Hrun & HL & Hss & _ & _ & Hb & Ho & _).
  { by apply loop_nil. }
  simpl in HL, Hb, Ho.
  pose proof (Forall2_length _ _ _ Hss) as Hlen.
  destruct R as [|e1 [|e2 [|e3 [|e4 [|e5 R]]]]]; try done.
  exists w', e1, e2, e3, e4. split_and!; try done.
  - by apply get_edges_loop; [|simpl; lia].
  - by apply (size_loop w' [e1; e2; e3; e4]); [|simpl; lia].
  - rewrite (signedArea_spec w' [e1; e2; e3; e4] _ 5 HL Hss) by (simpl; lia).
    rewrite Hb. do 2 eexists. split; [done|]. apply area_of_box_segments.
  - intros Htol.
    rewrite (orientation_spec w' [e1; e2; e3; e4] _ 5 HL Hss) by (simpl; lia).
    rewrite Ho, Hb. simpl. f_equal.
    eapply classify_negative; [apply area_of_box_segments|done].
Qed.

(** The items of the scan, one by one. *)
Lemma items_of_elem h e1 E1 resp it :
  it ∈ items_of h e1 E1 resp ↔
  ∃ e2 E2, it = ((e1, e2), kept e2 E1 E2) ∧ e2 ∈ resp ∧ h !! e2 = Some E2
           ∧ skipped e1 e2 E1 E2 = false.
Proof.
  unfold items_of. rewrite list_elem_of_In, in_flat_map. split.
  - intros (e2 & He2 & Hit). apply list_elem_of_In in He2.
    destruct (h !! e2) as [E2|] eqn:HE2; [|done].
    destruct (skipped e1 e2 E1 E2) eqn:Hsk; [done|].
    destruct Hit as [<-|[]]. by exists e2, E2.
  - intros (e2 & E2 & -> & He2 & HE2 & Hsk). exists e2.
    rewrite <- list_elem_of_In, HE2, Hsk. split; [done|by left].
Qed.

Lemma items_elem h edges0 L it :
  it ∈ items h edges0 L ↔
  ∃ e1 E1 e2 E2, it = ((e1, e2), kept e2 E1 E2) ∧ e1 ∈ L ∧ h !! e1 = Some E1
    ∧ e2 ∈ PlanarSet_search edges0 h (Edge_box E1) ∧ h !! e2 = Some E2
    ∧ skipped e1 e2 E1 E2 = false.
Proof.
  unfold items. rewrite list_elem_of_In, in_flat_map. split.
  - intros (e1 & He1 & Hit). apply list_elem_of_In in He1.
    destruct (h !! e1) as [E1|] eqn:HE1; [|done].
    apply list_elem_of_In, items_of_elem in Hit as (e2 & E2 & ? & ? & ? & ?).
    by exists e1, E1, e2, E2.
  - intros (e1 & E1 & e2 & E2 & -> & He1 & HE1 & He2 & HE2 & Hsk). exists e1.
    rewrite <- list_elem_of_In, HE1. split; [done|].
    apply list_elem_of_In, items_of_elem. by exists e2, E2.
Qed.

Lemma equalTo_exact p q :
  equalTo p q = true ↔ (x p == x q)%Q ∧ (y p == y q)%Q.
Proof. unfold equalTo. by rewrite andb_true_iff, !Qeq_bool_iff. Qed.

Lemma is_joint_iff e2 E1 E2 pt :
  is_joint e2 E1 E2 pt = true ↔
  (prev E1 = Some e2 ∧ equalTo pt (Edge_start E1) = true
   ∧ equalTo pt (Edge_end E2) = true)
  ∨ (next E1 = Some e2 ∧ equalTo pt (Edge_end E1) = true
     ∧ equalTo pt (Edge_start E2) = true).
Proof.
  unfold is_joint.
  rewrite orb_true_iff, !andb_true_iff, !bool_decide_eq_true. tauto.
Qed.

Lemma skipped_iff e1 e2 E1 E2 :
  skipped e1 e2 E1 E2 = true ↔
  e1 = e2 ∨ ((prev E1 = Some e2 ∨ next E1 = Some e2)
             ∧ isSegment (shape E1) = true ∧ isSegment (shape E2) = true).
Proof.
  unfold skipped.
  rewrite !orb_true_iff, !andb_true_iff, orb_true_iff, !bool_decide_eq_true. tauto.
Qed.

(** C5. In [getSelfIntersections], on a face that is a closed loop, the
    points collected are the points kept of the pairs that are not skipped,
    in scan order, up to the first one when [exitOnFirst] is set.  A point
    of [e1] and [e2] is kept unless it is the joint of the two: exactly equal
    (both coordinates equal, no tolerance) to [e1.start] and to [e2.end]
    while [e2] is the predecessor of [e1], or to [e1.end] and to [e2.start]
    while [e2] is the successor of [e1]. *)
Theorem getSelfIntersections_points w L exitOnFirst fuel :
  loop w L -> candidates_allocated w L -> length L < fuel ->
  getSelfIntersections fuel w exitOnFirst
  = Ok (collected exitOnFirst (flat_map snd (items (heap w) (edges w) L)))
  ∧ (∀ pt, pt ∈ flat_map snd (items (heap w) (edges w) L) ↔
       ∃ e1 E1 e2 E2,
         e1 ∈ L ∧ heap w !! e1 = Some E1
         ∧ e2 ∈ PlanarSet_search (edges w) (heap w) (Edge_box E1)
         ∧ heap w !! e2 = Some E2 ∧ skipped e1 e2 E1 E2 = false
         ∧ pt ∈ Shape_intersect (shape E1) (shape E2)
         ∧ ¬ ((prev E1 = Some e2 ∧ equalTo pt (Edge_start E1) = true
               ∧ equalTo pt (Edge_end E2) = true)
              ∨ (next E1 = Some e2 ∧ equalTo pt (Edge_end E1) = true
                 ∧ equalTo pt (Edge_start E2) = true)))
  ∧ (∀ p q, equalTo p q = true ↔ (x p == x q)%Q ∧ (y p == y q)%Q).
Proof.
  intros HL Hcand Hfuel. split_and!.
  - unfold getSelfIntersections.
    by rewrite (getSelfIntersections_scan_spec w L).
  - intros pt. rewrite list_elem_of_In, in_flat_map. split.
    + intros ([p k] & Hit & Hpt).
      apply list_elem_of_In, items_elem in Hit
        as (e1 & E1 & e2 & E2 & [= -> ->] & ? & ? & ? & ? & ?).
      simpl in Hpt. unfold kept in Hpt. apply filter_In in Hpt as [Hpt Hj].
      exists e1, E1, e2, E2. split_and!; try done.
      * by apply list_elem_of_In.
      * rewrite <- is_joint_iff. by destruct (is_joint e2 E1 E2 pt).
    + intros (e1 & E1 & e2 & E2 & ? & ? & ? & ? & ? & Hpt & Hj).
      exists ((e1, e2), kept e2 E1 E2). split.
      * apply list_elem_of_In, items_elem. by exists e1, E1, e2, E2.
      * simpl. unfold kept. apply filter_In. split; [by apply list_elem_of_In|].
        rewrite <- is_joint_iff in Hj. by destruct (is_joint e2 E1 E2 pt).
  - apply equalTo_exact.
Qed.

Lemma until_hit_prefix its : until_hit its `prefix_of` its.
Proof.
  induction its as [|[p k] its IH]; [done|]. simpl. destruct k.
  - by apply prefix_cons.
  - by exists its.
Qed.

Lemma items_pair_points h edges0 L it :
  it ∈ items h edges0 L -> snd it = pair_points h (fst it).
Proof.
  intros (e1 & E1 & e2 & E2 & -> & _ & HE1 & _ & HE2 & _)%items_elem.
  unfold pair_points. simpl. by rewrite HE1, HE2.
Qed.

Lemma flat_map_pair_points h (its : list ((ref * ref) * list Point)) :
  (∀ it, it ∈ its -> snd it = pair_points h (fst it)) ->
  flat_map snd its = flat_map (pair_points h) (map fst its).
Proof.
  induction its as [|it its IH]; intros Hits; [done|]. simpl.
  rewrite (Hits it) by left. f_equal. apply IH. intros it' Hin. apply Hits. by right.
Qed.

Lemma until_hit_first its :
  firstn 1 (flat_map snd (until_hit its)) = firstn 1 (flat_map snd its).
Proof.
  induction its as [|[p k] its IH]; [done|]. simpl. destruct k as [|pt k]; simpl.
  - done.
  - by rewrite app_nil_r.
Qed.

Lemma until_hit_last its : ∀ its0 it,
  until_hit its = its0 ++ [it] -> flat_map snd its0 = [].
Proof.
  induction its as [|[p k] its IH]; intros its0 it Heq; simpl in Heq.
  - by destruct its0.
  - destruct k as [|pt k].
    + destruct its0 as [|it0 its0]; [done|]. simpl in Heq.
      injection Heq as <- Heq. simpl. by apply (IH its0 it).
    + destruct its0 as [|it0 its0]; [done|]. simpl in Heq.
      injection Heq as _ Heq. by destruct its0.
Qed.

Lemma collected_pair_points h edges0 L x :
  collected x (flat_map snd (items h edges0 L))
  = collected x (flat_map (pair_points h) (map fst (reached x (items h edges0 L)))).
Proof.
  destruct x; simpl.
  - rewrite <- until_hit_first. f_equal. apply flat_map_pair_points.
    intros it Hin. apply (items_pair_points h edges0 L).
    destruct (until_hit_prefix (items h edges0 L)) as [k Hk].
    rewrite Hk. apply elem_of_app. by left.
  - apply flat_map_pair_points. intros it. apply items_pair_points.
Qed.

(** C6. In [getSelfIntersections], on a face that is a closed loop, the
    pairs on which [intersect] is called are the candidate pairs that are
    not skipped, in scan order; with [exitOnFirst] set they stop at the
    first pair that keeps a point.  The result holds the intersection points
    of the shapes of these pairs, joints apart, in call order (the first one
    of them with [exitOnFirst]).  A pair is skipped exactly when the
    candidate is the edge itself, or is its immediate predecessor or
    successor and both shapes are segments; so the points where an arc
    meets a neighbour, other than their joint, are in the result. *)
Theorem getSelfIntersections_pairs w L exitOnFirst fuel :
  loop w L -> candidates_allocated w L -> length L < fuel ->
  ∃ calls,
    getSelfIntersections_scan fuel w exitOnFirst
    = Ok (collected exitOnFirst (flat_map (pair_points (heap w)) calls), calls)
    ∧ calls = map fst (reached exitOnFirst (items (heap w) (edges w) L))
    ∧ calls `prefix_of` map fst (items (heap w) (edges w) L)
    ∧ (exitOnFirst = false -> calls = map fst (items (heap w) (edges w) L))
    ∧ (exitOnFirst = true -> ∀ calls0 p,
         calls = calls0 ++ [p] -> flat_map (pair_points (heap w)) calls0 = [])
    ∧ (∀ e1 e2, (e1, e2) ∈ map fst (items (heap w) (edges w) L) ↔
         ∃ E1 E2, e1 ∈ L ∧ heap w !! e1 = Some E1
           ∧ e2 ∈ PlanarSet_search (edges w) (heap w) (Edge_box E1)
           ∧ heap w !! e2 = Some E2
           ∧ ¬ (e1 = e2
                ∨ ((prev E1 = Some e2 ∨ next E1 = Some e2)
                   ∧ isSegment (shape E1) = true ∧ isSegment (shape E2) = true)))
    ∧ (∀ e1 e2 E1 E2 pt,
         e1 ∈ L -> heap w !! e1 = Some E1 ->
         e2 ∈ PlanarSet_search (edges w) (heap w) (Edge_box E1) ->
         heap w !! e2 = Some E2 -> e1 ≠ e2 ->
         isSegment (shape E1) = false ∨ isSegment (shape E2) = false ->
         pt ∈ Shape_intersect (shape E1) (shape E2) ->
         is_joint e2 E1 E2 pt = false ->
         ∃ pts, getSelfIntersections fuel w false = Ok pts ∧ pt ∈ pts).
Proof.
  intros HL Hcand Hfuel.
  exists (map fst (reached exitOnFirst (items (heap w) (edges w) L))).
  split_and!; [| done | | | | |].
  - rewrite (getSelfIntersections_scan_spec w L) by done.
    by rewrite collected_pair_points.
  - destruct exitOnFirst; simpl; [|done].
    destruct (until_hit_prefix (items (heap w) (edges w) L)) as [k Hk].
    exists (map fst k). rewrite <- map_app. by rewrite <- Hk.
  - by intros ->.
  - intros -> calls0 p Heq. simpl in Heq.
    apply map_eq_app in Heq as (its0 & its1 & Hu & <- & Hp).
    destruct its1 as [|it [|? ?]]; try done.
    rewrite <- flat_map_pair_points.
    + by apply (until_hit_last _ _ it Hu).
    + intros it' Hin. apply (items_pair_points (heap w) (edges w) L).
      destruct (until_hit_prefix (items (heap w) (edges w) L)) as [k Hk].
      rewrite Hk, Hu, !elem_of_app. by do 2 left.
  - intros e1 e2. rewrite list_elem_of_In, in_map_iff. split.
    + intros ([p k] & Hp & Hit). simpl in Hp. subst p.
      apply list_elem_of_In, items_elem in Hit
        as (e1' & E1 & e2' & E2 & [= -> ->] & ? & ? & ? & ? & Hsk).
      exists E1, E2. split_and!; try done. rewrite <- skipped_iff. by rewrite Hsk.
    + intros (E1 & E2 & ? & ? & ? & ? & Hsk).
      exists ((e1, e2), kept e2 E1 E2). split; [done|].
      apply list_elem_of_In, items_elem. exists e1, E1, e2, E2. split_and!; try done.
      rewrite <- skipped_iff in Hsk. by destruct (skipped e1 e2 E1 E2).
  - intros e1 e2 E1 E2 pt He1 HE1 He2 HE2 Hne Harc Hpt Hj.
    unfold getSelfIntersections.
    rewrite (getSelfIntersections_scan_spec w L) by done. simpl.
    eexists. split; [done|].
    rewrite list_elem_of_In, in_flat_map.
    exists ((e1, e2), kept e2 E1 E2). split.
    + apply list_elem_of_In, items_elem. exists e1, E1, e2, E2.
      split_and!; try done.
      destruct (skipped e1 e2 E1 E2) eqn:Hsk; [|done].
      apply skipped_iff in Hsk as [?|(_ & Hs1 & Hs2)]; [done|].
      destruct Harc; congruence.
    + simpl. unfold kept. apply filter_In. split; [by apply list_elem_of_In|].
      by rewrite Hj.
Qed.

Lemma Shape_reverse_involutive s : Shape_reverse (Shape_reverse s) = s.
Proof.
  destruct s as [[? ?]|[? ? ? ? ccw]]; simpl; [done|].
  unfold Arc_reverse. simpl. by rewrite negb_involutive.
Qed.

(** C7. On a non-empty face that is a closed loop, [reverse()] applied twice
    returns twice and gives back the original face: the same edges in the
    same traversal order, from the same [first] to the same [last], each with
    the shape it had (it was reversed twice).  In between, the traversal
    order and every shape of the loop are reversed. *)
Theorem reverse_reverse w L fuel :
  loop w L -> L ≠ [] -> length L < fuel ->
  ∃ w1 w2, reverse fuel w = Ok w1 ∧ reverse fuel w1 = Ok w2
    ∧ get_edges fuel w = Ok L
    ∧ get_edges fuel w1 = Ok (rev L)
    ∧ get_edges fuel w2 = Ok L
    ∧ first (this w2) = first (this w) ∧ last (this w2) = last (this w)
    ∧ (∀ e, e ∈ L ->
         shape <$> heap w1 !! e = Shape_reverse <$> (shape <$> heap w !! e))
    ∧ (∀ e, shape <$> heap w2 !! e = shape <$> heap w !! e).
Proof.
  intros HL Hne Hfuel.
  destruct (reverse_spec w L fuel HL Hne Hfuel)
    as (w1 & ss1 & Hr1 & HL1 & _ & Hs1 & _).
  assert (rev L ≠ []) as Hne1.
  { intros Hrev. apply Hne. by rewrite <- (rev_involutive L), Hrev. }
  assert (length (rev L) < fuel) as Hfuel1 by by rewrite length_rev.
  destruct (reverse_spec w1 (rev L) fuel HL1 Hne1 Hfuel1)
    as (w2 & ss2 & Hr2 & HL2 & _ & Hs2 & _).
  rewrite rev_involutive in HL2.
  exists w1, w2. split_and!; try done; try (by apply get_edges_loop).
  - destruct HL as (_ & -> & _), HL2 as (_ & -> & _). done.
  - destruct HL as (_ & _ & -> & _), HL2 as (_ & _ & -> & _). done.
  - intros e He. rewrite Hs1. by rewrite bool_decide_eq_true_2.
  - intros e. rewrite Hs2, Hs1.
    rewrite (bool_decide_ext (e ∈ rev L) (e ∈ L))
      by (rewrite !list_elem_of_In; symmetry; apply in_rev).
    destruct (heap w !! e) as [E|]; simpl; [|done].
    case_bool_decide; [|done]. by rewrite Shape_reverse_involutive.
Qed.

(** C8. On a face that is a closed loop, [insert(edges, newEdge,
    edgeBefore)] with [edgeBefore] in the face and [newEdge] a new edge
    returns and assigns one arc length only, the one of [newEdge]: 0 when
    [edgeBefore] is the last edge, else the arc length of [edgeBefore] plus
    its length.  The arc length of every other edge is what it was. *)
Theorem insert_arc_length_frame w L newEdge edgeBefore N :
  loop w L -> edgeBefore ∈ L -> heap w !! newEdge = Some N -> newEdge ∉ L ->
  ∃ w', insert newEdge edgeBefore w = Ok w'
    ∧ (∀ e, e ≠ newEdge ->
         arc_length <$> heap w' !! e = arc_length <$> heap w !! e)
    ∧ (∀ B, heap w !! edgeBefore = Some B ->
         arc_length <$> heap w' !! newEdge
         = Some (if bool_decide (olast L = Some edgeBefore) then 0%Q
                 else (arc_length B + Edge_length B)%Q)).
Proof.
  intros HL Hb HN Hn.
  destruct (insert_spec w L newEdge edgeBefore N HL Hb HN Hn)
    as (w' & ? & _ & _ & _ & _ & _ & _ & ? & _ & _ & ?).
  by exists w'.
Qed.

Lemma every_instanceof_Point shapes :
  every instanceof_Point shapes = Ok (forallb is_point shapes).
Proof.
  induction shapes as [|v shapes IH]; [done|]. simpl.
  destruct v; simpl; by rewrite ?IH.
Qed.

Lemma every_instanceof_Segment_or_Arc shapes :
  every instanceof_Segment_or_Arc shapes = Ok (forallb is_segment_or_arc shapes).
Proof.
  induction shapes as [|v shapes IH]; [done|]. simpl.
  destruct v; simpl; by rewrite ?IH.
Qed.

Lemma every_name shapes :
  forallb has_properties shapes = true ->
  every name_is_segment_or_arc shapes = Ok (forallb is_record shapes).
Proof.
  induction shapes as [|v shapes IH]; [done|]. simpl.
  intros [Hv Hs]%andb_true_iff. specialize (IH Hs).
  destruct v as [| | |[name|] ? ?| |]; simpl in *; try done.
  unfold name_is_segment_or_arc. simpl.
  destruct (bool_decide (Some name = Some "segment"%string)) eqn:H1,
    (bool_decide (Some name = Some "arc"%string)) eqn:H2;
    repeat case_bool_decide; simplify_eq; simpl; done.
Qed.

#[local] Arguments every : simpl never.

(** C9 (amended). Constructing a face from a non-empty array none of whose
    elements is [null] or [undefined], and whose elements are not all
    points, not all segments or arcs and not all recognized serialized shape
    records, returns an empty face ([isEmpty()] true, size 0) and touches
    neither the store nor the container of edges. *)
Theorem constructor_unrecognized fuel polygon_edges h self0 shapes :
  shapes ≠ [] ->
  forallb has_properties shapes = true ->
  forallb is_point shapes = false ->
  forallb is_segment_or_arc shapes = false ->
  forallb is_record shapes = false ->
  ∃ w', constructor fuel polygon_edges h self0 (OneArray shapes) = Ok w'
    ∧ isEmpty w' = true ∧ size 1 w' = Ok 0
    ∧ heap w' = h ∧ edges w' = polygon_edges.
Proof.
  intros Hne Hprops Hp Hs Hr. unfold constructor.
  destruct shapes as [|v shapes]; [done|]. cbn [length Nat.eqb].
  rewrite every_instanceof_Point, Hp. simpl.
  rewrite every_instanceof_Segment_or_Arc, Hs. simpl.
  rewrite every_name, Hr by done. simpl.
  eexists. split_and!; done.
Qed.

(** C10. [reverse()] on an empty face reads a property of the absent last
    edge at once and raises.  On a non-empty face that is a closed loop it
    never raises, whatever the fuel, and it returns as soon as the fuel
    exceeds the number of edges. *)
Theorem reverse_nonempty w :
  (isEmpty w = true -> ∀ fuel, reverse (S fuel) w = TypeError)
  ∧ (∀ L, loop w L -> L ≠ [] ->
       (∀ fuel, reverse fuel w ≠ TypeError)
       ∧ (∀ fuel, length L < fuel -> ∃ w', reverse fuel w = Ok w')).
Proof.
  split.
  - unfold isEmpty. intros [_ Hl%bool_decide_eq_true]%andb_true_iff fuel.
    unfold reverse. by rewrite Hl, reverse_collect_S.
  - intros L HL Hne.
    assert (∀ fuel, length L < fuel -> ∃ w', reverse fuel w = Ok w') as Hok.
    { intros fuel Hfuel.
      destruct (reverse_spec w L fuel HL Hne Hfuel) as (w' & _ & ? & _). eauto. }
    split; [|done]. intros fuel Herr.
    destruct (Hok (fuel + S (length L))) as [w' Hw']; [lia|].
    rewrite (reverse_mono fuel) in Hw'; [congruence|lia|by rewrite Herr].
Qed.

(** * Further properties of the code

    ** The iterator on an arbitrary store

    The lemmas of this part do not assume that the face is a closed loop:
    they follow the iterator of lines 140-150 on whatever the store holds. *)

Lemma follow_S h n v : follow h (S n) v = follow h n v ≫= fnext h.
Proof.
  revert v. induction n as [|n IH]; intros v; [done|].
  change (follow h (S (S n)) v) with (follow h (S n) (v ≫= fnext h)).
  rewrite IH. done.
Qed.

Lemma follow_None h n : follow h n None = None.
Proof. induction n as [|n IH]; [done|]. simpl. done. Qed.

Lemma visited_S h f j edge :
  visited h f (S j) edge = default f edge :: visited h f j (iter_edge h f edge).
Proof.
  unfold visited. simpl. f_equal. rewrite <- seq_shift, map_map.
  apply map_ext. intros i. by rewrite Nat.iter_succ_r.
Qed.

(** A loop whose body only folds the edges into its state. *)
Section Fold.
Context {A : Type} (heap_of : A -> gmap ref Edge) (g : A -> ref -> A) (f : ref).
Hypothesis g_heap : ∀ a v, heap_of (g a v) = heap_of a.

Lemma for_of_fold_inv fuel : ∀ edge acc acc',
  for_of heap_of (Some f) (fun v a => Ok (g a v, false)) fuel edge acc = Ok acc' ->
  ∃ j, j < fuel
    ∧ Nat.iter j (iter_edge (heap_of acc) f) edge = Some f
    ∧ (∀ i, i < j -> Nat.iter i (iter_edge (heap_of acc) f) edge ≠ Some f)
    ∧ acc' = fold_left g (visited (heap_of acc) f j edge) acc.
Proof.
  induction fuel as [|fuel IH]; intros edge acc acc' Hrun; [done|].
  simpl in Hrun. unfold iter_next in Hrun.
  destruct edge as [e|]; simpl in Hrun.
  - unfold deref in Hrun. destruct (heap_of acc !! e) as [E|] eqn:HE; [|done].
    simpl in Hrun. case_bool_decide as Hef.
    + simplify_eq. exists 0. split_and!; [lia|done|intros; lia|done].
    + apply IH in Hrun as (j & Hj & Hend & Hmin & ->). rewrite g_heap in *.
      assert (next E = iter_edge (heap_of acc) f (Some e)) as Hstep.
      { unfold iter_edge. simpl. by rewrite (fnext_lookup _ _ _ HE). }
      rewrite Hstep in *.
      exists (S j). split_and!; [lia| | |].
      * by rewrite Nat.iter_succ_r.
      * intros [|i] Hi; [simpl; congruence|]. rewrite Nat.iter_succ_r. apply Hmin. lia.
      * by rewrite visited_S.
  - unfold deref in Hrun. destruct (heap_of acc !! f) as [E|] eqn:HE; [|done].
    simpl in Hrun.
    apply IH in Hrun as (j & Hj & Hend & Hmin & ->). rewrite g_heap in *.
    assert (next E = iter_edge (heap_of acc) f None) as Hstep.
    { unfold iter_edge. simpl. by rewrite (fnext_lookup _ _ _ HE). }
    rewrite Hstep in *.
    exists (S j). split_and!; [lia| | |].
    * by rewrite Nat.iter_succ_r.
    * intros [|i] Hi; [simpl; congruence|]. rewrite Nat.iter_succ_r. apply Hmin. lia.
    * by rewrite visited_S.
Qed.

Lemma for_of_fold_run j : ∀ fuel edge acc,
  j < fuel ->
  Nat.iter j (iter_edge (heap_of acc) f) edge = Some f ->
  (∀ i, i < j -> Nat.iter i (iter_edge (heap_of acc) f) edge ≠ Some f) ->
  (∀ i, i <= j -> is_Some (heap_of acc !! default f (Nat.iter i (iter_edge (heap_of acc) f) edge))) ->
  for_of heap_of (Some f) (fun v a => Ok (g a v, false)) fuel edge acc
  = Ok (fold_left g (visited (heap_of acc) f j edge) acc).
Proof.
  induction j as [|j IH]; intros fuel edge acc Hfuel Hend Hmin Halloc;
    (destruct fuel as [|fuel]; [lia|]).
  - simpl in Hend. subst edge. destruct (Halloc 0) as [E HE]; [lia|]. simpl in HE.
    simpl. unfold iter_next. rewrite (deref_Some _ _ _ HE). simpl.
    by rewrite bool_decide_eq_true_2.
  - destruct (Halloc 0) as [E HE]; [lia|]. simpl in HE.
    assert (edge ≠ Some f) as Hne by (apply (Hmin 0); lia).
    assert (next E = iter_edge (heap_of acc) f edge) as Hstep.
    { unfold iter_edge. by rewrite (fnext_lookup _ _ _ HE). }
    rewrite visited_S. simpl fold_left.
    transitivity (for_of heap_of (Some f) (fun v a => Ok (g a v, false)) fuel
                    (iter_edge (heap_of acc) f edge) (g acc (default f edge))).
    { simpl. unfold iter_next.
      destruct edge as [e|]; simpl in *.
      - rewrite (deref_Some _ _ _ HE). simpl.
        rewrite bool_decide_eq_false_2 by congruence. by rewrite Hstep.
      - rewrite (deref_Some _ _ _ HE). simpl. by rewrite Hstep. }
    rewrite (IH fuel); rewrite ?g_heap.
    + done.
    + lia.
    + by rewrite <- Nat.iter_succ_r.
    + intros i Hi. rewrite <- Nat.iter_succ_r. apply Hmin. lia.
    + intros i Hi. rewrite <- Nat.iter_succ_r. apply Halloc. lia.
Qed.

End Fold.

(** The iterator started on [undefined], against [next] followed from
    [first]: the two agree up to the first return to [first], because the
    iterator that falls off the chain starts again at [first]. *)
Section Steps.
Context (h : gmap ref Edge) (f : ref).

Lemma follow_add i t v : follow h (i + t) v = follow h t (follow h i v).
Proof.
  revert v. induction i as [|i IH]; intros v; [done|]. simpl. apply IH.
Qed.

Lemma follow_is_Some n i v : i <= n -> is_Some (follow h n v) -> is_Some (follow h i v).
Proof.
  intros Hi Hn. replace n with (i + (n - i)) in Hn by lia.
  rewrite follow_add in Hn. destruct (follow h i v); [eauto|].
  rewrite follow_None in Hn. by destruct Hn.
Qed.

Lemma visited_length j edge : length (visited h f j edge) = j.
Proof. unfold visited. by rewrite length_map, length_seq. Qed.

Lemma iter_edge_restart i t :
  Nat.iter i (iter_edge h f) None = None ->
  Nat.iter (i + t) (iter_edge h f) None = Nat.iter t (iter_edge h f) None.
Proof.
  intros Hi. induction t as [|t IH].
  - by rewrite Nat.add_0_r.
  - rewrite Nat.add_succ_r. simpl. by rewrite IH.
Qed.

Lemma iter_edge_no_restart j i :
  Nat.iter j (iter_edge h f) None = Some f ->
  (∀ k, k < j -> Nat.iter k (iter_edge h f) None ≠ Some f) ->
  0 < i <= j -> Nat.iter i (iter_edge h f) None ≠ None.
Proof.
  intros Hend Hmin Hi Hnone.
  pose proof (iter_edge_restart i (j - i) Hnone) as Hr.
  replace (i + (j - i)) with j in Hr by lia.
  apply (Hmin (j - i)); [lia|]. by rewrite <- Hr.
Qed.

Lemma iter_edge_follow i :
  0 < i -> (∀ k, 0 < k < i -> Nat.iter k (iter_edge h f) None ≠ None) ->
  Nat.iter i (iter_edge h f) None = follow h i (Some f).
Proof.
  induction i as [|i IH]; [lia|]. intros _ Hsome.
  destruct i as [|i]; [done|].
  rewrite follow_S, <- IH; [|lia|intros k Hk; apply Hsome; lia].
  change (Nat.iter (S (S i)) (iter_edge h f) None)
    with (iter_edge h f (Nat.iter (S i) (iter_edge h f) None)).
  destruct (Nat.iter (S i) (iter_edge h f) None) as [e|] eqn:He; [done|].
  exfalso. apply (Hsome (S i)); [lia|done].
Qed.

Lemma follow_iter_edge n i :
  is_Some (follow h n (Some f)) -> 0 < i <= n ->
  Nat.iter i (iter_edge h f) None = follow h i (Some f).
Proof.
  intros Hn Hi. apply iter_edge_follow; [lia|].
  induction i as [|i IH]; [lia|]. intros k Hk.
  destruct (decide (k = i)) as [->|Hne]; [|apply IH; lia].
  assert (0 < i <= n) as Hi' by lia.
  rewrite iter_edge_follow; [|lia|apply IH; lia].
  destruct (follow_is_Some n i (Some f)) as [e He]; [lia|done|]. by rewrite He.
Qed.

Lemma cycle_iter_edge n :
  0 < n -> follow h n (Some f) = Some f ->
  (∀ k, 0 < k < n -> follow h k (Some f) ≠ Some f) ->
  Nat.iter n (iter_edge h f) None = Some f
  ∧ (∀ i, i < n -> Nat.iter i (iter_edge h f) None ≠ Some f)
  ∧ (∀ i, i <= n -> is_Some (h !! default f (Nat.iter i (iter_edge h f) None)))
  ∧ (∀ k, k < n -> visited h f n None !! k = follow h k (Some f)).
Proof.
  intros Hn Hend Hmin.
  assert (is_Some (follow h n (Some f))) as Hsome by (rewrite Hend; eauto).
  assert (∀ i, 0 < i <= n ->
            Nat.iter i (iter_edge h f) None = follow h i (Some f)) as Heq.
  { intros i Hi. by apply (follow_iter_edge n). }
  assert (is_Some (h !! f)) as Hf.
  { destruct (follow_is_Some n 1 (Some f)) as [e He]; [lia|done|].
    simpl in He. apply fnext_Some in He as (E & HE & _). eauto. }
  split_and!.
  - rewrite Heq by lia. done.
  - intros [|i] Hi; [done|]. rewrite Heq by lia. apply Hmin. lia.
  - intros [|i] Hi; [done|]. rewrite Heq by lia.
    destruct (decide (S i = n)) as [<-|Hne]; [by rewrite Hend|].
    destruct (follow_is_Some n (S (S i)) (Some f)) as [e He]; [lia|done|].
    rewrite follow_S in He.
    destruct (follow h (S i) (Some f)) as [e'|]; [|done]. simpl in *.
    apply fnext_Some in He as (E & HE & _). eauto.
  - intros k Hk. unfold visited.
    rewrite list_lookup_fmap, lookup_seq_lt by done. simpl.
    destruct k as [|k]; [done|]. rewrite Heq by lia.
    destruct (follow_is_Some n (S k) (Some f)) as [e He]; [lia|done|]. by rewrite He.
Qed.

Lemma iter_edge_cycle j :
  Nat.iter j (iter_edge h f) None = Some f ->
  (∀ i, i < j -> Nat.iter i (iter_edge h f) None ≠ Some f) ->
  0 < j ∧ follow h j (Some f) = Some f
  ∧ (∀ k, 0 < k < j -> follow h k (Some f) ≠ Some f)
  ∧ (∀ k, k < j -> visited h f j None !! k = follow h k (Some f)).
Proof.
  intros Hend Hmin.
  assert (0 < j) as Hj by (destruct j; [done|lia]).
  assert (∀ i, 0 < i <= j ->
            Nat.iter i (iter_edge h f) None = follow h i (Some f)) as Heq.
  { intros i Hi. apply iter_edge_follow; [lia|].
    intros k Hk. apply (iter_edge_no_restart j); [done|done|lia]. }
  split_and!; [done| | |].
  - by rewrite <- Heq by lia.
  - intros k Hk. rewrite <- Heq by lia. apply Hmin. lia.
  - intros k Hk. unfold visited.
    rewrite list_lookup_fmap, lookup_seq_lt by done. simpl.
    destruct k as [|k]; [done|]. rewrite <- Heq by lia.
    destruct (Nat.iter (S k) (iter_edge h f) None) as [e|] eqn:He; [done|].
    exfalso. eapply (iter_edge_no_restart j (S k)); [done|done|lia|done].
Qed.

End Steps.

Lemma fold_left_edges w (vs l0 : list ref) :
  fold_left (fun (a : World * list ref) v => (fst a, snd a ++ [v])) vs (w, l0)
  = (w, l0 ++ vs).
Proof.
  revert l0. induction vs as [|v vs IH]; intros l0; simpl.
  - by rewrite app_nil_r.
  - rewrite IH. by rewrite <- app_assoc.
Qed.

(** X1: on a face with a first edge, [edges] returns the list [l] exactly
    when [l] is the chain of [next] links from [first] up to its first return
    to [first] (and the fuel covers one call of the iterator more than [l]
    has edges).  Nothing else is asked of the store: [prev], [last] and the
    edges off the chain play no part. *)
Theorem edges_returns_iff w f fuel l :
  first (this w) = Some f ->
  get_edges fuel w = Ok l ↔
    0 < length l < fuel
    ∧ (∀ k, k < length l -> l !! k = follow (heap w) k (Some f))
    ∧ follow (heap w) (length l) (Some f) = Some f
    ∧ (∀ k, 0 < k < length l -> follow (heap w) k (Some f) ≠ Some f).
Proof.
  intros Hf. unfold get_edges. rewrite Hf. split.
  - intros Hrun.
    destruct (for_of (fun a : World * list ref => heap (fst a)) (Some f)
                (fun edge a => Ok ((fst a, snd a ++ [edge]), false)) fuel None (w, []))
      as [[w' l']| |] eqn:Hfor; simpl in Hrun; simplify_eq.
    apply (for_of_fold_inv (fun a : World * list ref => heap (fst a))
             (fun a v => (fst a, snd a ++ [v]))) in Hfor
      as (j & Hj & Hend & Hmin & Hacc); [|done].
    simpl in *. rewrite fold_left_edges in Hacc. simplify_eq. simpl.
    rewrite visited_length.
    destruct (iter_edge_cycle _ _ _ Hend Hmin) as (? & ? & ? & ?).
    split_and!; done || lia.
  - intros ([Hpos Hfuel] & Hl & Hend & Hmin).
    destruct (cycle_iter_edge (heap w) f (length l) Hpos Hend Hmin)
      as (Hend' & Hmin' & Halloc & Hvis).
    rewrite (for_of_fold_run (fun a : World * list ref => heap (fst a))
               (fun a v => (fst a, snd a ++ [v])) f (fun _ _ => eq_refl)
               (length l)); try done.
    simpl. rewrite fold_left_edges. simpl. f_equal.
    apply list_eq. intros k. destruct (decide (k < length l)) as [Hk|Hk].
    + rewrite Hvis, Hl by done. done.
    + rewrite !lookup_ge_None_2; [done|lia|rewrite visited_length; lia].
Qed.

Lemma for_of_sim {A B} (hA : A -> gmap ref Edge) (hB : B -> gmap ref Edge) f
    bodyA bodyB (R : A -> B -> Prop) :
  (∀ a b, R a b -> hA a = hB b) ->
  (∀ v a b, R a b ->
     result_rel (fun x y => R (fst x) (fst y) ∧ snd x = snd y) (bodyA v a) (bodyB v b)) ->
  ∀ fuel edge a b, R a b ->
    result_rel R (for_of hA f bodyA fuel edge a) (for_of hB f bodyB fuel edge b).
Proof.
  intros Hheap Hbody. induction fuel as [|fuel IH]; intros edge a b HR; [done|].
  simpl. rewrite <- (Hheap a b HR).
  destruct (iter_next (hA a) f edge) as [[[value dn] edge0]| |]; simpl; [|done..].
  destruct dn; [done|]. destruct value as [v|]; [|done].
  specialize (Hbody v a b HR).
  destruct (bodyA v a) as [[a' ka]| |], (bodyB v b) as [[b' kb]| |];
    simpl in *; try done.
  destruct Hbody as [HR' ->]. destruct kb; [done|]. by apply IH.
Qed.

(** X2: [size] is the length of [edges] on every store and for every fuel:
    the two getters return, raise or run on together. *)
Theorem size_length_edges fuel w : size fuel w = length <$> get_edges fuel w.
Proof.
  unfold size, get_edges.
  pose proof (for_of_sim (fun a : World * nat => heap (fst a))
                (fun a : World * list ref => heap (fst a)) (first (this w))
                (fun edge a => Ok ((fst a, S (snd a)), false))
                (fun edge a => Ok ((fst a, snd a ++ [edge]), false))
                (fun a b => fst a = fst b ∧ snd a = length (snd b))) as Hsim.
  specialize (Hsim ltac:(by intros a b [-> _])).
  specialize (Hsim ltac:(intros v a b [Hw Hn]; simpl; rewrite Hw, Hn, length_app;
                         simpl; split_and!; [done|lia|done])).
  specialize (Hsim fuel None (w, 0) (w, []) ltac:(done)).
  destruct (for_of _ _ _ fuel None (w, 0)) as [[w1 n]| |],
           (for_of _ _ _ fuel None (w, [])) as [[w2 l]| |]; simpl in *; try done.
  destruct Hsim as [_ ->]. done.
Qed.

Lemma follow_allocated h f k e :
  closed_store h -> is_Some (h !! f) -> follow h k (Some f) = Some e ->
  is_Some (h !! e).
Proof.
  intros Hclosed Hf. revert e. induction k as [|k IH]; intros e.
  - simpl. by intros [= <-].
  - rewrite follow_S. destruct (follow h k (Some f)) as [e0|]; [|done]. simpl.
    intros (E0 & HE0 & Hn)%fnext_Some.
    specialize (Hclosed e0 E0 HE0). simpl in Hclosed. by rewrite Hn in Hclosed.
Qed.

Lemma for_of_never_ends {A} (heap_of : A -> gmap ref Edge) (g : A -> ref -> A) f :
  (∀ a v, heap_of (g a v) = heap_of a) ->
  ∀ fuel edge acc,
    closed_store (heap_of acc) -> is_Some (heap_of acc !! f) ->
    (∀ n, 0 < n -> follow (heap_of acc) n (Some f) ≠ Some f) ->
    edge = None ∨ (∃ k, 0 < k ∧ follow (heap_of acc) k (Some f) = edge) ->
    for_of heap_of (Some f) (fun v a => Ok (g a v, false)) fuel edge acc = OutOfFuel.
Proof.
  intros Hg. induction fuel as [|fuel IH]; intros edge acc Hclosed Hf Hopen Hedge; [done|].
  simpl. unfold iter_next.
  assert (∀ e, edge = Some e -> e ≠ f ∧ is_Some (heap_of acc !! e)) as Hsome.
  { intros e ->. destruct Hedge as [?|(k & Hk & Hfol)]; [done|]. split.
    - intros ->. by apply (Hopen k).
    - by eapply follow_allocated. }
  assert (∃ v E, default f edge = v ∧ heap_of acc !! v = Some E
                 ∧ (edge = None ∨ v ≠ f)
                 ∧ (next E = None ∨ ∃ k, 0 < k
                      ∧ follow (heap_of acc) k (Some f) = next E))
    as (v & E & Hv & HE & Hvf & Hnext).
  { destruct edge as [e|]; simpl.
    - destruct (Hsome e eq_refl) as [Hef [E HE]]. exists e, E. split_and!; eauto.
      destruct Hedge as [?|(k & Hk & Hfol)]; [done|].
      destruct (next E) as [n|] eqn:Hn; [|by left]. right. exists (S k).
      split; [lia|]. rewrite follow_S, Hfol. simpl. by rewrite (fnext_lookup _ _ _ HE).
    - destruct Hf as [E HE]. exists f, E. split_and!; eauto.
      destruct (next E) as [n|] eqn:Hn; [|by left]. right. exists 1.
      split; [lia|]. simpl. by rewrite (fnext_lookup _ _ _ HE). }
  destruct edge as [e|]; simpl in *; subst v; rewrite (deref_Some _ _ _ HE); simpl.
  - destruct Hvf as [?|Hef]; [done|]. rewrite bool_decide_eq_false_2 by done.
    apply IH; rewrite ?Hg; done.
  - apply IH; rewrite ?Hg; done.
Qed.

(** X3: when the chain of [next] links from [first] never comes back to
    [first], the traversal does not end, whatever the fuel: neither [edges]
    nor [size] returns.  A chain that ends in [undefined] is such a chain,
    because the iterator then starts again at [first]. *)
Theorem traversal_never_ends w f :
  first (this w) = Some f -> closed_store (heap w) -> is_Some (heap w !! f) ->
  (∀ n, 0 < n -> follow (heap w) n (Some f) ≠ Some f) ->
  ∀ fuel, get_edges fuel w = OutOfFuel ∧ size fuel w = OutOfFuel.
Proof.
  intros Hf Hclosed Halloc Hopen fuel. unfold get_edges, size. rewrite Hf.
  rewrite (for_of_never_ends (fun a : World * list ref => heap (fst a))
             (fun a v => (fst a, snd a ++ [v]))); try done; [|by left].
  rewrite (for_of_never_ends (fun a : World * nat => heap (fst a))
             (fun a v => (fst a, S (snd a)))); try done. by left.
Qed.

(** ** The empty face *)

Lemma for_of_empty {A} (heap_of : A -> gmap ref Edge) body fuel (acc : A) :
  for_of heap_of None body (S fuel) None acc = Ok acc.
Proof. done. Qed.

(** X4: on an empty face [edges] is empty, [size] is 0, [setArcLength]
    changes nothing, there is no self-intersection and the face is simple;
    with an unset box cache, [box] is the empty box [new Box()], the signed
    area and the area are 0 and, for a positive tolerance, the orientation
    is NOT_ORIENTABLE. *)
Theorem empty_face_reads w fuel :
  isEmpty w = true ->
  get_edges (S fuel) w = Ok []
  ∧ size (S fuel) w = Ok 0
  ∧ setArcLength (S fuel) w = Ok w
  ∧ (∀ exitOnFirst, getSelfIntersections (S fuel) w exitOnFirst = Ok [])
  ∧ isSimple (S fuel) w = Ok true
  ∧ (_box (this w) = None ->
     box (S fuel) w = Ok (EmptyBox, set_box (Some EmptyBox) w)
     ∧ fst <$> signedArea (S fuel) w = Ok 0%Q
     ∧ fst <$> area (S fuel) w = Ok 0%Q
     ∧ (_orientation (this w) = None -> (0 < DP_TOL)%Q ->
        fst <$> orientation (S fuel) w = Ok NOT_ORIENTABLE)).
Proof.
  unfold isEmpty. intros [Hf%bool_decide_eq_true _]%andb_prop.
  assert (∀ x, getSelfIntersections (S fuel) w x = Ok []) as Hscan.
  { intros x. unfold getSelfIntersections, getSelfIntersections_scan.
    by rewrite Hf, for_of_empty. }
  split_and!.
  - unfold get_edges. by rewrite Hf, for_of_empty.
  - unfold size. by rewrite Hf, for_of_empty.
  - unfold setArcLength. by rewrite Hf, for_of_empty.
  - done.
  - unfold isSimple. by rewrite Hscan.
  - intros Hb.
    assert (box (S fuel) w = Ok (EmptyBox, set_box (Some EmptyBox) w)) as Hbox.
    { unfold box. by rewrite Hb, Hf, for_of_empty. }
    assert (signedArea (S fuel) w = Ok (0%Q, set_box (Some EmptyBox) w)) as Harea.
    { unfold signedArea. rewrite Hbox. simpl. by rewrite Hf. }
    split_and!; [done|by rewrite Harea|unfold area; by rewrite Harea|].
    intros Ho Htol. unfold orientation. rewrite Ho, Harea. simpl.
    assert (EQ_0 0 = true) as ->; [|done].
    unfold EQ_0. apply andb_true_intro. split; apply Qltb_lt; lra.
Qed.

(** ** What the constructor builds *)

Lemma points2segments_lookup points i s :
  points2segments points !! i = Some s ->
  points !! i = Some (ps s)
  ∧ points !! ((i + 1) mod length points) = Some (pe s).
Proof.
  unfold points2segments. rewrite list_lookup_fmap.
  destruct (seq 0 (length points) !! i) as [k|] eqn:Hk; [|done].
  apply lookup_seq in Hk as [-> Hi]. simpl. intros [= <-]. simpl.
  assert ((i + 1) mod length points < length points) as Hmod
    by (apply Nat.mod_upper_bound; lia).
  destruct (lookup_lt_is_Some_2 points i Hi) as [p Hp].
  destruct (lookup_lt_is_Some_2 points _ Hmod) as [q Hq].
  rewrite !nth_lookup, Hp, Hq. done.
Qed.

Lemma points2segments_length points :
  length (points2segments points) = length points.
Proof. unfold points2segments. by rewrite length_map, length_seq. Qed.

(** X5: [points2segments] returns the closed polyline through the points:
    as many segments as points, the [i]-th from point [i] to point
    [(i + 1) mod n], so that every segment ends where the next one starts and
    the last one ends where the first one starts. *)
Theorem points2segments_closed_chain points :
  length (points2segments points) = length points
  ∧ map ps (points2segments points) = points
  ∧ (∀ i s, points2segments points !! i = Some s ->
       points !! i = Some (ps s)
       ∧ points !! ((i + 1) mod length points) = Some (pe s))
  ∧ (∀ i s t, points2segments points !! i = Some s ->
       points2segments points !! ((i + 1) mod length points) = Some t ->
       pe s = ps t).
Proof.
  pose proof (points2segments_length points) as Hlen.
  split_and!; [done| |apply points2segments_lookup|].
  - apply list_eq. intros i. rewrite list_lookup_fmap.
    destruct (points2segments points !! i) as [s|] eqn:Hs; simpl.
    + by destruct (points2segments_lookup _ _ _ Hs) as [-> _].
    + symmetry. apply lookup_ge_None. apply lookup_ge_None in Hs. lia.
  - intros i s t Hs Ht.
    destruct (points2segments_lookup _ _ _ Hs) as [_ Hq].
    destruct (points2segments_lookup _ _ _ Ht) as [Hp _]. congruence.
Qed.

Lemma link_last_more w L e E :
  loop w L -> heap w !! e = Some E -> e ∉ L ->
  ∃ w', link_last e w = Ok w'
    ∧ (∀ x, x ≠ e -> x ∉ L -> heap w' !! x = heap w !! x)
    ∧ arc_length <$> heap w' !! e
      = Some match olast L with
             | None => 0%Q
             | Some l =>
                 match heap w !! l with
                 | Some P => (arc_length P + Edge_length P)%Q
                 | None => 0%Q
                 end
             end.
Proof.
  intros HL He HeL. unfold link_last. destruct L as [|c T].
  - apply loop_nil in HL as [Hf Hl]. run.
    eexists. split; [done|]. split; by fields.
  - pose proof (loop_last_first _ _ _ HL) as Hsingle.
    apply loop_cons in HL as (Hnd & Hf & Hl & HT & Hlc & Hcl).
    assert (e ≠ c) as Hec by (intros ->; apply HeL; by left).
    assert (e ≠ List.last T c) as Hel by (intros ->; apply HeL, dlast_elem_of).
    pose proof Hlc as Hlc'. apply fnext_Some in Hlc' as (El & HEl & HnEl).
    pose proof Hcl as Hcl'. apply fprev_Some in Hcl' as (Ec & HEc & HpEc).
    rewrite olast_cons, HEl.
    destruct (decide (List.last T c = c)) as [Heq|Hne].
    + specialize (Hsingle Heq) as ->. simpl in *. simplify_eq. run.
      eexists. split; [done|]. split; [|by fields].
      intros x Hxe Hx. assert (x ≠ c) by (intros ->; apply Hx; by left). by fields.
    + run. eexists. split; [done|]. split; [|by fields].
      intros x Hxe Hx. assert (x ≠ c) by (intros ->; apply Hx; by left).
      assert (x ≠ List.last T c) by (intros ->; apply Hx, dlast_elem_of). by fields.
Qed.

Lemma elem_of_PlanarSet_add x e s : x ∈ PlanarSet_add e s ↔ x ∈ s ∨ x = e.
Proof.
  unfold PlanarSet_add. case_bool_decide as He.
  - split; [by left|]. intros [?| ->]; done.
  - rewrite elem_of_app, list_elem_of_singleton. done.
Qed.

Lemma elem_of_PlanarSet_delete x e s : x ∈ PlanarSet_delete e s ↔ x ∈ s ∧ x ≠ e.
Proof. unfold PlanarSet_delete. rewrite list_elem_of_filter. tauto. Qed.

Lemma append_more w L e E :
  loop w L -> heap w !! e = Some E -> e ∉ L ->
  ∃ w', append e w = Ok w'
    ∧ (∀ x, x ≠ e -> x ∉ L -> heap w' !! x = heap w !! x)
    ∧ arc_length <$> heap w' !! e
      = Some match olast L with
             | None => 0%Q
             | Some l =>
                 match heap w !! l with
                 | Some P => (arc_length P + Edge_length P)%Q
                 | None => 0%Q
                 end
             end.
Proof.
  intros HL He HeL. rewrite append_link_last.
  destruct (link_last_more w L e E HL He HeL) as (w1 & -> & Hframe & Harc).
  destruct (heap w1 !! e) as [E1|] eqn:HE1; [|done].
  simpl. run. eexists. split; [done|]. simpl. split.
  - intros x Hxe Hx. rewrite lookup_insert_ne by done. by apply Hframe.
  - rewrite lookup_insert_eq. simpl. rewrite <- Harc. done.
Qed.

Lemma arc_chain_same h h' p R :
  (∀ x, x ∈ p :: R -> arc_length <$> h' !! x = arc_length <$> h !! x
                       ∧ shape <$> h' !! x = shape <$> h !! x) ->
  arc_chain h p R -> arc_chain h' p R.
Proof.
  revert p. induction R as [|v R IH]; intros p Hsame; simpl; [done|].
  intros [(P & V & HP & HV & Harc) HR]. split.
  - destruct (Hsame p) as [Hap Hsp]; [by left|].
    destruct (Hsame v) as [Hav Hsv]; [right; by left|].
    rewrite HP in Hap, Hsp. rewrite HV in Hav, Hsv.
    destruct (h' !! p) as [P'|], (h' !! v) as [V'|]; simpl in *; try done.
    exists P', V'. split_and!; [done..|].
    simplify_eq. unfold Edge_length in *. congruence.
  - apply IH; [|done]. intros x Hx. apply Hsame. by right.
Qed.

Lemma arc_law_same h h' L :
  (∀ x, x ∈ L -> arc_length <$> h' !! x = arc_length <$> h !! x
                  ∧ shape <$> h' !! x = shape <$> h !! x) ->
  arc_law h L -> arc_law h' L.
Proof.
  destruct L as [|a T]; [done|]. intros Hsame [(A & HA & H0) HT]. split.
  - destruct (Hsame a) as [Ha _]; [by left|]. rewrite HA in Ha.
    destruct (h' !! a) as [A'|]; simpl in *; [|done]. exists A'. split; congruence.
  - by eapply arc_chain_same.
Qed.

Lemma arc_chain_snoc h p R e :
  arc_chain h p (R ++ [e]) ↔
  arc_chain h p R
  ∧ ∃ P V, h !! List.last R p = Some P ∧ h !! e = Some V
           ∧ arc_length V = (arc_length P + Edge_length P)%Q.
Proof.
  revert p. induction R as [|v R IH]; intros p.
  - simpl. tauto.
  - rewrite dlast_cons_cons. simpl. rewrite IH. tauto.
Qed.

Lemma arc_law_snoc h h' L e :
  arc_law h L -> e ∉ L ->
  (∀ x, x ∈ L -> arc_length <$> h' !! x = arc_length <$> h !! x
                  ∧ shape <$> h' !! x = shape <$> h !! x) ->
  (∀ l, olast L = Some l -> is_Some (h !! l)) ->
  arc_length <$> h' !! e
  = Some match olast L with
         | None => 0%Q
         | Some l =>
             match h !! l with
             | Some P => (arc_length P + Edge_length P)%Q
             | None => 0%Q
             end
         end ->
  arc_law h' (L ++ [e]).
Proof.
  intros Hlaw HeL Hsame Hlast Harc.
  pose proof (arc_law_same h h' L Hsame Hlaw) as Hlaw'.
  destruct L as [|a T].
  - simpl in *. destruct (h' !! e) as [V|]; simpl in *; [|done].
    split; [|done]. exists V. split; congruence.
  - destruct Hlaw' as [H0 HT]. split; [done|]. apply arc_chain_snoc. split; [done|].
    rewrite olast_cons in Harc, Hlast.
    destruct (Hlast _ eq_refl) as [P HP]. rewrite HP in Harc.
    destruct (Hsame (List.last T a)) as [Ha Hs]; [apply dlast_elem_of|].
    rewrite HP in Ha, Hs.
    destruct (h' !! List.last T a) as [P'|], (h' !! e) as [V|]; simpl in *; try done.
    exists P', V. split_and!; [done..|]. simplify_eq. unfold Edge_length in *. congruence.
Qed.

Lemma loop_olast_allocated w L l : loop w L -> olast L = Some l -> is_Some (heap w !! l).
Proof.
  intros HL Hl. eapply loop_allocated; [done|]. by apply last_Some_elem_of.
Qed.

Lemma shapes2face_full ss : ∀ w L,
  loop w L -> arc_law (heap w) L ->
  ∃ w' R, shapes2face ss w = Ok w' ∧ loop w' (L ++ R)
    ∧ shapes_of (heap w') R ss
    ∧ (∀ x, x ∈ R -> heap w !! x = None)
    ∧ (∀ x, x ∉ L -> is_Some (heap w !! x) -> heap w' !! x = heap w !! x)
    ∧ (∀ x, is_Some (heap w !! x) ->
         shape <$> heap w' !! x = shape <$> heap w !! x
         ∧ face <$> heap w' !! x = face <$> heap w !! x)
    ∧ arc_law (heap w') (L ++ R)
    ∧ (∀ x, x ∈ R -> face <$> heap w' !! x = Some (Some (self w)))
    ∧ (∀ x, x ∈ edges w' ↔ x ∈ edges w ∨ x ∈ R)
    ∧ _box (this w') = _box (this w)
    ∧ _orientation (this w') = _orientation (this w)
    ∧ self w' = self w.
Proof.
  induction ss as [|s ss IH]; intros w L HL Hlaw.
  - exists w, []. rewrite app_nil_r. split_and!; try done.
    + constructor.
    + intros x Hx. by apply elem_of_nil in Hx.
    + intros x Hx. by apply elem_of_nil in Hx.
    + intros x. rewrite elem_of_nil. tauto.
  - cbn [shapes2face]. pose proof (alloc_Edge_fresh s w) as Hfresh.
    unfold alloc_Edge in *. simpl in Hfresh.
    set (e := fresh (dom (heap w))) in *.
    set (w0 := set_heap (<[e:=new_Edge s]> (heap w)) w).
    assert (e ∉ L) as HeL.
    { intros Hin. apply (loop_allocated _ _ _ HL) in Hin as [E HE]. congruence. }
    assert (∀ x, x ≠ e -> heap w0 !! x = heap w !! x) as Hw0.
    { intros x Hx. subst w0. simpl. by rewrite lookup_insert_ne. }
    assert (heap w0 !! e = Some (new_Edge s)) as He0.
    { subst w0. simpl. by rewrite lookup_insert_eq. }
    assert (loop w0 L) as HL0.
    { eapply loop_ext; [| | | |exact HL]; try done.
      - intros u. unfold fnext. simpl. rewrite lookup_insert. case_decide; [|done].
        subst. by rewrite Hfresh.
      - intros u. unfold fprev. simpl. rewrite lookup_insert. case_decide; [|done].
        subst. by rewrite Hfresh. }
    assert (arc_law (heap w0) L) as Hlaw0.
    { eapply arc_law_same; [|done]. intros x Hx. rewrite Hw0; [done|].
      intros ->. done. }
    destruct (append_spec w0 L e (new_Edge s) HL0 He0 HeL)
      as (w1 & Hrun & HL1 & Hb & Ho & Hself & Hedges & Hs & Harcs & Hfaces & Hface).
    destruct (append_more w0 L e (new_Edge s) HL0 He0 HeL)
      as (w1' & Hrun' & Hframe & Harc).
    rewrite Hrun in Hrun'. injection Hrun' as <-. rewrite Hrun. simpl.
    assert (arc_law (heap w1) (L ++ [e])) as Hlaw1.
    { eapply arc_law_snoc; [exact Hlaw0|done| | |done].
      - intros x Hx. split; [|by rewrite Hs].
        apply Harcs. intros ->. done.
      - intros l Hl. by eapply loop_olast_allocated. }
    destruct (IH w1 (L ++ [e]) HL1 Hlaw1)
      as (w' & R & -> & HL' & Hss & Hnew & Hold & Hkeep & Hlaw' & Hfaces' & Hedges'
          & Hb' & Ho' & Hself').
    exists w', (e :: R). rewrite <- app_assoc in HL', Hlaw'.
    assert (is_Some (heap w1 !! e)) as He1.
    { eapply same_shapes_is_Some; [done|]. rewrite He0. eauto. }
    assert (∀ x, x ∈ R -> x ≠ e) as HRe.
    { intros x Hx ->. apply Hnew in Hx. destruct He1. congruence. }
    assert (∀ x, x ≠ e -> is_Some (heap w !! x) -> is_Some (heap w1 !! x)) as Halloc.
    { intros x Hx Hsome. eapply same_shapes_is_Some; [done|]. by rewrite Hw0. }
    split_and!; try done; try congruence.
    + constructor; [|done]. destruct (Hkeep e He1) as [-> _].
      rewrite Hs, He0. done.
    + intros x [->|Hx]%elem_of_cons; [done|].
      pose proof (Hnew x Hx) as Hn. specialize (Hs x). rewrite Hn in Hs. simpl in Hs.
      rewrite Hw0 in Hs by (by apply HRe).
      by destruct (heap w !! x).
    + intros x HxL Hx. assert (x ≠ e) as Hxe by (intros ->; destruct Hx; congruence).
      rewrite Hold.
      * rewrite Hframe by done. by apply Hw0.
      * rewrite elem_of_app, list_elem_of_singleton. tauto.
      * by apply Halloc.
    + intros x Hx. assert (x ≠ e) as Hxe by (intros ->; destruct Hx; congruence).
      destruct (Hkeep x) as [-> ->]; [by apply Halloc|].
      rewrite Hs, Hfaces by done. by rewrite Hw0.
    + intros x [->|Hx]%elem_of_cons.
      * destruct (Hkeep e He1) as [_ ->]. by rewrite Hface.
      * rewrite Hfaces' by done. by rewrite Hself.
    + intros x. rewrite Hedges', Hedges, elem_of_PlanarSet_add, elem_of_cons.
      subst w0. simpl. tauto.
    + subst w0. simpl in *. congruence.
    + subst w0. simpl in *. congruence.
    + subst w0. simpl in *. congruence.
Qed.

Lemma shapes2face_builds h polygon_edges self0 ss :
  ∃ w' R,
    shapes2face ss (mkWorld h self0 (mkFace None None None None) polygon_edges) = Ok w'
    ∧ builds h polygon_edges self0 ss w' R
    ∧ length R = length ss
    ∧ get_edges (S (length ss)) w' = Ok R.
Proof.
  set (w0 := mkWorld h self0 (mkFace None None None None) polygon_edges).
  destruct (shapes2face_full ss w0 []) as
    (w' & R & Hrun & HL & Hss & Hnew & Hold & Hkeep & Hlaw & Hface & Hedges
     & Hb & Ho & Hself); [by apply loop_nil|done|].
  simpl in *. exists w', R.
  assert (length R = length ss) as Hlen by (by eapply Forall2_length).
  split_and!; try done.
  - unfold builds. split_and!; try done.
    + intros x Hx. split; [by apply Hnew|by apply Hface].
    + intros x Hx. apply Hold; [|done]. by intros ?%elem_of_nil.
  - apply get_edges_loop; [done|lia].
Qed.

Lemma forallb_is_point_not_shapes shapes :
  shapes ≠ [] -> forallb is_segment_or_arc shapes = true ->
  forallb is_point shapes = false.
Proof. destruct shapes as [|[] ?]; simpl; try done. Qed.

Lemma forallb_is_record_not_shapes shapes :
  shapes ≠ [] -> forallb is_record shapes = true ->
  forallb is_point shapes = false ∧ forallb is_segment_or_arc shapes = false
  ∧ forallb has_properties shapes = true.
Proof.
  intros Hne Hrec. split_and!.
  - destruct shapes as [|[] ?]; simpl in *; try done.
  - destruct shapes as [|[] ?]; simpl in *; try done.
  - clear Hne. induction shapes as [|v shapes IH]; [done|].
    simpl in *. apply andb_prop in Hrec as [Hv Hrec]. rewrite IH by done.
    by destruct v.
Qed.

Lemma length_eqb_nonempty {A} (l : list A) : l ≠ [] -> (length l =? 0) = false.
Proof. by destruct l. Qed.

(** X6: from an array of points the constructor builds the face of the
    closed polyline through them: one new edge per point, the [i]-th a
    segment from point [i] to point [(i + 1) mod n], linked in a loop, with
    arc lengths and face references set, added to [polygon.edges]; no edge
    that existed before is touched. *)
Theorem constructor_points fuel polygon_edges h self0 shapes :
  forallb is_point shapes = true ->
  ∃ w' R,
    constructor fuel polygon_edges h self0 (OneArray shapes) = Ok w'
    ∧ builds h polygon_edges self0
        (map SSegment (points2segments (map as_Point shapes))) w' R
    ∧ get_edges (S (length shapes)) w' = Ok R
    ∧ size (S (length shapes)) w' = Ok (length shapes)
    ∧ (∀ i e, R !! i = Some e ->
         ∃ E p q, heap w' !! e = Some E
           ∧ map as_Point shapes !! i = Some p
           ∧ map as_Point shapes !! ((i + 1) mod length shapes) = Some q
           ∧ shape E = SSegment (segment p q)).
Proof.
  intros Hpts.
  destruct (shapes2face_builds h polygon_edges self0
              (map SSegment (points2segments (map as_Point shapes))))
    as (w' & R & Hrun & Hb & Hlen & Hedges).
  pose proof (points2segments_length (map as_Point shapes)) as Hlen2.
  pose proof (points2segments_lookup (map as_Point shapes)) as Hlook.
  rewrite !length_map in Hlen, Hedges, Hlen2, Hlook.
  rewrite Hlen2 in Hlen, Hedges.
  exists w', R. split_and!; [|done|done| |].
  - unfold constructor. destruct shapes as [|v shapes]; [done|].
    rewrite length_eqb_nonempty by done.
    rewrite every_instanceof_Point, Hpts. done.
  - rewrite <- Hlen. apply size_loop; [by destruct Hb|lia].
  - intros i e He. destruct Hb as (_ & Hss & _).
    destruct (Forall2_lookup_l _ _ _ _ _ Hss He) as (s & Hs & HE).
    rewrite list_lookup_fmap in Hs.
    destruct (points2segments (map as_Point shapes) !! i) as [sg|] eqn:Hsg;
      simpl in Hs; [|done].
    destruct (Hlook _ _ Hsg) as [Hp Hq].
    destruct (heap w' !! e) as [E|]; simpl in HE; [|done].
    exists E, (ps sg), (pe sg). split_and!; [done..|].
    simplify_eq. by destruct sg.
Qed.

(** X7: from an array of segments and arcs the constructor builds the face
    of these shapes, in the order of the array. *)
Theorem constructor_shapes fuel polygon_edges h self0 shapes :
  forallb is_segment_or_arc shapes = true ->
  ∃ w' R,
    constructor fuel polygon_edges h self0 (OneArray shapes) = Ok w'
    ∧ builds h polygon_edges self0 (map as_Shape shapes) w' R
    ∧ get_edges (S (length shapes)) w' = Ok R
    ∧ size (S (length shapes)) w' = Ok (length shapes).
Proof.
  intros Hss.
  destruct (shapes2face_builds h polygon_edges self0 (map as_Shape shapes))
    as (w' & R & Hrun & Hb & Hlen & Hedges).
  rewrite !length_map in Hlen, Hedges.
  exists w', R. split_and!; [|done|done|].
  - unfold constructor. destruct shapes as [|v shapes]; [done|].
    rewrite length_eqb_nonempty by done.
    rewrite every_instanceof_Point, forallb_is_point_not_shapes by done. simpl.
    rewrite every_instanceof_Segment_or_Arc, Hss. done.
  - rewrite <- Hlen. apply size_loop; [by destruct Hb|lia].
Qed.

(** X8: from an array of serialized shape records the constructor builds
    the face of the shapes they describe: a segment for a record named
    "segment", an arc for a record named "arc". *)
Theorem constructor_records fuel polygon_edges h self0 shapes :
  forallb is_record shapes = true ->
  ∃ w' R,
    constructor fuel polygon_edges h self0 (OneArray shapes) = Ok w'
    ∧ builds h polygon_edges self0 (map flattenShape shapes) w' R
    ∧ get_edges (S (length shapes)) w' = Ok R
    ∧ (∀ i e, R !! i = Some e ->
         ∃ E name s a, heap w' !! e = Some E
           ∧ shapes !! i = Some (VObject (Some name) s a)
           ∧ (name = "segment"%string ∧ shape E = SSegment s
              ∨ name = "arc"%string ∧ shape E = SArc a)).
Proof.
  intros Hrec.
  destruct (shapes2face_builds h polygon_edges self0 (map flattenShape shapes))
    as (w' & R & Hrun & Hb & Hlen & Hedges).
  rewrite !length_map in Hlen, Hedges.
  exists w', R. split_and!; [|done|done|].
  - unfold constructor. destruct shapes as [|v shapes]; [done|].
    rewrite length_eqb_nonempty by done.
    destruct (forallb_is_record_not_shapes (v :: shapes)) as (Hp & Hs & Hprop);
      [done|done|].
    rewrite every_instanceof_Point, Hp. simpl.
    rewrite every_instanceof_Segment_or_Arc, Hs. simpl.
    rewrite every_name, Hrec by done. done.
  - intros i e He. destruct Hb as (_ & Hss & _).
    destruct (Forall2_lookup_l _ _ _ _ _ Hss He) as (s & Hs & HE).
    rewrite list_lookup_fmap in Hs.
    destruct (shapes !! i) as [v|] eqn:Hv; simpl in Hs; [|done].
    assert (is_record v = true) as Hvrec.
    { rewrite forallb_forall in Hrec. apply Hrec.
      apply list_elem_of_In. by eapply list_elem_of_lookup_2. }
    destruct (heap w' !! e) as [E|]; simpl in HE; [|done].
    destruct v as [| | |[name|] sg a| |]; simpl in Hvrec; try done.
    exists E, name, sg, a. split_and!; [done..|].
    injection Hs as <-. injection HE as ->.
    apply orb_prop in Hvrec as [Hn%bool_decide_eq_true|Hn%bool_decide_eq_true];
      subst name; [left|right]; done.
Qed.

Lemma run_body_add L : ∀ w,
  run_body (fun edge w => Ok (set_edges (PlanarSet_add edge (edges w)) w, false)) L w
  = Ok (set_edges (fold_left (fun s e => PlanarSet_add e s) L (edges w)) w).
Proof.
  induction L as [|e L IH]; intros w; simpl.
  - by destruct w.
  - rewrite IH. done.
Qed.

Lemma elem_of_fold_PlanarSet_add x L : ∀ s,
  x ∈ fold_left (fun s e => PlanarSet_add e s) L s ↔ x ∈ s ∨ x ∈ L.
Proof.
  induction L as [|e L IH]; intros s; simpl.
  - rewrite elem_of_nil. tauto.
  - rewrite IH, elem_of_PlanarSet_add, elem_of_cons. tauto.
Qed.

(** X9: from a face the constructor builds a face on the same edge objects:
    no edge is allocated or written, the new face has the [first] and the
    [last] of the given one and unset caches, and the edges are added to
    [polygon.edges]. *)
Theorem constructor_copy fuel polygon_edges self0 w L :
  loop w L -> length L < fuel ->
  ∃ w', constructor fuel polygon_edges (heap w) self0 (OneFace (this w)) = Ok w'
    ∧ heap w' = heap w
    ∧ first (this w') = first (this w) ∧ last (this w') = last (this w)
    ∧ _box (this w') = None ∧ _orientation (this w') = None
    ∧ loop w' L
    ∧ get_edges fuel w' = Ok L
    ∧ (∀ x, x ∈ edges w' ↔ x ∈ polygon_edges ∨ x ∈ L).
Proof.
  intros HL Hfuel. unfold constructor.
  set (w0 := set_last (last (this w))
               (set_first (first (this w))
                  (mkWorld (heap w) self0 (mkFace None None None None) polygon_edges))).
  assert (loop w0 L) as HL0 by (eapply loop_ext; [| | | |exact HL]; done).
  change (first (this w)) with (first (this w0)) at 2.
  rewrite (for_of_face heap _ w0 L); [|by intros ???? [= <- _]|done|done|done].
  rewrite run_body_add. eexists. split; [done|]. simpl.
  assert (loop (set_edges (fold_left (fun s e => PlanarSet_add e s) L polygon_edges) w0) L)
    as HL1 by (eapply loop_ext; [| | | |exact HL0]; done).
  split_and!; try done.
  - by apply get_edges_loop.
  - intros x. apply elem_of_fold_PlanarSet_add.
Qed.

Lemma get_edges_nseq w a T fuel :
  first (this w) = Some a -> nseq (heap w) a (a :: T) a -> a ∉ T ->
  length (a :: T) < fuel -> get_edges fuel w = Ok (a :: T).
Proof.
  intros Hf Hseq Ha Hfuel. unfold get_edges. rewrite Hf.
  rewrite (for_of_loop (fun a0 : World * list ref => heap (fst a0))
             (fun edge a0 => Ok ((fst a0, snd a0 ++ [edge]), false)) a
             ltac:(by intros ???? [= <- _]) T); try done.
  by rewrite run_body_edges.
Qed.

(** X10: the face built from a face shares its edges with it: an edge
    appended to the copy shows up in the traversal of the original, whose
    [last] is then stale ([last.next] is the new edge, not [first]), so that
    the original is no longer a closed loop from [first] to [last]. *)
Theorem copy_shares_edges fuel polygon_edges self0 w L e E :
  loop w L -> L ≠ [] -> heap w !! e = Some E -> e ∉ L -> S (length L) < fuel ->
  ∃ wc wc',
    constructor fuel polygon_edges (heap w) self0 (OneFace (this w)) = Ok wc
    ∧ append e wc = Ok wc'
    ∧ get_edges fuel wc' = Ok (L ++ [e])
    ∧ get_edges fuel (set_heap (heap wc') w) = Ok (L ++ [e])
    ∧ last (this w) ≫= fnext (heap wc') = Some e
    ∧ (∀ L', ¬ loop (set_heap (heap wc') w) L').
Proof.
  intros HL Hne HE HeL Hfuel.
  set (w0 := set_last (last (this w))
               (set_first (first (this w))
                  (mkWorld (heap w) self0 (mkFace None None None None) polygon_edges))).
  assert (loop w0 L) as HL0 by (eapply loop_ext; [| | | |exact HL]; done).
  assert (∃ wc, constructor fuel polygon_edges (heap w) self0 (OneFace (this w)) = Ok wc
            ∧ heap wc = heap w ∧ loop wc L) as (wc & Hc & Hheap & HLc).
  { unfold constructor. fold w0.
    change (first (this w)) with (first (this w0)).
    rewrite (for_of_face heap _ w0 L); [|by intros ???? [= <- _]|done|done|lia].
    rewrite run_body_add. eexists. split; [done|]. split; [done|].
    eapply loop_ext; [| | | |exact HL0]; done. }
  destruct (append_spec wc L e E HLc) as (wc' & Happ & HL' & _); [by rewrite Hheap|done|].
  exists wc, wc'. split; [done|]. split; [done|].
  destruct L as [|a T]; [done|].
  pose proof (loop_nseq _ _ _ HL') as Hseq.
  pose proof HL' as (Hnd' & _ & _ & Hc').
  pose proof HL as (_ & Hf & Hl & _). simpl in Hf. rewrite olast_cons in Hl.
  assert (a ∉ T ++ [e]) as Ha by (by apply NoDup_cons in Hnd' as [? _]).
  assert (fnext (heap wc') (List.last T a) = Some e) as Hnext.
  { destruct Hc' as [Hpath _]. apply path_snoc in Hpath as [_ [Hn _]]. done. }
  split_and!.
  - apply get_edges_loop; [done|]. simpl. rewrite length_app. simpl in *. lia.
  - apply (get_edges_nseq _ a (T ++ [e])); try done.
    simpl. rewrite length_app. simpl in *. lia.
  - rewrite Hl. done.
  - intros L' HLw. destruct (decide (L' = [])) as [->|Hne'].
    + apply loop_nil in HLw as [Hf' _]. simpl in Hf'. congruence.
    + destruct (loop_circular _ _ HLw Hne') as (_ & _ & _ & _ & _ & Hclosed).
      simpl in Hclosed. rewrite Hl, Hf in Hclosed. simpl in Hclosed.
      rewrite Hnext in Hclosed. simplify_eq. apply HeL. by left.
Qed.

(** X11: from a circle the constructor builds a face of one new edge, the
    arc of the circle, which is its own successor and predecessor, at arc
    length 0. *)
Theorem constructor_circle fuel polygon_edges h self0 c :
  ∃ w' e,
    constructor fuel polygon_edges h self0 (OneCircle c) = Ok w'
    ∧ h !! e = None
    ∧ heap w' = <[e := mkEdge (SArc (Circle_toArc c)) (Some e) (Some e) (Some self0) 0%Q]> h
    ∧ first (this w') = Some e ∧ last (this w') = Some e
    ∧ get_edges 2 w' = Ok [e]
    ∧ edges w' = PlanarSet_add e polygon_edges.
Proof.
  exists (world_of (constructor fuel polygon_edges h self0 (OneCircle c))),
         (fresh (dom h)).
  pose proof (is_fresh (dom h)) as Hfresh. apply not_elem_of_dom in Hfresh.
  assert (constructor fuel polygon_edges h self0 (OneCircle c)
          = Ok (world_of (constructor fuel polygon_edges h self0 (OneCircle c)))) as Hrun.
  { unfold constructor, shapes2face, alloc_Edge, append. simpl. run. done. }
  split; [done|]. split; [done|].
  unfold constructor, shapes2face, alloc_Edge, append in *. simpl in *.
  revert Hrun. run. intros _. simpl.
  split_and!; try done.
  - rewrite !insert_insert_eq. done.
  - unfold get_edges. simpl. unfold iter_next. simpl. run.
    rewrite bool_decide_eq_true_2 by done. done.
Qed.

Lemma setArcLength_closed w2 h L fuel :
  loop w2 L -> (∀ x, x ∉ L -> heap w2 !! x = h !! x) -> same_shapes h (heap w2) ->
  length L < fuel ->
  ∃ w', setArcLength fuel w2 = Ok w'
    ∧ loop w' L
    ∧ get_edges fuel w' = Ok L
    ∧ arc_law (heap w') L
    ∧ (∀ x, x ∈ L -> face <$> heap w' !! x = Some (Some (self w2)))
    ∧ (∀ x, x ∉ L -> heap w' !! x = h !! x)
    ∧ same_shapes h (heap w')
    ∧ edges w' = edges w2.
Proof.
  intros HL2 Hframe Hs Hfuel.
  destruct (setArcLength_spec w2 L fuel HL2 Hfuel)
    as (w' & -> & Hsame & Hout & Hlaw & Hface).
  pose proof (same_loop_loop _ _ _ Hsame HL2) as HL'.
  destruct Hsame as (_ & _ & Hedges' & _ & _ & Hs').
  exists w'. split_and!; try done.
  - by apply get_edges_loop.
  - intros x Hx. rewrite Hout by done. by apply Hframe.
  - intros x. by rewrite Hs', Hs.
Qed.

(** X12: from two edges, the ends of a chain linked by [next] and [prev],
    the constructor closes the chain into the loop of the face and sets the
    arc lengths and the face references; it adds nothing to
    [polygon.edges] and touches no edge off the chain. *)
Theorem constructor_two_edges fuel polygon_edges h self0 e1 e2 T :
  NoDup (e1 :: T) -> path h e1 T -> List.last T e1 = e2 -> is_Some (h !! e1) ->
  length (e1 :: T) < fuel ->
  ∃ w', constructor fuel polygon_edges h self0 (TwoEdges e1 e2) = Ok w'
    ∧ loop w' (e1 :: T)
    ∧ get_edges fuel w' = Ok (e1 :: T)
    ∧ arc_law (heap w') (e1 :: T)
    ∧ (∀ x, x ∈ e1 :: T -> face <$> heap w' !! x = Some (Some self0))
    ∧ (∀ x, x ∉ e1 :: T -> heap w' !! x = h !! x)
    ∧ same_shapes h (heap w')
    ∧ edges w' = polygon_edges.
Proof.
  intros Hnd HT Hlast [E1 HE1] Hfuel.
  assert (is_Some (h !! e2)) as [E2 HE2].
  { destruct T as [|b T]; [simpl in Hlast; subst; eauto|].
    eapply path_allocated; [done|]. rewrite <- Hlast. by apply dlast_in_tail. }
  assert (e2 ∈ e1 :: T) as He2 by (rewrite <- Hlast; apply dlast_elem_of).
  assert (∀ h2 : gmap ref Edge,
    (∀ u, fnext h2 u = if decide (u = e2) then Some e1 else fnext h u) ->
    (∀ u, fprev h2 u = if decide (u = e1) then Some e2 else fprev h u) ->
    cpath h2 (e1 :: T)) as Hcpath.
  { intros h2 Hn Hp. split.
    - eapply path_frame; [done| | |done].
      + intros u _ Hu. rewrite Hn, decide_False; [done|congruence].
      + intros v Hv. rewrite Hp, decide_False; [done|].
        intros ->. by apply NoDup_cons in Hnd as [? _].
    - rewrite Hlast. split; [rewrite Hn|rewrite Hp]; by rewrite decide_True. }
  unfold constructor. simpl.
  destruct (decide (e2 = e1)) as [->|Hne]; run;
    match goal with
    | |- ∃ w', setArcLength fuel ?W = _ ∧ _ =>
        destruct (setArcLength_closed W h (e1 :: T) fuel)
          as (w' & ? & ? & ? & ? & ? & ? & ? & ?);
        [| | |done|exists w'; split_and!; try done;
                    match goal with Hx : arc_law _ _ |- _ => apply Hx end]
    end; try (by fields).
  - unfold loop. simpl. rewrite olast_cons, Hlast.
    split_and!; try done. apply Hcpath; by fields.
  - unfold loop. simpl. rewrite olast_cons, Hlast.
    split_and!; try done. apply Hcpath; by fields.
  - intros x Hx. assert (x ≠ e1) by (intros ->; apply Hx; by left).
    assert (x ≠ e2) by (intros ->; done). by fields.
Qed.

Lemma box_of_box_segments xmin ymin xmax ymax :
  (xmin <= xmax)%Q -> (ymin <= ymax)%Q ->
  ∃ x0 y0 x1 y1,
    box_of (box_segments xmin ymin xmax ymax) = MkBox x0 y0 x1 y1
    ∧ (x0 == xmin)%Q ∧ (y0 == ymin)%Q ∧ (x1 == xmax)%Q ∧ (y1 == ymax)%Q.
Proof.
  intros Hx Hy. unfold box_of, box_segments. simpl.
  eexists _, _, _, _. split; [reflexivity|].
  split_and!; apply Qle_antisym.
  - eapply Qle_trans; [apply Q.le_min_r|apply Q.le_min_l].
  - repeat apply Q.min_glb; lra.
  - eapply Qle_trans; [apply Q.le_min_l|].
    eapply Qle_trans; [apply Q.le_min_l|].
    eapply Qle_trans; [apply Q.le_min_l|apply Q.le_min_l].
  - repeat apply Q.min_glb; lra.
  - repeat apply Q.max_lub; lra.
  - eapply Qle_trans; [|apply Q.le_max_l].
    eapply Qle_trans; [|apply Q.le_max_l].
    eapply Qle_trans; [|apply Q.le_max_r]. apply Q.le_max_l.
  - repeat apply Q.max_lub; lra.
  - eapply Qle_trans; [|apply Q.le_max_r]. apply Q.le_max_l.
Qed.

(** X13: the box of the face built from a box with [xmin <= xmax] and
    [ymin <= ymax] is that box, and it is cached. *)
Theorem constructor_box_round_trip fuel polygon_edges h self0 xmin ymin xmax ymax :
  (xmin <= xmax)%Q -> (ymin <= ymax)%Q ->
  ∃ w' x0 y0 x1 y1 w1,
    constructor fuel polygon_edges h self0 (OneBox xmin ymin xmax ymax) = Ok w'
    ∧ box 5 w' = Ok (MkBox x0 y0 x1 y1, w1)
    ∧ (x0 == xmin)%Q ∧ (y0 == ymin)%Q ∧ (x1 == xmax)%Q ∧ (y1 == ymax)%Q
    ∧ (∀ fuel', box fuel' w1 = Ok (MkBox x0 y0 x1 y1, w1)).
Proof.
  intros Hx Hy.
  destruct (shapes2face_builds h polygon_edges self0 (box_segments xmin ymin xmax ymax))
    as (w' & R & Hrun & (HL & Hss & _ & _ & _ & _ & _ & Hb & _) & Hlen & _).
  destruct (box_of_box_segments xmin ymin xmax ymax Hx Hy)
    as (x0 & y0 & x1 & y1 & Hbox & ? & ? & ? & ?).
  exists w', x0, y0, x1, y1, (set_box (Some (MkBox x0 y0 x1 y1)) w').
  split_and!; try done.
  - rewrite (box_spec w' R _ 5 HL Hss); [|simpl in Hlen; lia].
    by rewrite Hb, Hbox.
Qed.

(** ** More on [append], [insert] and [remove] *)

(** X14: [append] keeps the arc-length law: when it holds on the loop, it
    holds on the loop with the new edge, which becomes [last], refers back
    to the face and has joined [polygon.edges]. *)
Theorem append_keeps_arc_law w L e E fuel :
  loop w L -> arc_law (heap w) L -> heap w !! e = Some E -> e ∉ L ->
  S (length L) < fuel ->
  ∃ w', append e w = Ok w'
    ∧ get_edges fuel w' = Ok (L ++ [e])
    ∧ arc_law (heap w') (L ++ [e])
    ∧ last (this w') = Some e
    ∧ face <$> heap w' !! e = Some (Some (self w))
    ∧ e ∈ edges w'.
Proof.
  intros HL Hlaw HE HeL Hfuel.
  destruct (append_spec w L e E HL HE HeL)
    as (w' & Hrun & HL' & _ & _ & _ & Hedges & Hs & Harcs & _ & Hface).
  destruct (append_more w L e E HL HE HeL) as (w'' & Hrun' & _ & Harc).
  rewrite Hrun in Hrun'. injection Hrun' as <-.
  exists w'. split_and!; try done.
  - apply get_edges_loop; [done|]. rewrite length_app. simpl. lia.
  - eapply arc_law_snoc; [done|done| | |done].
    + intros x Hx. split; [|by rewrite Hs]. apply Harcs. by intros ->.
    + intros l Hl. by eapply loop_olast_allocated.
  - destruct HL' as (_ & _ & -> & _). by rewrite last_snoc.
  - rewrite Hedges, elem_of_PlanarSet_add. tauto.
Qed.

Lemma bind_Ok {A B} (m : result A) (k : A -> result B) b :
  m ≫= k = Ok b -> ∃ a, m = Ok a ∧ k a = Ok b.
Proof. destruct m as [a| |]; simpl; [eauto|done|done]. Qed.

(** The edge objects that [remove] and [insert] may write. *)
Lemma remove_footprint e w w' E :
  heap w !! e = Some E -> remove e w = Ok w' ->
  ∀ x, Some x ≠ prev E -> Some x ≠ next E -> heap w' !! x = heap w !! x.
Proof.
  intros HE Hrun x Hp Hn. unfold remove in Hrun.
  destruct (bool_decide (Some e = first (this w)) && bool_decide (Some e = last (this w))).
  { simpl in Hrun. by simplify_eq. }
  apply bind_Ok in Hrun as (w3 & Hrun & Hw'). injection Hw' as <-. simpl.
  apply bind_Ok in Hrun as (E0 & HE0 & Hrun).
  rewrite (deref_Some _ _ _ HE) in HE0. injection HE0 as <-.
  apply bind_Ok in Hrun as (w1 & Hw1 & Hrun).
  apply assign_inv in Hw1 as (p & P & Hp' & HP & ->).
  apply bind_Ok in Hrun as (E1 & HE1 & Hrun).
  apply deref_inv in HE1 as (? & [= <-] & HE1). simpl in HE1.
  assert (next E1 = next E ∧ prev E1 = prev E) as [HnE1 HpE1].
  { rewrite lookup_insert in HE1. case_decide; simplify_eq; done. }
  apply bind_Ok in Hrun as (w2 & Hw2 & Hrun).
  apply assign_inv in Hw2 as (n & N & Hn' & HN & ->).
  apply bind_Ok in Hrun as (E2 & HE2 & Hrun).
  injection Hrun as <-.
  repeat case_bool_decide; simpl;
    rewrite !lookup_insert_ne by congruence; done.
Qed.

Lemma insert_footprint n b w w' :
  insert n b w = Ok w' ->
  ∀ x, x ≠ n ->
    (first (this w) ≠ None ->
     x ≠ b ∧ ∀ B, heap w !! b = Some B -> Some x ≠ next B) ->
    heap w' !! x = heap w !! x.
Proof.
  intros Hrun x Hxn Hx. unfold insert in Hrun.
  apply bind_Ok in Hrun as (w1 & Hw1 & Hrun).
  assert (heap w1 !! x = heap w !! x) as <-.
  { destruct (first (this w)) as [a|].
    - destruct Hx as [Hxb Hxa]; [done|].
      apply bind_Ok in Hw1 as (B & HB & Hw1).
      apply deref_inv in HB as (? & [= <-] & HB). specialize (Hxa B HB).
      apply bind_Ok in Hw1 as (w2 & Hw2 & Hw1).
      apply assign_inv in Hw2 as (? & ? & [= <-] & _ & ->).
      apply bind_Ok in Hw1 as (w3 & Hw3 & Hw1).
      apply assign_inv in Hw3 as (a' & ? & Ha' & _ & ->).
      apply bind_Ok in Hw1 as (w4 & Hw4 & Hw1).
      apply assign_inv in Hw4 as (? & ? & [= <-] & _ & ->).
      apply bind_Ok in Hw1 as (w5 & Hw5 & Hw1).
      apply assign_inv in Hw5 as (? & ? & [= <-] & _ & ->).
      case_bool_decide; injection Hw1 as <-; simpl;
        rewrite !lookup_insert_ne by congruence; done.
    - apply bind_Ok in Hw1 as (w2 & Hw2 & Hw1).
      apply assign_inv in Hw2 as (? & ? & [= <-] & _ & ->).
      apply bind_Ok in Hw1 as (w3 & Hw3 & Hw1).
      apply assign_inv in Hw3 as (? & ? & [= <-] & _ & ->).
      injection Hw1 as <-. simpl. rewrite !lookup_insert_ne by congruence. done. }
  apply bind_Ok in Hrun as (w2 & Hw2 & Hrun).
  apply assign_inv in Hw2 as (? & ? & [= <-] & _ & ->).
  apply bind_Ok in Hrun as (N & HN & Hrun).
  apply bind_Ok in Hrun as (w3 & Hw3 & Hrun). injection Hrun as <-. simpl.
  case_bool_decide.
  - apply assign_inv in Hw3 as (? & ? & [= <-] & _ & ->). simpl.
    rewrite !lookup_insert_ne by congruence. done.
  - apply bind_Ok in Hw3 as (P & HP & Hw3).
    apply assign_inv in Hw3 as (? & ? & [= <-] & _ & ->). simpl.
    rewrite !lookup_insert_ne by congruence. done.
Qed.

Lemma cpath_neighbours h R x :
  cpath h (R ++ [x]) ->
  fnext h x = Some (hd x R) ∧ fprev h x = Some (List.last R x).
Proof.
  destruct R as [|c T].
  - intros [_ [? ?]]. done.
  - change ((c :: T) ++ [x]) with (c :: T ++ [x]).
    intros [HT [Hxc _]]. rewrite dlast_snoc in Hxc.
    apply path_snoc in HT as [_ [_ Hp]]. rewrite dlast_cons_cons. done.
Qed.

Lemma loop_neighbours w L1 x L2 :
  loop w (L1 ++ x :: L2) ->
  fnext (heap w) x = Some (hd x (L2 ++ L1))
  ∧ fprev (heap w) x = Some (List.last (L2 ++ L1) x).
Proof.
  intros (_ & _ & _ & Hc). apply cpath_neighbours.
  apply cpath_rot1. change (x :: L2 ++ L1) with ((x :: L2) ++ L1).
  by apply cpath_rotate.
Qed.

Lemma hd_elem_of {A} (x : A) R : R ≠ [] -> hd x R ∈ R.
Proof. destruct R; [done|]. intros _. by left. Qed.

Lemma loop_neighbours_in w L x :
  loop w L -> x ∈ L ->
  ∃ E p s, heap w !! x = Some E ∧ prev E = Some p ∧ next E = Some s
    ∧ p ∈ L ∧ s ∈ L ∧ (L ≠ [x] -> p ≠ x ∧ s ≠ x).
Proof.
  intros HL Hx. apply list_elem_of_split in Hx as (L1 & L2 & ->).
  destruct (loop_neighbours _ _ _ _ HL) as [Hn Hp].
  pose proof HL as (Hnd & _).
  apply fnext_Some in Hn as (E & HE & Hn).
  apply fprev_Some in Hp as (E' & HE' & Hp). simplify_eq.
  exists E, (List.last (L2 ++ L1) x), (hd x (L2 ++ L1)).
  assert (∀ u, u ∈ L2 ++ L1 -> u ∈ L1 ++ x :: L2 ∧ u ≠ x) as Hin.
  { intros u Hu. split.
    - revert Hu. rewrite !elem_of_app, elem_of_cons. tauto.
    - intros ->. revert Hu. rewrite elem_of_app. intros [Hu|Hu].
      + by apply (NoDup_split_r _ _ _ Hnd).
      + by apply (NoDup_split_l _ _ _ Hnd). }
  destruct (decide (L2 ++ L1 = [])) as [Hnil|Hne].
  - rewrite Hnil. simpl. apply app_eq_nil in Hnil as [-> ->]. simpl.
    split_and!; try done; by left.
  - split_and!; try done.
    + by apply Hin, dlast_in_tail.
    + by apply Hin, hd_elem_of.
    + intros _. split; [by apply Hin, dlast_in_tail|by apply Hin, hd_elem_of].
Qed.

Lemma loop_links_eq h h' L x :
  NoDup L -> cpath h L -> cpath h' L -> x ∈ L ->
  fnext h' x = fnext h x ∧ fprev h' x = fprev h x.
Proof.
  intros Hnd Hc Hc' Hx. apply list_elem_of_split in Hx as (L1 & L2 & ->).
  assert (∀ g, cpath g (L1 ++ x :: L2) -> cpath g ((L2 ++ L1) ++ [x])) as Hrot.
  { intros g Hg. apply cpath_rot1. change (x :: L2 ++ L1) with ((x :: L2) ++ L1).
    by apply cpath_rotate. }
  destruct (cpath_neighbours _ _ _ (Hrot _ Hc)) as [-> ->].
  destruct (cpath_neighbours _ _ _ (Hrot _ Hc')) as [-> ->]. done.
Qed.

Lemma Edge_eq (E E' : Edge) :
  shape E = shape E' -> next E = next E' -> prev E = prev E' ->
  face E = face E' -> arc_length E = arc_length E' -> E = E'.
Proof. destruct E, E'. simpl. congruence. Qed.

Lemma lookup_Edge_eq (h h' : gmap ref Edge) x :
  shape <$> h' !! x = shape <$> h !! x ->
  fnext h' x = fnext h x -> fprev h' x = fprev h x ->
  face <$> h' !! x = face <$> h !! x ->
  arc_length <$> h' !! x = arc_length <$> h !! x ->
  is_Some (fnext h x) ->
  h' !! x = h !! x.
Proof.
  unfold fnext, fprev. intros Hs Hn Hp Hf Ha [s Hsome].
  destruct (h !! x) as [E|], (h' !! x) as [E'|]; simpl in *; try done.
  f_equal. apply Edge_eq; congruence.
Qed.

Lemma PlanarSet_delete_add n s :
  n ∉ s -> PlanarSet_delete n (PlanarSet_add n s) = s.
Proof.
  intros Hn. unfold PlanarSet_delete, PlanarSet_add.
  rewrite bool_decide_eq_false_2 by done.
  change (remove_list n (s ++ [n]) = s). unfold remove_list.
  rewrite filter_app, filter_cons_False, filter_nil, app_nil_r by naive_solver.
  by apply remove_list_notin.
Qed.

Lemma Face_eq (F F' : Face) :
  first F = first F' -> last F = last F' -> _box F = _box F' ->
  _orientation F = _orientation F' -> F = F'.
Proof. destruct F, F'. simpl. congruence. Qed.

Lemma op_list_remove L n op :
  NoDup L -> n ∉ L -> (op = Append n ∨ ∃ b, b ∈ L ∧ op = Insert n b) ->
  remove_list n (op_list L op) = L ∧ n ∈ op_list L op.
Proof.
  intros Hnd Hn [->|(b & Hb & ->)]; simpl.
  - split; [|rewrite elem_of_app, list_elem_of_singleton; tauto].
    unfold remove_list. rewrite filter_app, filter_cons_False, filter_nil, app_nil_r
      by naive_solver.
    by apply remove_list_notin.
  - unfold insert_list. case_bool_decide.
    + split; [|by left]. unfold remove_list. rewrite filter_cons_False by naive_solver.
      by apply remove_list_notin.
    + apply list_elem_of_split in Hb as (L1 & L2 & ->).
      rewrite put_after_split by by eapply NoDup_split_l.
      split; [|rewrite elem_of_app, !elem_of_cons; tauto].
      replace (L1 ++ b :: n :: L2) with ((L1 ++ [b]) ++ n :: L2)
        by (by rewrite <- app_assoc).
      rewrite remove_list_split.
      * by rewrite <- app_assoc.
      * rewrite <- app_assoc. simpl. revert Hnd.
        rewrite <- !Permutation_middle. intros Hnd.
        rewrite (Permutation_swap n b). apply NoDup_cons. split; [|done].
        intros Hin. apply Hn. revert Hin.
        rewrite elem_of_cons, !elem_of_app, elem_of_cons. tauto.
Qed.

Lemma remove_list_length e (L : list ref) : length (remove_list e L) <= length L.
Proof. unfold remove_list. apply length_filter. Qed.

(** X15: [insert] puts the new edge right after [edgeBefore] when that is
    not the last edge: the traversal gains it at that place, [first] and
    [last] stay, and its arc length continues the one of [edgeBefore]. *)
Theorem insert_between w L1 b L2 n N B fuel :
  loop w (L1 ++ b :: L2) -> L2 ≠ [] -> heap w !! n = Some N ->
  n ∉ L1 ++ b :: L2 -> heap w !! b = Some B -> S (length (L1 ++ b :: L2)) < fuel ->
  ∃ w', insert n b w = Ok w'
    ∧ get_edges fuel w' = Ok (L1 ++ b :: n :: L2)
    ∧ first (this w') = first (this w) ∧ last (this w') = last (this w)
    ∧ fprev (heap w') n = Some b ∧ fnext (heap w') n = head L2
    ∧ fnext (heap w') b = Some n
    ∧ arc_length <$> heap w' !! n = Some (arc_length B + Edge_length B)%Q
    ∧ face <$> heap w' !! n = Some (Some (self w))
    ∧ n ∈ edges w'.
Proof.
  intros HL HL2 HN HnL HB Hfuel. pose proof HL as (Hnd & Hf & Hl & _).
  assert (b ∈ L1 ++ b :: L2) as Hb by (rewrite elem_of_app, elem_of_cons; tauto).
  destruct (insert_spec w _ n b N HL Hb HN HnL)
    as (w' & Hrun & HL' & _ & _ & _ & Hedges & _ & _ & _ & Hface & Harc).
  specialize (Harc B HB).
  assert (olast (L1 ++ b :: L2) ≠ Some b) as Hlast by (by rewrite olast_split).
  unfold insert_list in HL'. rewrite bool_decide_eq_false_2 in HL', Harc by done.
  rewrite put_after_split in HL' by (by eapply NoDup_split_l).
  pose proof HL' as (_ & Hf' & Hl' & _).
  assert (loop w' ((L1 ++ [b]) ++ n :: L2)) as HLn by (by rewrite <- app_assoc).
  destruct (loop_neighbours _ _ _ _ HLn) as [Hnext Hprev].
  exists w'. split_and!; try done.
  - apply get_edges_loop; [done|]. rewrite length_app in *. simpl in *. lia.
  - rewrite Hf', Hf. by destruct L1.
  - rewrite Hl', Hl. destruct L2 as [|c L2]; [done|].
    by rewrite !last_app_cons, !last_cons_cons.
  - rewrite Hprev. destruct L2 as [|c L2]; [done|]. f_equal.
    rewrite app_assoc. apply dlast_snoc.
  - rewrite Hnext. by destruct L2.
  - destruct (loop_neighbours _ _ _ _ HL') as [Hnb _]. rewrite Hnb. done.
  - rewrite Hedges, elem_of_PlanarSet_add. tauto.
Qed.

(** X16: inserting after the last edge is not appending: the links are the
    same, but the new edge becomes [first] at arc length 0 and [last] stays,
    where [append] makes it [last] at the arc length that continues the
    loop. *)
Theorem insert_after_last w L b n N fuel :
  loop w L -> olast L = Some b -> heap w !! n = Some N -> n ∉ L ->
  S (length L) < fuel ->
  ∃ wi wa, insert n b w = Ok wi ∧ append n w = Ok wa
    ∧ get_edges fuel wi = Ok (n :: L) ∧ get_edges fuel wa = Ok (L ++ [n])
    ∧ first (this wi) = Some n ∧ last (this wi) = Some b
    ∧ first (this wa) = first (this w) ∧ last (this wa) = Some n
    ∧ (∀ x, fnext (heap wi) x = fnext (heap wa) x
            ∧ fprev (heap wi) x = fprev (heap wa) x)
    ∧ arc_length <$> heap wi !! n = Some 0%Q
    ∧ (∀ B, heap w !! b = Some B ->
         arc_length <$> heap wa !! n = Some (arc_length B + Edge_length B)%Q).
Proof.
  intros HL Hb HN HnL Hfuel.
  assert (b ∈ L) as HbL by (by apply last_Some_elem_of).
  destruct (loop_neighbours_in w L b HL HbL) as (B & p & s & HB & _ & Hs & _ & HsL & _).
  destruct (insert_spec w L n b N HL HbL HN HnL)
    as (wi & Hruni & HLi & _ & _ & _ & _ & _ & _ & _ & _ & Harci).
  destruct (append_spec w L n N HL HN HnL) as (wa & Hruna & HLa & _).
  destruct (append_more w L n N HL HN HnL) as (wa' & Hruna' & Hframe & Harca).
  rewrite Hruna in Hruna'. injection Hruna' as <-.
  unfold insert_list in HLi. rewrite bool_decide_eq_true_2 in HLi by done.
  specialize (Harci B HB). rewrite bool_decide_eq_true_2 in Harci by done.
  rewrite Hb, HB in Harca.
  pose proof HLi as (Hndi & Hfi & Hli & Hci).
  pose proof HLa as (Hnda & Hfa & Hla & Hca).
  pose proof HL as (_ & Hf & _).
  exists wi, wa. split_and!; try done.
  - apply get_edges_loop; [done|simpl; lia].
  - apply get_edges_loop; [done|]. rewrite length_app. simpl. lia.
  - rewrite Hli. by rewrite last_cons, Hb.
  - rewrite Hfa, Hf. by destruct L.
  - rewrite Hla. by rewrite last_snoc.
  - intros x. destruct (decide (x ∈ n :: L)) as [Hx|Hx].
    + apply (loop_links_eq _ _ (n :: L)); [done| |done|done].
      by apply cpath_rot1.
    + assert (heap wi !! x = heap w !! x) as Hi.
      { eapply insert_footprint; [done| |].
        - intros ->. apply Hx. by left.
        - intros _. split.
          + intros ->. apply Hx. by right.
          + intros B' HB' Hnext. simplify_eq. rewrite Hs in Hnext. simplify_eq.
            apply Hx. by right. }
      assert (heap wa !! x = heap w !! x) as Ha.
      { apply Hframe.
        - intros ->. apply Hx. by left.
        - intros ?. apply Hx. by right. }
      unfold fnext, fprev. by rewrite Hi, Ha.
  - intros B' HB'. by simplify_eq.
Qed.

(** X17: on an empty face [insert] is [append]: [edgeBefore] is not looked
    at. *)
Theorem insert_empty_is_append w n b :
  isEmpty w = true -> is_Some (heap w !! n) -> insert n b w = append n w.
Proof.
  unfold isEmpty. intros [Hf%bool_decide_eq_true _]%andb_prop [N HN].
  unfold insert, append. rewrite Hf. run.
  rewrite bool_decide_eq_true_2 by done. run.
  rewrite !insert_insert_eq. done.
Qed.

(** X18: [remove] relinks the two neighbours and leaves the removed edge as
    it was: it keeps its [next], [prev], [face] and [arc_length]; the edges
    outside the face are untouched and the edge leaves [polygon.edges]. *)
Theorem remove_keeps_edge w L e :
  loop w L -> e ∈ L ->
  ∃ w', remove e w = Ok w'
    ∧ heap w' !! e = heap w !! e
    ∧ (∀ x, x ∉ L -> heap w' !! x = heap w !! x)
    ∧ (∀ fuel, length L < fuel -> get_edges fuel w' = Ok (remove_list e L))
    ∧ e ∉ edges w'.
Proof.
  intros HL He.
  destruct (remove_spec w L e HL He) as (w' & Hrun & HL' & _ & _ & _ & Hedges & _).
  destruct (loop_neighbours_in w L e HL He)
    as (E & p & s & HE & Hp & Hs & HpL & HsL & Hne).
  exists w'. split_and!; try done.
  - destruct (decide (L = [e])) as [->|Hsole].
    + pose proof HL as (_ & Hf & Hl & _). simpl in Hf, Hl.
      unfold remove in Hrun. rewrite Hf, Hl in Hrun.
      rewrite !bool_decide_eq_true_2 in Hrun by done. simpl in Hrun.
      by simplify_eq.
    + destruct (Hne Hsole) as [Hpe Hse].
      eapply remove_footprint; [done|done| |]; congruence.
  - intros x Hx. eapply remove_footprint; [done|done| |].
    + rewrite Hp. by intros [= ->].
    + rewrite Hs. by intros [= ->].
  - intros fuel Hfuel. apply get_edges_loop; [done|].
    pose proof (remove_list_length e L). lia.
  - rewrite Hedges, elem_of_PlanarSet_delete. tauto.
Qed.

(** X19: adding an edge with [append] or [insert] and removing it again
    gives back the face and the store: [first], [last] and both caches are
    as before, every edge object but the one added is as before, and so is
    [polygon.edges] when it did not hold the edge. *)
Theorem add_remove_round_trip w L n N op :
  loop w L -> heap w !! n = Some N -> n ∉ L ->
  op = Append n ∨ (∃ b, b ∈ L ∧ op = Insert n b) ->
  ∃ w1 w2, run_op op w = Ok w1 ∧ remove n w1 = Ok w2
    ∧ this w2 = this w
    ∧ (∀ x, x ≠ n -> heap w2 !! x = heap w !! x)
    ∧ (∀ fuel, length L < fuel -> get_edges fuel w2 = Ok L)
    ∧ (n ∉ edges w -> edges w2 = edges w).
Proof.
  intros HL HN HnL Hop.
  pose proof HL as (Hnd & Hf & Hl & Hc).
  destruct (op_list_remove L n op Hnd HnL Hop) as [Hback Hin].
  assert (op_ok (heap w) L op) as Hok.
  { destruct Hop as [->|(b & Hb & ->)]; simpl; eauto. }
  assert (∃ w1, run_op op w = Ok w1 ∧ loop w1 (op_list L op)
            ∧ _box (this w1) = _box (this w)
            ∧ _orientation (this w1) = _orientation (this w)
            ∧ edges w1 = PlanarSet_add n (edges w)
            ∧ same_shapes (heap w) (heap w1)
            ∧ (∀ x, x ≠ n -> arc_length <$> heap w1 !! x = arc_length <$> heap w !! x)
            ∧ (∀ x, x ≠ n -> face <$> heap w1 !! x = face <$> heap w !! x)
            ∧ (∀ x, x ≠ n -> x ∉ L -> heap w1 !! x = heap w !! x))
    as (w1 & Hrun1 & HL1 & Hb1 & Ho1 & He1 & Hs1 & Ha1 & Hf1 & Hout1).
  { destruct Hop as [->|(b & Hb & ->)]; simpl.
    - destruct (append_spec w L n N HL HN HnL)
        as (w1 & Hrun & ? & ? & ? & ? & ? & ? & ? & ? & ?).
      destruct (append_more w L n N HL HN HnL) as (w1' & Hrun' & Hframe & _).
      rewrite Hrun in Hrun'. injection Hrun' as <-.
      exists w1. split_and!; done.
    - destruct (insert_spec w L n b N HL Hb HN HnL)
        as (w1 & Hrun & ? & ? & ? & ? & ? & ? & ? & ? & ? & ?).
      exists w1. split_and!; try done.
      intros x Hxn HxL. eapply insert_footprint; [done|done|].
      intros _. split; [by intros ->|].
      intros B HB Hnext.
      destruct (loop_neighbours_in w L b HL Hb) as (B' & p & s & HB' & _ & Hs & _ & HsL & _).
      simplify_eq. rewrite Hs in Hnext. by simplify_eq. }
  destruct (remove_spec w1 (op_list L op) n HL1 Hin)
    as (w2 & Hrun2 & HL2 & Hb2 & Ho2 & _ & He2 & Hs2 & Ha2 & Hf2).
  rewrite Hback in HL2.
  pose proof HL2 as (_ & Hf' & Hl' & Hc').
  exists w1, w2. split_and!; try done.
  - apply Face_eq; congruence.
  - intros x Hxn. destruct (decide (x ∈ L)) as [HxL|HxL].
    + destruct (loop_links_eq (heap w) (heap w2) L x Hnd Hc Hc' HxL) as [Hn Hp].
      apply lookup_Edge_eq; try done.
      * by rewrite Hs2, Hs1.
      * by rewrite Hf2, Hf1.
      * by rewrite Ha2, Ha1.
      * destruct (loop_neighbours_in w L x HL HxL) as (E & p & s & HE & _ & Hs & _).
        unfold fnext. rewrite HE. simpl. rewrite Hs. eauto.
    + rewrite <- Hout1 by done.
      destruct (loop_neighbours_in w1 _ n HL1 Hin)
        as (N1 & p & s & HN1 & Hp & Hs & HpL & HsL & _).
      eapply remove_footprint; [done|done| |].
      * rewrite Hp. intros [= ->].
        assert (p ∈ remove_list n (op_list L op)) as Hp'
          by (apply list_elem_of_filter; done).
        by rewrite Hback in Hp'.
      * rewrite Hs. intros [= ->].
        assert (s ∈ remove_list n (op_list L op)) as Hs'
          by (apply list_elem_of_filter; done).
        by rewrite Hback in Hs'.
  - intros fuel Hfuel. by apply get_edges_loop.
  - intros Hne. rewrite He2, He1. by apply PlanarSet_delete_add.
Qed.

Lemma remove_all_spec P : ∀ w L,
  loop w L -> NoDup P -> (∀ e, e ∈ P -> e ∈ L) ->
  ∃ w', run_ops (map Remove P) w = Ok w'
    ∧ loop w' (filter (fun x => x ∉ P) L)
    ∧ (∀ x, x ∈ edges w' ↔ x ∈ edges w ∧ x ∉ P).
Proof.
  induction P as [|e P IH]; intros w L HL Hnd Hsub; simpl.
  - exists w. split_and!; [done| |].
    + replace (filter (fun x => x ∉ []) L) with L; [done|].
      clear. induction L as [|x L IHL]; [done|].
      rewrite filter_cons_True by (by intros ?%elem_of_nil). by rewrite <- IHL.
    + intros x. rewrite elem_of_nil. tauto.
  - apply NoDup_cons in Hnd as [He Hnd].
    destruct (remove_spec w L e HL) as (w1 & -> & HL1 & _ & _ & _ & Hedges & _).
    { apply Hsub. by left. }
    simpl. destruct (IH w1 (remove_list e L) HL1 Hnd) as (w' & -> & HL' & Hin).
    { intros x Hx. apply list_elem_of_filter. split; [by intros ->|].
      apply Hsub. by right. }
    exists w'. split_and!; [done| |].
    + unfold remove_list in HL'. rewrite list_filter_filter in HL'.
      erewrite list_filter_iff; [exact HL'|].
      intros x. simpl. rewrite elem_of_cons. tauto.
    + intros x. rewrite Hin, Hedges, elem_of_PlanarSet_delete, elem_of_cons. tauto.
Qed.

(** X20: removing the edges of a face one by one, in any order, ends with
    an empty face of size 0, none of whose former edges is left in
    [polygon.edges]; the face is not empty before the last removal. *)
Theorem remove_all_empties w L P :
  loop w L -> P ≡ₚ L ->
  ∃ w', run_ops (map Remove P) w = Ok w'
    ∧ isEmpty w' = true
    ∧ size 1 w' = Ok 0
    ∧ (∀ e, e ∈ L -> e ∉ edges w')
    ∧ (∀ P1 e P2, P = P1 ++ e :: P2 ->
         ∃ w1, run_ops (map Remove P1) w = Ok w1 ∧ isEmpty w1 = false).
Proof.
  intros HL Hperm. pose proof HL as (Hnd & _).
  assert (NoDup P) as HndP by (by rewrite Hperm).
  destruct (remove_all_spec P w L HL HndP) as (w' & Hr & HL' & Hin).
  { intros e. by rewrite Hperm. }
  assert (filter (fun x => x ∉ P) L = []) as Hnil.
  { destruct (filter (fun x => x ∉ P) L) as [|x F] eqn:HF; [done|].
    assert (x ∈ filter (fun x => x ∉ P) L) as Hx by (rewrite HF; by left).
    apply list_elem_of_filter in Hx as [Hx1 Hx2]. destruct Hx1. by rewrite Hperm. }
  rewrite Hnil in HL'. exists w'. split_and!; [done| | | |].
  - apply loop_nil in HL' as [Hf Hl]. unfold isEmpty. by rewrite Hf, Hl.
  - apply (size_loop w' []); [done|simpl; lia].
  - intros e He. rewrite Hin. intros [_ HeP]. apply HeP. by rewrite Hperm.
  - intros P1 e P2 ->.
    apply NoDup_app in HndP as (Hnd1 & Hdisj & Hnd2).
    destruct (remove_all_spec P1 w L HL Hnd1) as (w1 & Hr1 & HL1 & _).
    { intros x Hx. rewrite <- Hperm, elem_of_app. tauto. }
    exists w1. split; [done|].
    assert (e ∈ filter (fun x => x ∉ P1) L) as He.
    { apply list_elem_of_filter. split.
      - intros He1. apply (Hdisj e He1). by left.
      - rewrite <- Hperm, elem_of_app, elem_of_cons. tauto. }
    destruct (filter (fun x => x ∉ P1) L) as [|a T]; [by apply elem_of_nil in He|].
    apply loop_cons in HL1 as (_ & Hf & _). unfold isEmpty. by rewrite Hf.
Qed.

(** X21: on a non-empty face [insert] after an edge that has no [next]
    raises a TypeError, and so does [remove] of an edge that has no [prev]
    unless it is both [first] and [last]. *)
Theorem unlinked_edge_raises w n b e B E :
  (first (this w) ≠ None -> heap w !! b = Some B -> next B = None ->
   insert n b w = TypeError)
  ∧ (heap w !! e = Some E -> prev E = None ->
     ¬ (first (this w) = Some e ∧ last (this w) = Some e) ->
     remove e w = TypeError).
Proof.
  split.
  - intros Hf HB Hn. unfold insert. destruct (first (this w)); [|done].
    run. rewrite Hn. reflexivity.
  - intros HE Hp Hsole. unfold remove.
    destruct (bool_decide (Some e = first (this w))
              && bool_decide (Some e = last (this w))) eqn:Hc.
    + apply andb_prop in Hc as [?%bool_decide_eq_true ?%bool_decide_eq_true].
      destruct Hsole. done.
    + run. rewrite ?Hp. reflexivity.
Qed.

(** ** More on [setArcLength], the caches and [reverse] *)

Lemma arc_chain_unique h h' R : ∀ p,
  arc_chain h p R -> arc_chain h' p R ->
  (∀ x, x ∈ p :: R -> shape <$> h' !! x = shape <$> h !! x) ->
  arc_length <$> h' !! p = arc_length <$> h !! p ->
  ∀ x, x ∈ R -> arc_length <$> h' !! x = arc_length <$> h !! x.
Proof.
  induction R as [|v R IH]; intros p Hc Hc' Hs Hp x Hx.
  { by apply elem_of_nil in Hx. }
  destruct Hc as [(P & V & HP & HV & Ha) Hc].
  destruct Hc' as [(P' & V' & HP' & HV' & Ha') Hc'].
  assert (arc_length <$> h' !! v = arc_length <$> h !! v) as Hv.
  { pose proof (Hs p) as Hsp. rewrite HP, HP' in Hp, Hsp. rewrite HV, HV'. simpl in *.
    specialize (Hsp ltac:(by left)). simplify_eq. unfold Edge_length in *.
    f_equal. congruence. }
  apply elem_of_cons in Hx as [->|Hx]; [done|].
  apply (IH v); try done. intros y Hy. apply Hs. by right.
Qed.

Lemma arc_law_unique h h' L :
  arc_law h L -> arc_law h' L ->
  (∀ x, x ∈ L -> shape <$> h' !! x = shape <$> h !! x) ->
  ∀ x, x ∈ L -> arc_length <$> h' !! x = arc_length <$> h !! x.
Proof.
  destruct L as [|a T]; intros Hl Hl' Hs x Hx.
  { by apply elem_of_nil in Hx. }
  destruct Hl as [(A & HA & H0) Hc]. destruct Hl' as [(A' & HA' & H0') Hc'].
  assert (arc_length <$> h' !! a = arc_length <$> h !! a) as Ha.
  { rewrite HA, HA'. simpl. congruence. }
  apply elem_of_cons in Hx as [->|Hx]; [done|].
  by apply (arc_chain_unique h h' T a).
Qed.

Lemma World_eq (w w' : World) :
  heap w = heap w' -> self w = self w' -> this w = this w' -> edges w = edges w' ->
  w = w'.
Proof. destruct w, w'. simpl. congruence. Qed.

(** X22: [setArcLength] is idempotent: run on its own result it changes
    nothing. *)
Theorem setArcLength_idempotent w L fuel :
  loop w L -> length L < fuel ->
  ∃ w1, setArcLength fuel w = Ok w1 ∧ setArcLength fuel w1 = Ok w1.
Proof.
  intros HL Hfuel.
  destruct (setArcLength_spec w L fuel HL Hfuel)
    as (w1 & Hrun1 & Hsame1 & Hout1 & Hlaw1 & Hface1).
  pose proof (same_loop_loop _ _ _ Hsame1 HL) as HL1.
  destruct (setArcLength_spec w1 L fuel HL1 Hfuel)
    as (w2 & Hrun2 & Hsame2 & Hout2 & Hlaw2 & Hface2).
  exists w1. split; [done|]. rewrite Hrun2. f_equal.
  destruct Hsame1 as (_ & Hself1 & _).
  destruct Hsame2 as (Hthis & Hself & Hedges & Hn & Hp & Hs).
  apply World_eq; try done. apply map_eq. intros x.
  destruct (decide (x ∈ L)) as [Hx|Hx]; [|by apply Hout2].
  apply lookup_Edge_eq; try done.
  - by rewrite Hface1, Hface2, Hself1.
  - apply (arc_law_unique _ _ L); try done.
  - destruct (loop_neighbours_in w1 L x HL1 Hx) as (E & p & s & HE & _ & Hs' & _).
    unfold fnext. rewrite HE. simpl. rewrite Hs'. eauto.
Qed.

(** X23: the box cache is never invalidated: once [box] has been read, it
    returns the same box after any sequence of [append], [insert] and
    [remove], without iterating (for any fuel). *)
Theorem box_cache_kept w L fuel ops :
  loop w L -> length L < fuel -> ops_ok (heap w) L ops ->
  ∃ b w1 w2, box fuel w = Ok (b, w1)
    ∧ run_ops ops w1 = Ok w2
    ∧ loop w2 (fold_left op_list ops L)
    ∧ (∀ fuel', box fuel' w2 = Ok (b, w2)).
Proof.
  intros HL Hfuel Hok. destruct (loop_shapes _ _ HL) as [ss Hss].
  pose proof (box_spec w L ss fuel HL Hss Hfuel) as Hbox.
  assert (∃ b w1, box fuel w = Ok (b, w1) ∧ heap w1 = heap w ∧ loop w1 L
            ∧ _box (this w1) = Some b) as (b & w1 & Hrun & Hheap & HL1 & Hb).
  { destruct (_box (this w)) as [b|] eqn:Hb.
    - exists b, w. by split_and!.
    - exists (box_of ss), (set_box (Some (box_of ss)) w). by split_and!. }
  destruct (run_ops_spec ops w1 L (heap w) HL1 Hok)
    as (w2 & Hops & HL2 & Hb2 & _); [by rewrite Hheap|].
  exists b, w1, w2. split_and!; try done.
  intros fuel'. unfold box. by rewrite Hb2, Hb.
Qed.

Lemma reverse_relink_more R : ∀ w P,
  loop w P -> arc_law (heap w) P -> (∀ x, x ∈ R -> is_Some (heap w !! x)) ->
  NoDup R -> (∀ x, x ∈ R -> x ∉ P) ->
  ∃ w', reverse_relink R w = Ok w'
    ∧ arc_law (heap w') (P ++ R)
    ∧ (∀ x, x ∉ P -> x ∉ R -> heap w' !! x = heap w !! x).
Proof.
  induction R as [|e R IH]; intros w P HL Hlaw Halloc Hnd Hdisj.
  - exists w. rewrite app_nil_r. by split_and!.
  - rewrite reverse_relink_link_last.
    destruct (Halloc e) as [E HE]; [by left|].
    apply NoDup_cons in Hnd as [He Hnd].
    assert (e ∉ P) as HeP by (apply Hdisj; by left).
    destruct (link_last_spec w P e E HL HE HeP) as
      (w1 & Hrun & HL1 & _ & _ & _ & _ & Hs & Harcs & _).
    destruct (link_last_more w P e E HL HE HeP) as (w1' & Hrun' & Hframe & Harc).
    rewrite Hrun in Hrun'. injection Hrun' as <-. rewrite Hrun. simpl.
    assert (arc_law (heap w1) (P ++ [e])) as Hlaw1.
    { eapply arc_law_snoc; [exact Hlaw|done| | |done].
      - intros x Hx. split; [|by rewrite Hs]. apply Harcs. by intros ->.
      - intros l Hl. by eapply loop_olast_allocated. }
    destruct (IH w1 (P ++ [e]) HL1 Hlaw1) as (w' & -> & Hlaw' & Hframe'); try done.
    { intros x Hx. eapply same_shapes_is_Some; [done|]. apply Halloc. by right. }
    { intros x Hx. rewrite elem_of_app, list_elem_of_singleton.
      intros [?| ->]; [|done]. eapply Hdisj; [|done]. by right. }
    exists w'. rewrite <- app_assoc in Hlaw'. split_and!; try done.
    intros x HxP HxR. rewrite Hframe'.
    + apply Hframe; [|done]. intros ->. apply HxR. by left.
    + rewrite elem_of_app, list_elem_of_singleton. intros [?| ->]; [done|].
      apply HxR. by left.
    + intros ?. apply HxR. by right.
Qed.

Lemma box_heap fuel w b w' :
  box fuel w = Ok (b, w') -> heap w' = heap w.
Proof.
  unfold box. destruct (_box (this w)); [by intros [= _ <-]|].
  intros (b' & _ & [= _ <-])%bind_Ok. done.
Qed.

Lemma signedArea_heap fuel w a w' :
  signedArea fuel w = Ok (a, w') -> heap w' = heap w.
Proof.
  unfold signedArea. intros ([b w1] & Hb%box_heap & Hrun)%bind_Ok.
  apply bind_Ok in Hrun as (? & _ & [= _ <-]). done.
Qed.

Lemma orientation_heap fuel w o w' :
  orientation fuel w = Ok (o, w') -> heap w' = heap w.
Proof.
  unfold orientation. destruct (_orientation (this w)); [by intros [= _ <-]|].
  intros ([a w1] & Ha%signedArea_heap & [= _ <-])%bind_Ok. done.
Qed.

(** X24: [reverse] re-establishes the arc-length law on the reversed loop,
    whatever the arc lengths were; it changes no face reference, touches no
    edge outside the face and leaves [polygon.edges] alone. *)
Theorem reverse_arc_law w L fuel :
  loop w L -> L ≠ [] -> length L < fuel ->
  ∃ w', reverse fuel w = Ok w'
    ∧ get_edges fuel w' = Ok (rev L)
    ∧ arc_law (heap w') (rev L)
    ∧ (∀ x, face <$> heap w' !! x = face <$> heap w !! x)
    ∧ (∀ x, x ∉ L -> heap w' !! x = heap w !! x)
    ∧ edges w' = edges w.
Proof.
  intros HL Hne Hfuel.
  destruct (reverse_spec w L fuel HL Hne Hfuel)
    as (w' & ss' & Hrun & HL' & _ & _ & _ & _ & _ & Hedges).
  exists w'. split; [done|].
  assert (length (rev L) = length L) as Hlen by apply length_rev.
  split; [apply get_edges_loop; [done|lia]|].
  destruct L as [|a T]; [done|].
  pose proof (fun x => loop_allocated w (a :: T) x HL) as Halloc.
  pose proof HL as (Hnd & Hf & Hl & HT & Hla & Hal)%loop_cons.
  pose proof (path_pseq _ _ _ _ HT Hal) as Hseq.
  assert (NoDup (rev (a :: T))) as Hnd' by by rewrite <- Permutation_rev.
  assert (∀ x, x ∈ rev (a :: T) ↔ x ∈ a :: T) as Hin.
  { intros x. rewrite !list_elem_of_In. symmetry. apply in_rev. }
  unfold reverse in Hrun. rewrite Hl in Hrun.
  destruct (rev (a :: T)) as [|l R] eqn:Hrev; [by destruct T|].
  pose proof Hseq as [Heq _]. rewrite Heq in *. clear Heq.
  destruct (reverse_collect_spec (l :: R) fuel l [] w l)
    as (w1 & Hcol & Ht & Hself & Hedges1 & Hn & Hp & Hr); try done.
  { simpl. by apply NoDup_cons in Hnd' as [? _]. }
  { simpl in *. lia. }
  rewrite Hcol in Hrun. simpl in Hrun.
  apply bind_Ok in Hrun as (w3 & Hrel & Hrun).
  destruct (reverse_relink_more (l :: R) (set_last None (set_first None w1)) [])
    as (w3' & Hrel' & Hlaw & Hframe); try done.
  { by apply loop_nil. }
  { intros x Hx. simpl. rewrite Hr. apply Hin, Halloc in Hx as [E ->]. simpl. eauto. }
  { intros x _ Hx. by apply elem_of_nil in Hx. }
  rewrite Hrel in Hrel'. injection Hrel' as <-.
  destruct (reverse_relink_spec (l :: R) (set_last None (set_first None w1)) [])
    as (w3' & Hrel' & _ & _ & _ & _ & _ & _ & Hface); try done.
  { by apply loop_nil. }
  { intros x Hx. simpl. rewrite Hr. apply Hin, Halloc in Hx as [E ->]. simpl. eauto. }
  { intros x _ Hx. by apply elem_of_nil in Hx. }
  rewrite Hrel in Hrel'. injection Hrel' as <-.
  assert (heap w' = heap w3) as Hheap.
  { destruct (_orientation (this w3)); [|by injection Hrun as <-].
    apply bind_Ok in Hrun as ([o' w4] & Ho%orientation_heap & [= <-]). done. }
  rewrite Hheap. split_and!; [exact Hlaw| | |done].
  - intros x. rewrite Hface. simpl. rewrite Hr.
    destruct (heap w !! x); simpl; [by case_bool_decide|done].
  - intros x Hx. rewrite Hframe; simpl.
    + rewrite Hr. rewrite bool_decide_eq_false_2 by (by rewrite Hin).
      by destruct (heap w !! x).
    + by intros ?%elem_of_nil.
    + by rewrite Hin.
Qed.

(** X27: [isSimple] is true exactly when [getSelfIntersections] finds no
    point, and with [exitOnFirst] the scan returns the first point of the
    full list, if any. *)
Theorem isSimple_iff_no_intersection w L fuel :
  loop w L -> candidates_allocated w L -> length L < fuel ->
  ∃ pts, getSelfIntersections fuel w false = Ok pts
    ∧ getSelfIntersections fuel w true = Ok (firstn 1 pts)
    ∧ isSimple fuel w = Ok (bool_decide (pts = [])).
Proof.
  intros HL Hcand Hfuel.
  exists (flat_map snd (items (heap w) (edges w) L)).
  assert (∀ x, getSelfIntersections fuel w x
               = Ok (collected x (flat_map snd (items (heap w) (edges w) L)))) as Hget.
  { intros x. unfold getSelfIntersections.
    by rewrite (getSelfIntersections_scan_spec w L x fuel). }
  split_and!; [apply Hget|apply Hget|].
  unfold isSimple. rewrite Hget. simpl.
  by destruct (flat_map snd (items (heap w) (edges w) L)).
Qed.

(** ** Serialization *)

Section Serialize.
Context {Json : Type}.
Variable Edge_toJSON : Edge -> Json.
Variable Edge_svg : Edge -> string.
Variable Number_toString : Q -> string.

Lemma cells_of_exists h L :
  (∀ x, x ∈ L -> is_Some (h !! x)) -> ∃ cells, cells_of h L cells.
Proof.
  induction L as [|x L IH]; intros Ha.
  - exists []. constructor.
  - destruct IH as [cells Hc]; [intros; apply Ha; by right|].
    destruct (Ha x) as [E HE]; [by left|].
    exists (E :: cells). by constructor.
Qed.

Lemma run_body_cells {B} w (g : B -> Edge -> B) L : ∀ cells b0,
  cells_of (heap w) L cells ->
  run_body (fun edge (a : World * B) =>
              E ← deref (heap (fst a)) (Some edge);
              Ok ((fst a, g (snd a) E), false)) L (w, b0)
  = Ok (w, fold_left g cells b0).
Proof.
  induction L as [|x L IH]; intros cells b0 Hc.
  - by apply Forall2_nil_inv_l in Hc as ->.
  - apply Forall2_cons_inv_l in Hc as (E & cells' & HE & Hc & ->).
    cbn [run_body]. simpl. run. by rewrite (IH cells').
Qed.

Lemma map_edges_cells {B} (g : Edge -> B) h L cells :
  cells_of h L cells -> map_edges g h L = Ok (map g cells).
Proof.
  intros Hc. induction Hc as [|x E L cells HE Hc IH]; [done|].
  simpl. run. by rewrite IH.
Qed.

(** X28: on an empty face [svg] raises a TypeError (it reads the start of
    the missing first edge) and [toJSON] returns the empty array; on a
    non-empty loop [toJSON] has the record of every edge in traversal order
    and [svg] is the start point of the first edge, the paths of the edges
    in traversal order, and the closing [z]. *)
Theorem svg_toJSON_traversal w :
  (isEmpty w = true ->
     (∀ fuel, svg Edge_svg Number_toString fuel w = TypeError)
     ∧ (∀ fuel, toJSON Edge_toJSON (S fuel) w = Ok []))
  ∧ (∀ L fuel, loop w L -> L ≠ [] -> length L < fuel ->
       ∃ F cells, head cells = Some F ∧ cells_of (heap w) L cells
         ∧ toJSON Edge_toJSON fuel w = Ok (map Edge_toJSON cells)
         ∧ svg Edge_svg Number_toString fuel w
           = Ok (fold_left (fun s E => s ++ Edge_svg E) cells
                   (String "010"%char "M" ++ Number_toString (x (Edge_start F)) ++ ","
                    ++ Number_toString (y (Edge_start F)))
                 ++ " z")%string).
Proof.
  split.
  - unfold isEmpty. intros [Hf%bool_decide_eq_true _]%andb_prop. split.
    + intros fuel. unfold svg. by rewrite Hf.
    + intros fuel. unfold toJSON, get_edges. by rewrite Hf.
  - intros L fuel HL Hne Hfuel.
    destruct (cells_of_exists (heap w) L) as [cells Hc].
    { intros x. by apply loop_allocated. }
    destruct L as [|a T]; [done|].
    pose proof Hc as Hc'.
    apply Forall2_cons_inv_l in Hc' as (F & cells' & HF & _ & ->).
    exists F, (F :: cells'). split_and!; [done|done| |].
    + unfold toJSON. rewrite (get_edges_loop w (a :: T)) by done.
      by apply (map_edges_cells Edge_toJSON (heap w) (a :: T) (F :: cells')).
    + unfold svg. pose proof HL as (_ & Hf & _). simpl in Hf. rewrite Hf.
      rewrite (deref_Some _ _ _ HF). simpl. rewrite <- Hf.
      rewrite (for_of_face _ _ w (a :: T)); try done.
      * rewrite (run_body_cells w (fun s E => (s ++ Edge_svg E)%string)
                   (a :: T) (F :: cells')) by done. done.
      * intros v acc acc' brk Hb u. destruct (deref _ _); simpl in Hb; by simplify_eq.
Qed.

End Serialize.

End Store.

(** ** The worked examples *)

Lemma unit_square_loop : loop unit_square [1; 2; 3; 4]%positive.
Proof. apply (bool_decide_unpack _). vm_compute. exact I. Defined.

Lemma bowtie_loop : loop bowtie [1; 2; 3; 4]%positive.
Proof. apply (bool_decide_unpack _). vm_compute. exact I. Defined.

Lemma two_edges_loop : loop two_edges [1; 2]%positive.
Proof. apply (bool_decide_unpack _). vm_compute. exact I. Defined.

Lemma three_edges_loop : loop three_edges [].
Proof. apply (bool_decide_unpack _). vm_compute. exact I. Defined.

Lemma circular_invariant_witness :
  ∃ w', @run_ops segments_only
          [Append 1; Append 2; Insert 3 1; Remove 2]%positive three_edges = Ok w'
    ∧ loop w' [1; 3]%positive
    ∧ (isEmpty w' = false ->
       ∃ n, (∀ fuel, n < fuel -> size fuel w' = Ok n)
         ∧ is_Some (first (this w'))
         ∧ follow (heap w') n (first (this w')) = first (this w')
         ∧ (∀ k, 0 < k < n -> follow (heap w') k (first (this w')) ≠ first (this w'))
         ∧ first (this w') ≫= fprev (heap w') = last (this w')
         ∧ last (this w') ≫= fnext (heap w') = first (this w')).
Proof.
  apply (@circular_invariant segments_only three_edges []
           [Append 1; Append 2; Insert 3 1; Remove 2]%positive).
  - exact three_edges_loop.
  - apply (bool_decide_unpack _). vm_compute. exact I.
Defined.

Lemma setArcLength_law_witness :
  ∃ w', @setArcLength segments_only 5 unit_square = Ok w'
    ∧ get_edges 5 w' = Ok [1; 2; 3; 4]%positive
    ∧ (∃ e0 E0, head [1; 2; 3; 4]%positive = Some e0 ∧ first (this w') = Some e0
                ∧ heap w' !! e0 = Some E0 ∧ arc_length E0 = 0%Q)
    ∧ (∀ i ei ej, [1; 2; 3; 4]%positive !! i = Some ei ->
                  [1; 2; 3; 4]%positive !! S i = Some ej ->
         ∃ Ei Ej, heap w' !! ei = Some Ei ∧ heap w' !! ej = Some Ej
                  ∧ arc_length Ej = (arc_length Ei + @Edge_length segments_only Ei)%Q)
    ∧ (∀ e, e ∈ [1; 2; 3; 4]%positive ->
         ∃ E, heap w' !! e = Some E ∧ face E = Some (self w')).
Proof.
  apply (@setArcLength_law segments_only unit_square [1; 2; 3; 4]%positive 5).
  - exact unit_square_loop.
  - discriminate.
  - simpl. lia.
Defined.

Lemma orientation_classifies_witness :
  ∃ o w', @orientation segments_only 5 unit_square = Ok (o, w')
    ∧ _orientation (this w') = Some o
    ∧ ∀ fuel', @orientation segments_only fuel' w' = Ok (o, w').
Proof.
  destruct (@orientation_classifies segments_only unit_square
              [1; 2; 3; 4]%positive 5) as (_ & _ & _ & Hc & _).
  - vm_compute. discriminate.
  - exact unit_square_loop.
  - simpl. lia.
  - exact Hc.
Defined.

Lemma constructor_box_witness :
  ∃ w', @constructor segments_only 1 [] ∅ 1%positive (OneBox 0 0 1 1) = Ok w'
    ∧ size 5 w' = Ok 4
    ∧ fst <$> @orientation segments_only 5 w' = Ok CCW.
Proof.
  destruct (@constructor_box segments_only 1 [] ∅ 1%positive 0 0 1 1)
    as (w' & e1 & e2 & e3 & e4 & Hrun & _ & Hsize & _ & _ & Ho).
  exists w'. split_and!; [exact Hrun|exact Hsize|]. apply Ho. vm_compute. reflexivity.
Defined.

(** C4, as stated, fails: the face built from the box of the unit square has
    four edges and [orientation()] returns CCW on it, not CW. *)
Lemma constructor_box_not_clockwise :
  ∃ w', @constructor segments_only 1 [] ∅ 1%positive (OneBox 0 0 1 1) = Ok w'
    ∧ size 5 w' = Ok 4
    ∧ fst <$> @orientation segments_only 5 w' = Ok CCW
    ∧ fst <$> @orientation segments_only 5 w' ≠ Ok CW.
Proof.
  exists unit_square. split_and!; [vm_compute; reflexivity..|].
  vm_compute. discriminate.
Qed.

Lemma bowtie_candidates : @candidates_allocated segments_only bowtie [1; 2; 3; 4]%positive.
Proof. apply candidates_allocatedb_true. vm_compute. reflexivity. Defined.

Lemma getSelfIntersections_points_witness :
  @getSelfIntersections segments_only 5 bowtie false
  = Ok [point (1 # 2) (1 # 2); point (1 # 2) (1 # 2)]
  ∧ @getSelfIntersections segments_only 5 bowtie true = Ok [point (1 # 2) (1 # 2)].
Proof.
  destruct (@getSelfIntersections_points segments_only bowtie
              [1; 2; 3; 4]%positive false 5) as (Hf & _).
  { exact bowtie_loop. } { exact bowtie_candidates. } { simpl. lia. }
  destruct (@getSelfIntersections_points segments_only bowtie
              [1; 2; 3; 4]%positive true 5) as (Ht & _).
  { exact bowtie_loop. } { exact bowtie_candidates. } { simpl. lia. }
  split.
  - rewrite Hf. vm_compute. reflexivity.
  - rewrite Ht. vm_compute. reflexivity.
Defined.

Lemma curl_loop : loop curl [1; 2; 3; 4]%positive.
Proof. apply (bool_decide_unpack _). vm_compute. exact I. Defined.

Lemma curl_candidates :
  @candidates_allocated three_quarter_arcs curl [1; 2; 3; 4]%positive.
Proof. apply candidates_allocatedb_true. vm_compute. reflexivity. Defined.

Lemma getSelfIntersections_pairs_witness :
  @getSelfIntersections_scan three_quarter_arcs 5 curl false
  = Ok ([point 1 0; point 1 0],
        [(1, 2); (2, 1); (2, 3); (2, 4); (3, 2); (4, 2)]%positive)
  ∧ @getSelfIntersections_scan three_quarter_arcs 5 curl true
    = Ok ([point 1 0], [(1, 2)]%positive).
Proof.
  destruct (@getSelfIntersections_pairs three_quarter_arcs curl
              [1; 2; 3; 4]%positive false 5)
    as (calls & Hf & Hc & _).
  { exact curl_loop. } { exact curl_candidates. } { simpl. lia. }
  destruct (@getSelfIntersections_pairs three_quarter_arcs curl
              [1; 2; 3; 4]%positive true 5)
    as (calls' & Ht & Hc' & _).
  { exact curl_loop. } { exact curl_candidates. } { simpl. lia. }
  split.
  - rewrite Hf, Hc. vm_compute. reflexivity.
  - rewrite Ht, Hc'. vm_compute. reflexivity.
Defined.

Lemma reverse_reverse_witness :
  ∃ w1 w2, @reverse segments_only 5 unit_square = Ok w1
    ∧ @reverse segments_only 5 w1 = Ok w2
    ∧ get_edges 5 w1 = Ok [4; 3; 2; 1]%positive
    ∧ get_edges 5 w2 = Ok [1; 2; 3; 4]%positive
    ∧ (∀ e, shape <$> heap w2 !! e = shape <$> heap unit_square !! e).
Proof.
  destruct (@reverse_reverse segments_only unit_square [1; 2; 3; 4]%positive 5)
    as (w1 & w2 & H1 & H2 & _ & He1 & He2 & _ & _ & _ & Hs).
  { exact unit_square_loop. } { discriminate. } { simpl. lia. }
  exists w1, w2. split_and!; [exact H1|exact H2|exact He1|exact He2|exact Hs].
Defined.

Lemma insert_arc_length_frame_witness :
  ∃ w', @insert segments_only 3%positive 1%positive two_edges = Ok w'
    ∧ (∀ e, e ≠ 3%positive ->
         arc_length <$> heap w' !! e = arc_length <$> heap two_edges !! e)
    ∧ arc_length <$> heap w' !! 3%positive = Some 1%Q.
Proof.
  destruct (@insert_arc_length_frame segments_only two_edges [1; 2]%positive
              3%positive 1%positive
              (new_Edge (SSegment (segment (point 1 1) (point 0 0)))))
    as (w' & Hrun & Hframe & Hnew).
  { exact two_edges_loop. }
  { apply (bool_decide_unpack _). vm_compute. exact I. }
  { vm_compute. reflexivity. }
  { apply (bool_decide_unpack _). vm_compute. exact I. }
  exists w'. split_and!; [exact Hrun|exact Hframe|].
  refine (eq_trans
    (Hnew (mkEdge (SSegment (segment (point 0 0) (point 1 0)))
             (Some 2%positive) (Some 2%positive) (Some 1%positive) 0%Q) _) _).
  - vm_compute. reflexivity.
  - vm_compute. reflexivity.
Defined.

(** After that insertion the edge downstream of the new one is stale: the
    arc-length law no longer holds along the loop. *)
Lemma insert_leaves_downstream_stale :
  ∃ w', @insert segments_only 3%positive 1%positive two_edges = Ok w'
    ∧ get_edges 4 w' = Ok [1; 3; 2]%positive
    ∧ ¬ @arc_law segments_only (heap w') [1; 3; 2]%positive.
Proof.
  eexists. split; [vm_compute; reflexivity|]. split; [vm_compute; reflexivity|].
  intros (_ & _ & (P & V & HP & HV & Harc) & _).
  vm_compute in HP, HV. simplify_eq; vm_compute in Harc; discriminate.
Qed.

Lemma constructor_unrecognized_witness :
  ∃ w', @constructor segments_only 1 [] ∅ 1%positive
          (OneArray [VPoint (point 0 0);
                     VSegment (segment (point 0 0) (point 1 0))]) = Ok w'
    ∧ isEmpty w' = true ∧ size 1 w' = Ok 0.
Proof.
  destruct (@constructor_unrecognized segments_only 1 [] ∅ 1%positive
              [VPoint (point 0 0); VSegment (segment (point 0 0) (point 1 0))])
    as (w' & Hrun & Hempty & Hsize & _); try (vm_compute; reflexivity).
  { discriminate. }
  exists w'. split_and!; [exact Hrun|exact Hempty|exact Hsize].
Defined.

(** C9, as stated, fails: an array that holds [null] is not all points, not
    all segments or arcs and not all recognized records, and the constructor
    raises a TypeError on it when it reads [shape.name]. *)
Lemma constructor_null_raises :
  [VNull] ≠ []
  ∧ forallb is_point [VNull] = false
  ∧ forallb is_segment_or_arc [VNull] = false
  ∧ forallb is_record [VNull] = false
  ∧ @constructor segments_only 1 [] ∅ 1%positive (OneArray [VNull]) = TypeError.
Proof. split_and!; [discriminate|reflexivity..]. Qed.

Lemma reverse_nonempty_witness :
  (∀ fuel, @reverse segments_only (S fuel) three_edges = TypeError)
  ∧ (∀ fuel, @reverse segments_only fuel unit_square ≠ TypeError)
  ∧ ∃ w', @reverse segments_only 5 unit_square = Ok w'.
Proof.
  destruct (@reverse_nonempty segments_only three_edges) as [Hempty _].
  destruct (@reverse_nonempty segments_only unit_square) as [_ Hloop].
  destruct (Hloop [1; 2; 3; 4]%positive unit_square_loop) as [Hnever Hret].
  { discriminate. }
  split_and!.
  - apply Hempty. reflexivity.
  - exact Hnever.
  - apply Hret. simpl. lia.
Defined.

(** ** Worked examples of the further properties *)

Lemma edges_returns_iff_witness :
  get_edges 5 unit_square = Ok [1; 2; 3; 4]%positive.
Proof.
  apply (edges_returns_iff unit_square 1%positive 5 [1; 2; 3; 4]%positive).
  - reflexivity.
  - split_and!.
    + simpl. lia.
    + simpl. lia.
    + intros k Hk. simpl in Hk.
      do 4 (destruct k as [|k]; [vm_compute; reflexivity|]). lia.
    + vm_compute. reflexivity.
    + intros k Hk. simpl in Hk.
      destruct k as [|[|[|[|k]]]]; try lia; vm_compute; discriminate.
Defined.

Lemma traversal_never_ends_witness :
  (∀ fuel, get_edges fuel open_chain = OutOfFuel)
  ∧ (∀ fuel, size fuel open_chain = OutOfFuel).
Proof.
  apply forall_and_distr.
  apply (traversal_never_ends open_chain 1%positive).
  - reflexivity.
  - apply (bool_decide_unpack _). vm_compute. exact I.
  - vm_compute. eauto.
  - intros n Hn. destruct n as [|[|n]]; [lia|vm_compute; discriminate|].
    change (follow (heap open_chain) (S (S n)) (Some 1%positive))
      with (follow (heap open_chain) n
              ((Some 1%positive ≫= fnext (heap open_chain)) ≫= fnext (heap open_chain))).
    replace ((Some 1%positive ≫= fnext (heap open_chain)) ≫= fnext (heap open_chain))
      with (@None ref) by (vm_compute; reflexivity).
    rewrite follow_None. discriminate.
Defined.

Lemma empty_face_reads_witness :
  get_edges 1 three_edges = Ok []
  ∧ size 1 three_edges = Ok 0
  ∧ @isSimple segments_only 1 three_edges = Ok true
  ∧ fst <$> @area segments_only 1 three_edges = Ok 0%Q
  ∧ fst <$> @orientation segments_only 1 three_edges = Ok NOT_ORIENTABLE.
Proof.
  destruct (@empty_face_reads segments_only three_edges 0)
    as (He & Hs & _ & _ & Hsimple & Hbox); [reflexivity|].
  destruct Hbox as (_ & _ & Harea & Ho); [reflexivity|].
  split_and!; [exact He|exact Hs|exact Hsimple|exact Harea|].
  apply Ho; [reflexivity|]. vm_compute. reflexivity.
Defined.

Lemma constructor_points_witness :
  ∃ w' R, @constructor segments_only 1 [] ∅ 1%positive (OneArray triangle) = Ok w'
    ∧ get_edges 4 w' = Ok R
    ∧ size 4 w' = Ok 3
    ∧ @shapes_of (heap w') R
        [SSegment (segment (point 0 0) (point 1 0));
         SSegment (segment (point 1 0) (point 0 1));
         SSegment (segment (point 0 1) (point 0 0))].
Proof.
  destruct (@constructor_points segments_only 1 [] ∅ 1%positive triangle)
    as (w' & R & Hrun & (_ & Hss & _) & Hedges & Hsize & _); [reflexivity|].
  exists w', R. split_and!; [exact Hrun|exact Hedges|exact Hsize|exact Hss].
Defined.

Lemma constructor_shapes_witness :
  ∃ w' R, @constructor segments_only 1 [] ∅ 1%positive
            (OneArray [VSegment (segment (point 0 0) (point 1 1));
                       VSegment (segment (point 1 1) (point 0 0))]) = Ok w'
    ∧ get_edges 3 w' = Ok R
    ∧ @arc_law segments_only (heap w') R
    ∧ (∀ x, x ∈ edges w' ↔ x ∈ [] ∨ x ∈ R).
Proof.
  destruct (@constructor_shapes segments_only 1 [] ∅ 1%positive
              [VSegment (segment (point 0 0) (point 1 1));
               VSegment (segment (point 1 1) (point 0 0))])
    as (w' & R & Hrun & (_ & _ & Hlaw & _ & _ & Hin & _) & Hedges & _); [reflexivity|].
  exists w', R. split_and!; [exact Hrun|exact Hedges|exact Hlaw|exact Hin].
Defined.

Lemma constructor_records_witness :
  ∃ w' R, @constructor segments_only 1 [] ∅ 1%positive (OneArray records) = Ok w'
    ∧ get_edges 3 w' = Ok R
    ∧ @shapes_of (heap w') R
        [SSegment (segment (point 0 0) (point 1 0));
         SArc (mkArc (point 0 0) 1 0 1 true)].
Proof.
  destruct (@constructor_records segments_only 1 [] ∅ 1%positive records)
    as (w' & R & Hrun & (_ & Hss & _) & Hedges & _); [reflexivity|].
  exists w', R. split_and!; [exact Hrun|exact Hedges|exact Hss].
Defined.

Lemma constructor_copy_witness :
  ∃ w', @constructor segments_only 5 [] (heap unit_square) 2%positive
          (OneFace (this unit_square)) = Ok w'
    ∧ heap w' = heap unit_square
    ∧ get_edges 5 w' = Ok [1; 2; 3; 4]%positive
    ∧ (∀ x, x ∈ edges w' ↔ x ∈ [] ∨ x ∈ [1; 2; 3; 4]%positive).
Proof.
  destruct (@constructor_copy segments_only 5 [] 2%positive unit_square
              [1; 2; 3; 4]%positive)
    as (w' & Hrun & Hheap & _ & _ & _ & _ & _ & Hedges & Hin).
  { exact unit_square_loop. } { simpl. lia. }
  exists w'. split_and!; [exact Hrun|exact Hheap|exact Hedges|exact Hin].
Defined.

Lemma copy_shares_edges_witness :
  ∃ wc wc',
    @constructor segments_only 4 [] (heap two_edges) 2%positive
      (OneFace (this two_edges)) = Ok wc
    ∧ @append segments_only 3%positive wc = Ok wc'
    ∧ get_edges 4 (set_heap (heap wc') two_edges) = Ok [1; 2; 3]%positive
    ∧ (∀ L', ¬ loop (set_heap (heap wc') two_edges) L').
Proof.
  destruct (@copy_shares_edges segments_only 4 [] 2%positive two_edges
              [1; 2]%positive 3%positive
              (new_Edge (SSegment (segment (point 1 1) (point 0 0)))))
    as (wc & wc' & Hc & Ha & _ & Hedges & _ & Hbroken).
  { exact two_edges_loop. } { discriminate. } { vm_compute. reflexivity. }
  { apply (bool_decide_unpack _). vm_compute. exact I. } { simpl. lia. }
  exists wc, wc'. split_and!; [exact Hc|exact Ha|exact Hedges|exact Hbroken].
Defined.

Lemma constructor_two_edges_witness :
  ∃ w', @constructor segments_only 3 [] (heap two_edges) 2%positive
          (TwoEdges 1%positive 2%positive) = Ok w'
    ∧ loop w' [1; 2]%positive
    ∧ @arc_law segments_only (heap w') [1; 2]%positive
    ∧ edges w' = [].
Proof.
  destruct (@constructor_two_edges segments_only 3 [] (heap two_edges) 2%positive
              1%positive 2%positive [2%positive])
    as (w' & Hrun & HL & _ & Hlaw & _ & _ & _ & Hedges).
  { apply (bool_decide_unpack _). vm_compute. exact I. }
  { apply (bool_decide_unpack _). vm_compute. exact I. }
  { reflexivity. } { vm_compute. eauto. } { simpl. lia. }
  exists w'. split_and!; [exact Hrun|exact HL|exact Hlaw|exact Hedges].
Defined.

Lemma constructor_box_round_trip_witness :
  ∃ w' x0 y0 x1 y1 w1,
    @constructor segments_only 1 [] ∅ 1%positive (OneBox 0 0 2 1) = Ok w'
    ∧ @box segments_only 5 w' = Ok (MkBox x0 y0 x1 y1, w1)
    ∧ (x0 == 0)%Q ∧ (y0 == 0)%Q ∧ (x1 == 2)%Q ∧ (y1 == 1)%Q.
Proof.
  destruct (@constructor_box_round_trip segments_only 1 [] ∅ 1%positive 0 0 2 1)
    as (w' & x0 & y0 & x1 & y1 & w1 & Hrun & Hbox & ? & ? & ? & ? & _).
  { vm_compute. discriminate. } { vm_compute. discriminate. }
  exists w', x0, y0, x1, y1, w1. by split_and!.
Defined.

Lemma two_edges_arc_law : @arc_law segments_only (heap two_edges) [1; 2]%positive.
Proof.
  split.
  - eexists. split; [vm_compute; reflexivity|reflexivity].
  - split; [|exact I]. eexists _, _.
    split_and!; [vm_compute; reflexivity|vm_compute; reflexivity|].
    vm_compute. reflexivity.
Defined.

Lemma append_keeps_arc_law_witness :
  ∃ w', @append segments_only 3%positive two_edges = Ok w'
    ∧ get_edges 4 w' = Ok [1; 2; 3]%positive
    ∧ @arc_law segments_only (heap w') [1; 2; 3]%positive
    ∧ last (this w') = Some 3%positive.
Proof.
  destruct (@append_keeps_arc_law segments_only two_edges [1; 2]%positive 3%positive
              (new_Edge (SSegment (segment (point 1 1) (point 0 0)))) 4)
    as (w' & Hrun & Hedges & Hlaw & Hlast & _).
  { exact two_edges_loop. } { exact two_edges_arc_law. } { vm_compute. reflexivity. }
  { apply (bool_decide_unpack _). vm_compute. exact I. } { simpl. lia. }
  exists w'. split_and!; [exact Hrun|exact Hedges|exact Hlaw|exact Hlast].
Defined.

Lemma insert_between_witness :
  ∃ w', @insert segments_only 3%positive 1%positive two_edges = Ok w'
    ∧ get_edges 5 w' = Ok [1; 3; 2]%positive
    ∧ last (this w') = last (this two_edges).
Proof.
  destruct (@insert_between segments_only two_edges [] 1%positive [2]%positive
              3%positive (new_Edge (SSegment (segment (point 1 1) (point 0 0))))
              (default (new_Edge (SSegment (segment (point 0 0) (point 0 0))))
                 (heap two_edges !! 1%positive)) 5)
    as (w' & Hrun & Hedges & _ & Hlast & _).
  { exact two_edges_loop. } { discriminate. } { vm_compute. reflexivity. }
  { apply (bool_decide_unpack _). vm_compute. exact I. }
  { vm_compute. reflexivity. } { simpl. lia. }
  exists w'. split_and!; [exact Hrun|exact Hedges|exact Hlast].
Defined.

Lemma insert_after_last_witness :
  ∃ wi wa, @insert segments_only 3%positive 2%positive two_edges = Ok wi
    ∧ @append segments_only 3%positive two_edges = Ok wa
    ∧ get_edges 4 wi = Ok [3; 1; 2]%positive
    ∧ get_edges 4 wa = Ok [1; 2; 3]%positive
    ∧ arc_length <$> heap wi !! 3%positive = Some 0%Q.
Proof.
  destruct (@insert_after_last segments_only two_edges [1; 2]%positive 2%positive
              3%positive (new_Edge (SSegment (segment (point 1 1) (point 0 0)))) 4)
    as (wi & wa & Hi & Ha & Hei & Hea & _ & _ & _ & _ & _ & Harc & _).
  { exact two_edges_loop. } { reflexivity. } { vm_compute. reflexivity. }
  { apply (bool_decide_unpack _). vm_compute. exact I. } { simpl. lia. }
  exists wi, wa. split_and!; [exact Hi|exact Ha|exact Hei|exact Hea|exact Harc].
Defined.

Lemma insert_empty_is_append_witness :
  @insert segments_only 1%positive 2%positive three_edges
  = @append segments_only 1%positive three_edges.
Proof.
  apply (@insert_empty_is_append segments_only three_edges 1%positive 2%positive).
  - reflexivity.
  - vm_compute. eauto.
Defined.

Lemma remove_keeps_edge_witness :
  ∃ w', remove 2%positive unit_square = Ok w'
    ∧ heap w' !! 2%positive = heap unit_square !! 2%positive
    ∧ get_edges 5 w' = Ok [1; 3; 4]%positive
    ∧ 2%positive ∉ edges w'.
Proof.
  destruct (remove_keeps_edge unit_square [1; 2; 3; 4]%positive 2%positive)
    as (w' & Hrun & Hkeep & _ & Hedges & Hout).
  { exact unit_square_loop. } { apply (bool_decide_unpack _). vm_compute. exact I. }
  exists w'. split_and!; [exact Hrun|exact Hkeep| |exact Hout].
  apply (Hedges 5). simpl. lia.
Defined.

Lemma add_remove_round_trip_witness :
  ∃ w1 w2, @insert segments_only 3%positive 1%positive two_edges = Ok w1
    ∧ remove 3%positive w1 = Ok w2
    ∧ this w2 = this two_edges
    ∧ (∀ x, x ≠ 3%positive -> heap w2 !! x = heap two_edges !! x)
    ∧ edges w2 = edges two_edges.
Proof.
  destruct (@add_remove_round_trip segments_only two_edges [1; 2]%positive 3%positive
              (new_Edge (SSegment (segment (point 1 1) (point 0 0))))
              (Insert 3%positive 1%positive))
    as (w1 & w2 & H1 & H2 & Hthis & Hheap & _ & Hedges).
  { exact two_edges_loop. } { vm_compute. reflexivity. }
  { apply (bool_decide_unpack _). vm_compute. exact I. }
  { right. exists 1%positive. split; [|reflexivity].
    apply (bool_decide_unpack _). vm_compute. exact I. }
  exists w1, w2. split_and!; [exact H1|exact H2|exact Hthis|exact Hheap|].
  apply Hedges. apply (bool_decide_unpack _). vm_compute. exact I.
Defined.

Lemma unlinked_edge_raises_witness :
  @insert segments_only 1%positive 3%positive two_edges = TypeError
  ∧ remove 3%positive two_edges = TypeError.
Proof.
  destruct (@unlinked_edge_raises segments_only two_edges 1%positive 3%positive
              3%positive
              (new_Edge (SSegment (segment (point 1 1) (point 0 0))))
              (new_Edge (SSegment (segment (point 1 1) (point 0 0)))))
    as [Hi Hr].
  split.
  - apply Hi; [vm_compute; discriminate|vm_compute; reflexivity|reflexivity].
  - apply Hr; [vm_compute; reflexivity|reflexivity|].
    vm_compute. intros [? _]. discriminate.
Defined.

Lemma setArcLength_idempotent_witness :
  ∃ w1, @setArcLength segments_only 5 unit_square = Ok w1
    ∧ @setArcLength segments_only 5 w1 = Ok w1.
Proof.
  apply (@setArcLength_idempotent segments_only unit_square [1; 2; 3; 4]%positive 5).
  - exact unit_square_loop.
  - simpl. lia.
Defined.

Lemma box_cache_kept_witness :
  ∃ b w1 w2, @box segments_only 3 two_edges = Ok (b, w1)
    ∧ @run_ops segments_only [Append 3%positive] w1 = Ok w2
    ∧ loop w2 [1; 2; 3]%positive
    ∧ (∀ fuel', @box segments_only fuel' w2 = Ok (b, w2)).
Proof.
  apply (@box_cache_kept segments_only two_edges [1; 2]%positive 3 [Append 3%positive]).
  - exact two_edges_loop.
  - simpl. lia.
  - apply (bool_decide_unpack _). vm_compute. exact I.
Defined.

Lemma reverse_arc_law_witness :
  ∃ w', @reverse segments_only 5 unit_square = Ok w'
    ∧ get_edges 5 w' = Ok [4; 3; 2; 1]%positive
    ∧ @arc_law segments_only (heap w') [4; 3; 2; 1]%positive.
Proof.
  destruct (@reverse_arc_law segments_only unit_square [1; 2; 3; 4]%positive 5)
    as (w' & Hrun & Hedges & Hlaw & _).
  { exact unit_square_loop. } { discriminate. } { simpl. lia. }
  exists w'. split_and!; [exact Hrun|exact Hedges|exact Hlaw].
Defined.

Lemma remove_all_empties_witness :
  ∃ w', @run_ops segments_only [Remove 2%positive; Remove 1%positive] two_edges = Ok w'
    ∧ isEmpty w' = true
    ∧ size 1 w' = Ok 0.
Proof.
  destruct (@remove_all_empties segments_only two_edges [1; 2]%positive [2; 1]%positive)
    as (w' & Hrun & Hempty & Hsize & _).
  { exact two_edges_loop. } { apply perm_swap. }
  exists w'. split_and!; [exact Hrun|exact Hempty|exact Hsize].
Defined.

Lemma isSimple_iff_no_intersection_witness :
  ∃ pts, @getSelfIntersections segments_only 5 bowtie false = Ok pts
    ∧ @getSelfIntersections segments_only 5 bowtie true = Ok (firstn 1 pts)
    ∧ @isSimple segments_only 5 bowtie = Ok (bool_decide (pts = [])).
Proof.
  apply (@isSimple_iff_no_intersection segments_only bowtie [1; 2; 3; 4]%positive 5).
  - exact bowtie_loop.
  - exact bowtie_candidates.
  - simpl. lia.
Defined.

Lemma svg_toJSON_traversal_witness :
  (∀ fuel, @svg segments_only (fun _ => "L"%string) (fun _ => "0"%string) fuel
             three_edges = TypeError)
  ∧ (∀ fuel, toJSON (fun E => shape E) (S fuel) three_edges = Ok [])
  ∧ @svg segments_only (fun _ => "L"%string) (fun _ => "0"%string) 5 unit_square
    = Ok (String "010"%char "M0,0LLLL z").
Proof.
  destruct (@svg_toJSON_traversal segments_only Shape (fun E => shape E)
              (fun _ => "L"%string) (fun _ => "0"%string) three_edges) as [Hempty _].
  destruct (@svg_toJSON_traversal segments_only Shape (fun E => shape E)
              (fun _ => "L"%string) (fun _ => "0"%string) unit_square) as [_ Hloop].
  destruct (Hloop [1; 2; 3; 4]%positive 5) as (F & cells & _ & Hc & _ & Hsvg).
  { exact unit_square_loop. } { discriminate. } { simpl. lia. }
  destruct (Hempty eq_refl) as [Hs Hj].
  split_and!; [exact Hs|exact Hj|].
  rewrite Hsvg. apply Forall2_length in Hc.
  destruct cells as [|c1 [|c2 [|c3 [|c4 [|c5 cells]]]]]; try discriminate Hc.
  reflexivity.
Defined.

End Face.
